(** * Network ACL compilation and OVN port-group synchronisation

    A shallow embedding of the Go package [acl] (the file holding
    [OVNEnsureACLs], [ovnApplyToPortGroup], [ovnRuleCriteriaToOVNACLRule],
    [OVNPortGroupDeleteIfUnused]), of [resources.GetResources] and of the
    package [schema], with the properties the specification states about
    them and further properties of the code.

    Conventions of the embedding:
    - a Go [string] is a [string] (a sequence of bytes);
    - [int64] and [int] identifiers are [Z]; the code only formats them;
    - a Go [map] that is only looked up is a [gmap]; a Go [map] or set the
      code ranges over is a list without duplicate keys, in the order of
      the iteration (Go leaves that order unspecified, every statement
      below holds for each order);
    - a function returning [(T, error)] returns [result T];
    - calls of the OVN northbound client thread a [World] explicitly. *)

From Stdlib Require Import ZArith String Ascii List Lia DecimalString.
From Stdlib Require HexadecimalString DecimalZ DecimalPos.
From stdpp Require Import gmap strings list sorting.

Local Open Scope string_scope.
Local Open Scope Z_scope.
Local Open Scope list_scope.

(** ** Go's [strings], [slices] and [fmt] as far as the package uses them *)

Module strings.

(** [unicode.IsSpace] on the ASCII range: tab, line feed, vertical tab,
    form feed, carriage return and space. *)
Definition isSpace (c : ascii) : bool :=
  let n := nat_of_ascii c in
  ((9 <=? n)%nat && (n <=? 13)%nat) || (n =? 32)%nat.

Fixpoint TrimLeft (s : string) : string :=
  match s with
  | String c s' => if isSpace c then TrimLeft s' else s
  | EmptyString => EmptyString
  end.

(** Drops the white space at the end: a suffix made of space only
    collapses to the empty string. *)
Fixpoint TrimRight (s : string) : string :=
  match s with
  | String c s' =>
      match TrimRight s' with
      | EmptyString => if isSpace c then EmptyString else String c EmptyString
      | t => String c t
      end
  | EmptyString => EmptyString
  end.

Definition TrimSpace (s : string) : string := TrimRight (TrimLeft s).

(** The splitting loop behind [Split] and [SplitN] for a separator of
    one byte (every call site of the package passes ",", "-" or "/"):
    [k] is the number of cuts still allowed. *)
Fixpoint genSplit (sep : ascii) (s : string) (k : nat) {struct s} : list string :=
  match s with
  | EmptyString => [EmptyString]
  | String c s' =>
      match k with
      | O => [s]
      | S k' =>
          if Ascii.eqb c sep then EmptyString :: genSplit sep s' k'
          else match genSplit sep s' k with
               | h :: t => String c h :: t
               | [] => [String c EmptyString]
               end
      end
  end.

(** [strings.SplitN(s, sep, n)]: [n = 0] gives nil, [n < 0] every
    field, [n > 0] at most [n] fields, the last one unsplit. *)
Definition SplitN (s : string) (sep : ascii) (n : Z) : list string :=
  if n =? 0 then []
  else if n <? 0 then genSplit sep s (String.length s)
  else genSplit sep s (Z.to_nat (n - 1)).

Definition HasPrefix (s p : string) : bool := String.prefix p s.

(** [strings.CutPrefix]: the rest after [p] and whether [p] was there. *)
Fixpoint CutPrefix (s p : string) {struct p} : string * bool :=
  match p with
  | EmptyString => (s, true)
  | String a p' =>
      match s with
      | String b s' =>
          if Ascii.eqb a b
          then (let '(r, ok) := CutPrefix s' p' in if ok then (r, true) else (s, false))
          else (s, false)
      | EmptyString => (s, false)
      end
  end.

Definition TrimPrefix (s p : string) : string := fst (CutPrefix s p).

(** The string made of one double quote (byte 34). *)
Definition quote : string := String (ascii_of_nat 34) EmptyString.

Definition Join (elems : list string) (sep : string) : string :=
  String.concat sep elems.

(** [strings.IndexByte(s, c) >= 0]. *)
Fixpoint ContainsByte (s : string) (c : ascii) : bool :=
  match s with
  | EmptyString => false
  | String a s' => Ascii.eqb a c || ContainsByte s' c
  end.

(** [strings.ReplaceAll s old new] for a non-empty [old], scanning from
    the left: [skip] counts the bytes of a match still to be dropped. *)
Fixpoint replaceFrom (old new s : string) (skip : nat) : string :=
  match s with
  | EmptyString => EmptyString
  | String c s' =>
      match skip with
      | S k => replaceFrom old new s' k
      | O =>
          if String.prefix old s
          then new +:+ replaceFrom old new s' (String.length old - 1)
          else String c (replaceFrom old new s' 0)
      end
  end.

Definition ReplaceAll (s old new : string) : string :=
  match old with
  | EmptyString => s
  | _ => replaceFrom old new s 0
  end.

End strings.

Module slices.
Definition Contains (l : list string) (x : string) : bool :=
  existsb (String.eqb x) l.
End slices.

Module fmt.
(** The verb [%d] on an integer. *)
Definition d (z : Z) : string := NilZero.string_of_int (Z.to_int z).
End fmt.

Module util.

(** Modelled from the spec: [shared/util.SplitNTrimSpace] is not among
    the sources; section 4.2 describes its use as "splitting on [,] and
    trimming", and its last argument [nilIfEmpty] returns no field at all
    for a string that is empty once trimmed. *)
Definition SplitNTrimSpace (s : string) (sep : ascii) (n : Z) (nilIfEmpty : bool)
  : list string :=
  if nilIfEmpty && String.eqb (strings.TrimSpace s) EmptyString then []
  else map strings.TrimSpace (strings.SplitN s sep n).

End util.

(** ** Results and errors *)

(** The errors the package builds with [fmt.Errorf]; the constructor keeps
    the operands of the message, [EWrap] is the verb [%w]. *)
Inductive error : Type :=
| EInvalidIPRange (subject : string)
| ECannotParsePeer (subject : string)
| EPeerNetworkNotFound (subject : string)
| EACLIDNotFound (aclName : string)
| EPeerNotOnNetwork (peerNetwork peerName aclNetwork : string)
| EIgnoreNicName (msg : string)
| EUnrecognisedUsage
| ENotFound (what : string)
| EExists
| EClient (callNumber : nat)
| EWrap (context : string) (cause : error).

Inductive result (A : Type) : Type :=
| Ok (a : A)
| Err (e : error).
Arguments Ok {A} a.
Arguments Err {A} e.

Definition is_ok {A} (r : result A) : bool :=
  match r with Ok _ => true | Err _ => false end.


(** ** Sequential code with effects

    A computation over a state [S] returns a result and the state it
    leaves; after an error the rest of the function body is skipped and
    the state reached so far is kept. *)

Definition M (S A : Type) : Type := S -> result A * S.

Definition ret {S A} (a : A) : M S A := fun s => (Ok a, s).

Definition fail {S A} (e : error) : M S A := fun s => (Err e, s).

Definition bind {S A B} (m : M S A) (k : A -> M S B) : M S B :=
  fun s =>
    match m s with
    | (Ok a, s') => k a s'
    | (Err e, s') => (Err e, s')
    end.

Notation "x <- m ;; k" := (bind m (fun x => k))
  (at level 100, m at next level, right associativity).

(** [fmt.Errorf("context: %w", err)] around a call. *)
Definition wrap {S A} (context : string) (m : M S A) : M S A :=
  fun s =>
    match m s with
    | (Ok a, s') => (Ok a, s')
    | (Err e, s') => (Err (EWrap context e), s')
    end.

(** A pure step that may fail. *)
Definition lift {S A} (r : result A) : M S A := fun s => (r, s).

(** A [for ... range] loop whose body may return an error. *)
Fixpoint forEach {S A} (l : list A) (body : A -> M S unit) : M S unit :=
  match l with
  | [] => ret tt
  | x :: rest => _ <- body x ;; forEach rest body
  end.

(** The same loop threading an accumulator. *)
Fixpoint foldM {S A B} (l : list A) (acc : B) (body : B -> A -> M S B) : M S B :=
  match l with
  | [] => ret acc
  | x :: rest => acc' <- body acc x ;; foldM rest acc' body
  end.

(** ** Types of [shared/api], [cluster] and [ovn] the package works on *)

Module api.

(** [api.NetworkACLRule]: every field is a string, also [Action] and
    [State] (the record has no enumerated type). *)
Record NetworkACLRule : Type := {
  Action : string;
  Source : string;
  Destination : string;
  Protocol : string;
  SourcePort : string;
  DestinationPort : string;
  ICMPType : string;
  ICMPCode : string;
  State : string
}.

Record NetworkACL : Type := {
  Name : string;
  Project : string;
  Ingress : list NetworkACLRule;
  Egress : list NetworkACLRule
}.

Record Network : Type := {
  NetworkName : string;
  NetworkType : string
}.

Definition withSubjects (r : NetworkACLRule) (src dst : string) : NetworkACLRule :=
  {| Action := Action r; Source := src; Destination := dst;
     Protocol := Protocol r; SourcePort := SourcePort r;
     DestinationPort := DestinationPort r; ICMPType := ICMPType r;
     ICMPCode := ICMPCode r; State := State r |}.

Definition withProject (a : NetworkACL) (p : string) : NetworkACL :=
  {| Name := Name a; Project := p; Ingress := Ingress a; Egress := Egress a |}.

End api.

Module cluster.

Record NetworkPeerConnection : Type := {
  NetworkName : string;
  PeerName : string
}.

Definition peerKey (p : NetworkPeerConnection) : string * string :=
  (NetworkName p, PeerName p).

(** A row of the peers table: [TargetNetworkID] is a nullable column. *)
Record NetworkPeer : Type := {
  Name : string;
  TargetNetworkID : option Z
}.

Record NetworkAddressSet : Type := {
  SetName : string;
  SetID : Z
}.

End cluster.

Module ovn.

Record OVNACLRule : Type := {
  Direction : string;
  Action : string;
  Priority : Z;
  Match : string;
  Log : bool;
  LogName : string
}.

Definition withMatch (r : OVNACLRule) (m : string) : OVNACLRule :=
  {| Direction := Direction r; Action := Action r; Priority := Priority r;
     Match := m; Log := Log r; LogName := LogName r |}.

Definition withLog (r : OVNACLRule) (name : string) : OVNACLRule :=
  {| Direction := Direction r; Action := Action r; Priority := Priority r;
     Match := Match r; Log := true; LogName := name |}.

(** *** The northbound client

    Modelled from the spec: the client [ovn.NB] is not among the
    sources. Section 6 lists its operations: [get_port_group_info]
    answers whether the group is there ([uuid] not empty) and whether
    it carries rules, [create_port_group] adds a group (the package's
    own [ErrExists] is the answer for a name already taken),
    [delete_port_group] deletes a batch and ignores missing names,
    [list_port_groups_by_project] lists names, and
    [update_port_group_acl_rules] replaces the rule set of a group
    after applying the substitutions to each match. *)

Record PortGroup : Type := {
  ProjectID : Z;
  ParentGroup : string;
  Switch : string;
  Ports : list string;
  ACLs : list OVNACLRule
}.

Definition withACLs (g : PortGroup) (rules : list OVNACLRule) : PortGroup :=
  {| ProjectID := ProjectID g; ParentGroup := ParentGroup g; Switch := Switch g;
     Ports := Ports g; ACLs := rules |}.

(** What the client did to the database, oldest first; a creation and an
    update keep the port groups that were there when they were issued. *)
Inductive Event : Type :=
| EvCreatePortGroup (name : string) (present : gmap string PortGroup)
| EvUpdatePortGroupACLRules (name : string) (rules : list OVNACLRule)
    (present : gmap string PortGroup)
| EvDeletePortGroup (names : list string).

(** The northbound database as the client sees it: the port groups,
    the number of calls made, which calls fail (a lost connection, a
    rejected transaction) and the log of the mutations. *)
Record NB : Type := {
  portGroups : gmap string PortGroup;
  calls : nat;
  faults : nat -> bool;
  trace : list Event
}.

Definition tick (w : NB) : NB :=
  {| portGroups := portGroups w; calls := S (calls w); faults := faults w;
     trace := trace w |}.

Definition setGroups (w : NB) (g : gmap string PortGroup) (ev : Event) : NB :=
  {| portGroups := g; calls := calls w; faults := faults w;
     trace := trace w ++ [ev] |}.

(** Every operation is one call: it is counted, and fails without any
    effect when the connection fails at that call. *)
Definition call {A} (op : M NB A) : M NB A :=
  fun w =>
    if faults w (calls w) then (Err (EClient (calls w)), tick w)
    else op (tick w).

(** The first result stands for [uuid != ""]. *)
Definition GetPortGroupInfo (name : string) : M NB (bool * bool) :=
  call (fun w =>
    match portGroups w !! name with
    | Some g => (Ok (true, negb (Nat.eqb (length (ACLs g)) 0)), w)
    | None => (Ok (false, false), w)
    end).

Definition CreatePortGroup (projectID : Z) (name parent switch : string)
    (initialPortMembers : list string) : M NB unit :=
  call (fun w =>
    match portGroups w !! name with
    | Some _ => (Err EExists, w)
    | None =>
        let g := {| ProjectID := projectID; ParentGroup := parent; Switch := switch;
                    Ports := initialPortMembers; ACLs := [] |} in
        (Ok tt, setGroups w (<[name := g]> (portGroups w))
                (EvCreatePortGroup name (portGroups w)))
    end).

Definition deleteAll (names : list string) (g : gmap string PortGroup)
  : gmap string PortGroup :=
  fold_left (fun m n => delete n m) names g.

Definition DeletePortGroup (names : list string) : M NB unit :=
  call (fun w =>
    (Ok tt, setGroups w (deleteAll names (portGroups w)) (EvDeletePortGroup names))).

Definition GetPortGroupsByProject (projectID : Z) : M NB (list string) :=
  call (fun w =>
    (Ok (map fst (filter (fun kv => Z.eqb (ProjectID (snd kv)) projectID)
                    (map_to_list (portGroups w)))), w)).

Definition applyReplace (matchReplace : list (string * string)) (m : string) : string :=
  fold_left (fun acc fr => strings.ReplaceAll acc (fst fr) (snd fr)) matchReplace m.

Definition UpdatePortGroupACLRules (name : string)
    (matchReplace : list (string * string)) (rules : list OVNACLRule) : M NB unit :=
  call (fun w =>
    match portGroups w !! name with
    | None => (Err (ENotFound name), w)
    | Some g =>
        let rules' := map (fun r => withMatch r (applyReplace matchReplace (Match r))) rules in
        (Ok tt, setGroups w (<[name := withACLs g rules']> (portGroups w))
                  (EvUpdatePortGroupACLRules name rules' (portGroups w)))
    end).

End ovn.

(** Modelled from the spec: [shared/revert] is not among the sources;
    section 4.4 (step 8) and section 9 describe it as a stack of
    compensating actions run in LIFO order. *)
Module revert.

Definition Hook : Type := ovn.NB -> ovn.NB.

(** The hooks in the order they were added. *)
Definition Reverter : Type := list Hook.

Definition New : Reverter := [].

Definition Add (r : Reverter) (h : Hook) : Reverter := r ++ [h].

(** [Fail] runs the hooks, the last one added first. *)
Definition Fail (r : Reverter) : Hook :=
  fun w => fold_left (fun w' h => h w') (rev r) w.

Definition Clone (r : Reverter) : Reverter := r.

(** After [Success] the deferred [Fail] finds no hook. *)
Definition Success (r : Reverter) : Reverter := [].

End revert.

(** [acl.NetworkACLUsage], as far as the package reads it. *)
Record NetworkACLUsage : Type := {
  UsageName : string;
  UsageID : Z
}.

(** ** Address parsing

    [net.ParseIP], [net.ParseCIDR] and the validators of [shared/validate]
    are outside the package. The package only asks whether they succeed
    and whether the address has a four-byte form, so they are taken as
    the operations of a class; every general statement below holds for
    each implementation. *)
Class NetLib : Type := {
  (** [net.ParseIP s]: [None] for nil, otherwise whether [To4] is not nil *)
  ParseIP : string -> option bool;
  (** the address returned by [net.ParseCIDR s], in the same form *)
  ParseCIDR : string -> option bool;
  (** [validate.IsNetworkAddressCIDR s == nil] *)
  IsNetworkAddressCIDR : string -> bool;
  (** [validate.IsNetworkRange s == nil] *)
  IsNetworkRange : string -> bool
}.

(** ** Package [acl]: constants and names *)

Definition ovnACLPriorityPortGroupDefaultAction : Z := 0.
Definition ovnACLPriorityNICDefaultActionIngress : Z := 100.
Definition ovnACLPriorityNICDefaultActionEgress : Z := 111.
Definition ovnACLPrioritySwitchAllow : Z := 200.
Definition ovnACLPriorityPortGroupAllow : Z := 300.
Definition ovnACLPriorityPortGroupReject : Z := 400.
Definition ovnACLPriorityPortGroupDrop : Z := 500.

Definition ovnACLPortGroupPrefix : string := "incus_acl".

(** Modelled from the spec: the reserved subjects are declared in a file
    of the package that is not among the sources. Section 3 names the
    aliases [@internal], [@external] and their legacy synonyms with [#];
    sections 4.4 and 9 give the pseudo port groups the compiler writes as
    [@__internal__] and [@__external__], that is "@" followed by these
    two constants. *)
Definition ruleSubjectInternal : string := "__internal__".
Definition ruleSubjectExternal : string := "__external__".
Definition ruleSubjectInternalAliases : list string := ["@internal"; "#internal"].
Definition ruleSubjectExternalAliases : list string := ["@external"; "#external"].

(** Modelled from the spec: [ValidActions] is declared next to them;
    section 3 lists the four actions. *)
Definition ValidActions : list string := ["allow"; "allow-stateless"; "reject"; "drop"].

Definition OVNACLPortGroupName (networkACLID : Z) : string :=
  ovnACLPortGroupPrefix +:+ fmt.d networkACLID.

Definition OVNACLNetworkPortGroupName (networkACLID networkID : Z) : string :=
  ovnACLPortGroupPrefix +:+ fmt.d networkACLID +:+ "_net" +:+ fmt.d networkID.

Definition OVNIntSwitchPortGroupName (networkID : Z) : string :=
  "incus_net" +:+ fmt.d networkID.

Definition OVNIntSwitchPortGroupAddressSetPrefix (networkID : Z) : string :=
  OVNIntSwitchPortGroupName networkID +:+ "_routes".

Definition OVNNetworkPrefix (networkID : Z) : string :=
  "incus-net" +:+ fmt.d networkID.

Definition OVNIntSwitchName (networkID : Z) : string :=
  OVNNetworkPrefix networkID +:+ "-ls-int".

Definition OVNIntSwitchRouterPortName (networkID : Z) : string :=
  OVNIntSwitchName networkID +:+ "-lsp-router".

(** [aclNameIDs[name]]: a Go map read without the second result gives the
    zero value for a missing key. *)
Definition idOf (aclNameIDs : gmap string Z) (name : string) : Z :=
  default 0 (aclNameIDs !! name).

(** ** The compiler: lowering one rule *)

(** One port criterion of [ovnRulePortToOVNACLMatch]: the body of its loop. *)
Definition portCriterionMatch (protocol direction portCriterion : string) : string :=
  let criterionParts := strings.SplitN portCriterion "-" 2 in
  match criterionParts with
  | p0 :: p1 :: _ =>
      "(" +:+ protocol +:+ "." +:+ direction +:+ " >= " +:+ p0 +:+ " && "
          +:+ protocol +:+ "." +:+ direction +:+ " <= " +:+ p1 +:+ ")"
  | _ =>
      protocol +:+ "." +:+ direction +:+ " == " +:+ hd "" criterionParts
  end.

Definition ovnRulePortToOVNACLMatch (protocol direction : string)
    (portCriteria : list string) : string :=
  let fieldParts := map (portCriterionMatch protocol direction) portCriteria in
  strings.Join fieldParts " || ".

Definition ipProtocol (isV4 : bool) : string := if isV4 then "ip4" else "ip6".

Section Compiler.

Context {netlib : NetLib}.

(** The accumulators of the loop of [ovnRuleSubjectToOVNACLMatch]. *)
Record subjectAcc : Type := {
  fieldParts : list string;
  networkSpecific : bool;
  networkPeersNeeded : list cluster.NetworkPeerConnection
}.

Definition addField (a : subjectAcc) (f : string) : subjectAcc :=
  {| fieldParts := fieldParts a ++ [f];
     networkSpecific := networkSpecific a;
     networkPeersNeeded := networkPeersNeeded a |}.

(** The end of the loop body for a subject that selects ports. *)
Definition addPortSelector (a : subjectAcc) (direction subjectPortSelector : string)
    (netSpecific : bool) : subjectAcc :=
  let portType := if String.eqb direction "dst" then "outport" else "inport" in
  {| fieldParts := fieldParts a ++ [portType +:+ " == @" +:+ subjectPortSelector];
     networkSpecific := netSpecific || networkSpecific a;
     networkPeersNeeded := networkPeersNeeded a |}.

(** One iteration of the loop of [ovnRuleSubjectToOVNACLMatch]. *)
Definition subjectCriterionStep (direction : string) (aclNameIDs : gmap string Z)
    (peerTargetNetIDs : gmap (string * string) Z)
    (a : subjectAcc) (subjectCriterion : string) : result subjectAcc :=
  if IsNetworkRange subjectCriterion then
    match strings.SplitN subjectCriterion "-" 2 with
    | p0 :: p1 :: _ =>
        match ParseIP p0 with
        | Some v4 =>
            let protocol := ipProtocol v4 in
            Ok (addField a
                  ("(" +:+ protocol +:+ "." +:+ direction +:+ " >= " +:+ p0 +:+ " && "
                       +:+ protocol +:+ "." +:+ direction +:+ " <= " +:+ p1 +:+ ")"))
        | None => Ok a
        end
    | _ => Err (EInvalidIPRange subjectCriterion)
    end
  else
    let ip := match ParseIP subjectCriterion with
              | Some v4 => Some v4
              | None => ParseCIDR subjectCriterion
              end in
    match ip with
    | Some v4 =>
        Ok (addField a (ipProtocol v4 +:+ "." +:+ direction +:+ " == " +:+ subjectCriterion))
    | None =>
        if slices.Contains ruleSubjectInternalAliases subjectCriterion then
          Ok (addPortSelector a direction ruleSubjectInternal true)
        else if slices.Contains ruleSubjectExternalAliases subjectCriterion then
          Ok (addPortSelector a direction ruleSubjectExternal true)
        else if strings.HasPrefix subjectCriterion "$" then
          Ok (addField a
                ("ip6." +:+ direction +:+ " == " +:+ subjectCriterion +:+ "_ip6 || ip4."
                        +:+ direction +:+ " == " +:+ subjectCriterion +:+ "_ip4"))
        else
          let '(after, ok) := strings.CutPrefix subjectCriterion "@" in
          if ok then
            match strings.SplitN after "/" 2 with
            | [p0; p1] =>
                let peer := {| cluster.NetworkName := p0; cluster.PeerName := p1 |} in
                match peerTargetNetIDs !! cluster.peerKey peer with
                | None => Err (EPeerNetworkNotFound subjectCriterion)
                | Some networkID =>
                    let addrSetPrefix := OVNIntSwitchPortGroupAddressSetPrefix networkID in
                    Ok {| fieldParts := fieldParts a ++
                            ["ip6." +:+ direction +:+ " == $" +:+ addrSetPrefix +:+ "_ip6 || ip4."
                                    +:+ direction +:+ " == $" +:+ addrSetPrefix +:+ "_ip4"];
                          networkSpecific := networkSpecific a;
                          networkPeersNeeded := networkPeersNeeded a ++ [peer] |}
                end
            | _ => Err (ECannotParsePeer subjectCriterion)
            end
          else
            match aclNameIDs !! subjectCriterion with
            | None => Err (EACLIDNotFound subjectCriterion)
            | Some aclID => Ok (addPortSelector a direction (OVNACLPortGroupName aclID) false)
            end
    end.

Fixpoint subjectLoop (direction : string) (aclNameIDs : gmap string Z)
    (peerTargetNetIDs : gmap (string * string) Z)
    (subjectCriteria : list string) (a : subjectAcc) : result subjectAcc :=
  match subjectCriteria with
  | [] => Ok a
  | c :: rest =>
      match subjectCriterionStep direction aclNameIDs peerTargetNetIDs a c with
      | Ok a' => subjectLoop direction aclNameIDs peerTargetNetIDs rest a'
      | Err e => Err e
      end
  end.

(** [ovnRuleSubjectToOVNACLMatch]: the match of a subject list, whether
    a subject is specific to a network, and the peers needed. *)
Definition ovnRuleSubjectToOVNACLMatch (direction : string) (aclNameIDs : gmap string Z)
    (peerTargetNetIDs : gmap (string * string) Z) (subjectCriteria : list string)
  : result (string * bool * list cluster.NetworkPeerConnection) :=
  match subjectLoop direction aclNameIDs peerTargetNetIDs subjectCriteria
          {| fieldParts := []; networkSpecific := false; networkPeersNeeded := [] |} with
  | Ok a => Ok (strings.Join (fieldParts a) " || ", networkSpecific a, networkPeersNeeded a)
  | Err e => Err e
  end.

(** A subject of the form [@net/peer] that is no address, CIDR or range:
    the subjects the loop lowers as a peer. *)
Definition peerSubject (tok net peer : string) : Prop :=
  tok = "@" +:+ net +:+ "/" +:+ peer
  /\ strings.ContainsByte net "/" = false
  /\ IsNetworkRange tok = false
  /\ ParseIP tok = None
  /\ ParseCIDR tok = None.

End Compiler.

(** ** The catalog

    The cluster database is read through short transactions; the package
    uses these queries (section 4.1). *)
Record DB : Type := {
  GetProjectID : string -> result Z;
  GetCreatedNetworksByProject : string -> result (list (Z * api.Network));
  GetNetworkPeers : Z -> result (list cluster.NetworkPeer);
  GetNetworkACLAPI : string -> string -> result api.NetworkACL;
  GetNetworkAddressSet : string -> string -> result cluster.NetworkAddressSet;
  GetNetworkACLs : string -> result (list (string * Z));
  GetNetworkInAnyState : string -> string -> result (Z * api.Network)
}.

(** A Go set [map[string]struct{}] in the order its keys were added. *)
Definition setAdd (set : list string) (x : string) : list string :=
  if slices.Contains set x then set else set ++ [x].

Definition setDelete (set : list string) (x : string) : list string :=
  filter (fun y => negb (String.eqb x y)) set.

(** [replaceAddressSetNames]: the names of address sets become their OVN
    identifiers. *)
Definition replaceAddressSetNames (subject : string) (addressSetIDs : gmap string Z) : string :=
  let subjects := util.SplitNTrimSpace subject "," (-1) true in
  let subjects' :=
    map (fun subj =>
           let '(after, ok) := strings.CutPrefix subj "$" in
           if ok then
             match addressSetIDs !! after with
             | Some setID => "$incus_set" +:+ fmt.d setID
             | None => subj
             end
           else subj) subjects in
  strings.Join subjects' ",".

Section Apply.

Context {netlib : NetLib}.

(** The closure [addACLNamesFrom] of [ovnAddReferencedACLs]. *)
Definition addACLNamesFrom (referencedACLNames : list string) (ruleSubjects : list string)
  : list string :=
  fold_left
    (fun refs subject =>
       if slices.Contains refs subject then refs
       else if slices.Contains (ruleSubjectInternalAliases ++ ruleSubjectExternalAliases) subject
       then refs
       else if IsNetworkAddressCIDR subject || IsNetworkRange subject then refs
       else refs ++ [subject])
    ruleSubjects referencedACLNames.

(** [ovnAddReferencedACLs]: the set it is given, extended. *)
Definition ovnAddReferencedACLs (info : api.NetworkACL) (referencedACLNames : list string)
  : list string :=
  let refs1 :=
    fold_left (fun refs rule =>
                 addACLNamesFrom refs (util.SplitNTrimSpace (api.Source rule) "," (-1) true))
              (api.Ingress info) referencedACLNames in
  fold_left (fun refs rule =>
               addACLNamesFrom refs (util.SplitNTrimSpace (api.Destination rule) "," (-1) true))
            (api.Egress info) refs1.

(** The switch of [ovnRuleCriteriaToOVNACLRule] on the action of the
    rule. It has no default case: for any other action the fields
    [Action] and [Priority] keep their zero values. *)
Definition actionAndPriority (action : string) : string * Z :=
  if String.eqb action "allow" then ("allow-related", ovnACLPriorityPortGroupAllow)
  else if String.eqb action "allow-stateless"
       then ("allow-stateless", ovnACLPriorityPortGroupAllow)
  else if String.eqb action "reject" then ("reject", ovnACLPriorityPortGroupReject)
  else if String.eqb action "drop" then ("drop", ovnACLPriorityPortGroupDrop)
  else ("", 0).

(** The switch on the direction: the first match part. *)
Definition directionalMatch (direction portGroupName : string) : list string :=
  if String.eqb direction "ingress" then ["outport == @" +:+ portGroupName]
  else if String.eqb direction "egress" then ["inport == @" +:+ portGroupName]
  else ["inport == @" +:+ portGroupName +:+ " || outport == @" +:+ portGroupName].

(** The block [if rule.Source != ""] (and the one on [Destination]):
    the match part it appends, if any, with its two other results. *)
Definition subjectParts (direction : string) (aclNameIDs : gmap string Z)
    (peerTargetNetIDs : gmap (string * string) Z) (subject : string)
  : result (list string * bool * list cluster.NetworkPeerConnection) :=
  if String.eqb subject "" then Ok ([], false, [])
  else match ovnRuleSubjectToOVNACLMatch direction aclNameIDs peerTargetNetIDs
               (util.SplitNTrimSpace subject "," (-1) false) with
       | Ok (m, netSpecificMatch, networkPeers) => Ok ([m], netSpecificMatch, networkPeers)
       | Err e => Err e
       end.

(** The block on the port of one direction. *)
Definition portParts (protocol direction port : string) : list string :=
  if String.eqb port "" then []
  else [ovnRulePortToOVNACLMatch protocol direction
          (util.SplitNTrimSpace port "," (-1) false)].

(** The protocol filters: the match parts they append. *)
Definition protocolParts (rule : api.NetworkACLRule) : list string :=
  let protocol := api.Protocol rule in
  if slices.Contains ["tcp"; "udp"] protocol then
    [protocol] ++ portParts protocol "src" (api.SourcePort rule)
               ++ portParts protocol "dst" (api.DestinationPort rule)
  else if slices.Contains ["icmp4"; "icmp6"] protocol then
    [protocol]
    ++ (if String.eqb (api.ICMPType rule) "" then []
        else [protocol +:+ ".type == " +:+ api.ICMPType rule])
    ++ (if String.eqb (api.ICMPCode rule) "" then []
        else [protocol +:+ ".code == " +:+ api.ICMPCode rule])
  else [].

(** [ovnRuleCriteriaToOVNACLRule]. *)
Definition ovnRuleCriteriaToOVNACLRule (direction : string) (rule : api.NetworkACLRule)
    (portGroupName : string) (aclNameIDs : gmap string Z)
    (peerTargetNetIDs : gmap (string * string) Z)
  : result (ovn.OVNACLRule * bool * list cluster.NetworkPeerConnection) :=
  match subjectParts "src" aclNameIDs peerTargetNetIDs (api.Source rule) with
  | Err e => Err e
  | Ok (srcParts, srcSpecific, srcPeers) =>
      match subjectParts "dst" aclNameIDs peerTargetNetIDs (api.Destination rule) with
      | Err e => Err e
      | Ok (dstParts, dstSpecific, dstPeers) =>
          let matchParts :=
            directionalMatch direction portGroupName
              ++ srcParts ++ dstParts ++ protocolParts rule in
          Ok ({| ovn.Direction := "to-lport";
                 ovn.Action := fst (actionAndPriority (api.Action rule));
                 ovn.Priority := snd (actionAndPriority (api.Action rule));
                 ovn.Match := "(" +:+ strings.Join matchParts ") && (" +:+ ")";
                 ovn.Log := false;
                 ovn.LogName := "" |},
              srcSpecific || dstSpecific,
              srcPeers ++ dstPeers)
      end
  end.

(** What [ovnApplyToPortGroup] has gathered when its two calls of
    [convertACLRules] are through. *)
Record converted : Type := {
  portGroupRules : list ovn.OVNACLRule;
  networkRules : list ovn.OVNACLRule;
  peersNeeded : list cluster.NetworkPeerConnection
}.

(** The rule as [convertACLRules] hands it to the lowering: the names
    of address sets replaced in both subject lists. *)
Definition withAddressSets (rule : api.NetworkACLRule) (addressSetIDs : gmap string Z)
  : api.NetworkACLRule :=
  api.withSubjects rule
    (replaceAddressSetNames (api.Source rule) addressSetIDs)
    (replaceAddressSetNames (api.Destination rule) addressSetIDs).

(** The body of the loop of the closure [convertACLRules] for a rule
    that is not disabled, up to the OVN rule with its log fields. *)
Definition lowerRule (portGroupName : string) (aclNameIDs : gmap string Z)
    (peerTargetNetIDs : gmap (string * string) Z) (addressSetIDs : gmap string Z)
    (direction : string) (ruleIndex : Z) (rule : api.NetworkACLRule)
  : result (ovn.OVNACLRule * bool * list cluster.NetworkPeerConnection) :=
  match ovnRuleCriteriaToOVNACLRule direction (withAddressSets rule addressSetIDs)
          portGroupName aclNameIDs peerTargetNetIDs with
  | Err e => Err e
  | Ok (ovnACLRule, netSpecific, networkPeers) =>
      Ok (if String.eqb (api.State rule) "logged"
          then ovn.withLog ovnACLRule
                 (portGroupName +:+ "-" +:+ direction +:+ "-" +:+ fmt.d ruleIndex)
          else ovnACLRule,
          netSpecific, networkPeers)
  end.

(** The whole body of that loop. *)
Definition convertACLRule (portGroupName : string) (aclNameIDs : gmap string Z)
    (peerTargetNetIDs : gmap (string * string) Z) (addressSetIDs : gmap string Z)
    (direction : string) (ruleIndex : Z) (rule : api.NetworkACLRule) (c : converted)
  : result converted :=
  if String.eqb (api.State rule) "disabled" then Ok c
  else
    match lowerRule portGroupName aclNameIDs peerTargetNetIDs addressSetIDs
            direction ruleIndex rule with
    | Err e => Err e
    | Ok (ovnACLRule, netSpecific, networkPeers) =>
        Ok {| portGroupRules :=
                if netSpecific then portGroupRules c else portGroupRules c ++ [ovnACLRule];
              networkRules :=
                if netSpecific then networkRules c ++ [ovnACLRule] else networkRules c;
              peersNeeded := peersNeeded c ++ networkPeers |}
    end.

Fixpoint convertACLRulesFrom (portGroupName : string) (aclNameIDs : gmap string Z)
    (peerTargetNetIDs : gmap (string * string) Z) (addressSetIDs : gmap string Z)
    (direction : string) (ruleIndex : Z) (rules : list api.NetworkACLRule) (c : converted)
  : result converted :=
  match rules with
  | [] => Ok c
  | rule :: rest =>
      match convertACLRule portGroupName aclNameIDs peerTargetNetIDs addressSetIDs
              direction ruleIndex rule c with
      | Err e => Err e
      | Ok c' =>
          convertACLRulesFrom portGroupName aclNameIDs peerTargetNetIDs addressSetIDs
            direction (ruleIndex + 1) rest c'
      end
  end.

(** The closure [convertACLRules]. *)
Definition convertACLRules (portGroupName : string) (aclNameIDs : gmap string Z)
    (peerTargetNetIDs : gmap (string * string) Z) (addressSetIDs : gmap string Z)
    (direction : string) (rules : list api.NetworkACLRule) (c : converted)
  : result converted :=
  convertACLRulesFrom portGroupName aclNameIDs peerTargetNetIDs addressSetIDs
    direction 0 rules c.

End Apply.

(** ** The reconciler *)

Section Reconciler.

Context {netlib : NetLib}.

(** The closure [extractAddressSets] of [ovnApplyToPortGroup]. *)
Definition extractAddressSets (rules : list api.NetworkACLRule) (addressSetNamesSet : list string)
  : list string :=
  fold_left
    (fun set rule =>
       let collect set' subjects :=
         fold_left (fun s subj => if strings.HasPrefix subj "$" then setAdd s subj else s)
                   subjects set' in
       collect (collect set (util.SplitNTrimSpace (api.Source rule) "," (-1) true))
               (util.SplitNTrimSpace (api.Destination rule) "," (-1) true))
    rules addressSetNamesSet.

(** The loop of [ovnApplyToPortGroup] mapping address set names to IDs. *)
Fixpoint loadAddressSetIDs (db : DB) (project : string) (addressSetNames : list string)
    (addressSetIDs : gmap string Z) : result (gmap string Z) :=
  match addressSetNames with
  | [] => Ok addressSetIDs
  | setName :: rest =>
      match GetNetworkAddressSet db project (strings.TrimPrefix setName "$") with
      | Err e => Err (EWrap "Failed fetching address set IDs" e)
      | Ok set =>
          loadAddressSetIDs db project rest
            (<[cluster.SetName set := cluster.SetID set]> addressSetIDs)
      end
  end.

Definition defaultRule (portGroupName : string) : ovn.OVNACLRule :=
  {| ovn.Direction := "to-lport";
     ovn.Action := "drop";
     ovn.Priority := ovnACLPriorityPortGroupDefaultAction;
     ovn.Match := "(inport == @" +:+ portGroupName +:+ " || outport == @" +:+ portGroupName +:+ ")";
     ovn.Log := false;
     ovn.LogName := portGroupName |}.

(** The first part of [ovnApplyToPortGroup], up to the default rule:
    it reads the catalog and calls no client operation. *)
Definition compileACL (db : DB) (aclInfo : api.NetworkACL) (portGroupName : string)
    (aclNameIDs : gmap string Z) (peerTargetNetIDs : gmap (string * string) Z)
  : result converted :=
  let addressSetNames :=
    extractAddressSets (api.Egress aclInfo) (extractAddressSets (api.Ingress aclInfo) []) in
  match loadAddressSetIDs db (api.Project aclInfo) addressSetNames ∅ with
  | Err e => Err e
  | Ok addressSetIDs =>
      let c0 := {| portGroupRules := []; networkRules := []; peersNeeded := [] |} in
      match convertACLRules portGroupName aclNameIDs peerTargetNetIDs addressSetIDs
              "ingress" (api.Ingress aclInfo) c0 with
      | Err e => Err (EWrap "Failed converting ACL ingress rules" e)
      | Ok c1 =>
          match convertACLRules portGroupName aclNameIDs peerTargetNetIDs addressSetIDs
                  "egress" (api.Egress aclInfo) c1 with
          | Err e => Err (EWrap "Failed converting ACL egress rules" e)
          | Ok c2 =>
              Ok {| portGroupRules := portGroupRules c2 ++ [defaultRule portGroupName];
                    networkRules := networkRules c2;
                    peersNeeded := peersNeeded c2 |}
          end
      end
  end.

(** The check that the ACL is only applied to networks that have the
    required peers: the first pair the two loops find at fault. *)
Fixpoint checkPeers (aclNets : list NetworkACLUsage)
    (networkPeersNeeded : list cluster.NetworkPeerConnection) : result unit :=
  match aclNets with
  | [] => Ok tt
  | aclNet :: rest =>
      match List.find (fun peer => negb (String.eqb (cluster.NetworkName peer) (UsageName aclNet)))
                      networkPeersNeeded with
      | Some peer =>
          Err (EPeerNotOnNetwork (cluster.NetworkName peer) (cluster.PeerName peer)
                 (UsageName aclNet))
      | None => checkPeers rest networkPeersNeeded
      end
  end.

(** [ovnApplyToPortGroup]. *)
Definition ovnApplyToPortGroup (db : DB) (aclInfo : api.NetworkACL) (portGroupName : string)
    (aclNameIDs : gmap string Z) (aclNets : list NetworkACLUsage)
    (peerTargetNetIDs : gmap (string * string) Z) : M ovn.NB unit :=
  c <- lift (compileACL db aclInfo portGroupName aclNameIDs peerTargetNetIDs) ;;
  _ <- lift (checkPeers aclNets (peersNeeded c)) ;;
  _ <- wrap "Failed applying ACL rules to port group"
         (ovn.UpdatePortGroupACLRules portGroupName [] (portGroupRules c)) ;;
  forEach aclNets (fun aclNet =>
    let netPortGroupName :=
      OVNACLNetworkPortGroupName (idOf aclNameIDs (api.Name aclInfo)) (UsageID aclNet) in
    let matchReplace :=
      [("@" +:+ ruleSubjectInternal, "@" +:+ OVNIntSwitchPortGroupName (UsageID aclNet));
       ("@" +:+ ruleSubjectExternal,
        strings.quote +:+ OVNIntSwitchRouterPortName (UsageID aclNet) +:+ strings.quote)] in
    wrap "Failed applying ACL rules to port group for network"
      (ovn.UpdatePortGroupACLRules netPortGroupName matchReplace (networkRules c))).

End Reconciler.

(** [OVNEnsureACLs] keeps, next to the client, the reverter of its first
    line: the hooks added so far are still there when the body stops at
    an error. *)
Record Run : Type := {
  client : ovn.NB;
  reverter : revert.Reverter
}.

Definition onClient {A} (m : M ovn.NB A) : M Run A :=
  fun s =>
    let '(r, w) := m (client s) in
    (r, {| client := w; reverter := reverter s |}).

(** The hook [func() { _ = client.DeletePortGroup(ctx, name) }]: the error
    of the deletion is dropped. *)
Definition deleteHook (portGroupName : string) : revert.Hook :=
  fun w => snd (ovn.DeletePortGroup [portGroupName] w).

Definition reverterAdd (h : revert.Hook) : M Run unit :=
  fun s => (Ok tt, {| client := client s; reverter := revert.Add (reverter s) h |}).

(** The pair of statements found at each creation of a port group in
    [OVNEnsureACLs]: [client.CreatePortGroup], and on success
    [reverter.Add] of the hook that deletes the group. *)
Definition createPortGroup (context : string) (projectID : Z) (name parent switch : string)
    (initialPortMembers : list string) : M Run unit :=
  _ <- onClient (wrap context
                   (ovn.CreatePortGroup projectID name parent switch initialPortMembers)) ;;
  reverterAdd (deleteHook name).

(** The local type [aclStatus] of [OVNEnsureACLs]; its field [uuid] is
    stored and never read. *)
Record aclStatus : Type := {
  name : string;
  aclInfo : option api.NetworkACL;
  addACLNets : list NetworkACLUsage
}.

(** [addACLNets[aclNet.Name] = aclNet] on a map kept in the order of the
    first insertion of each key. *)
Fixpoint usagePut (m : list NetworkACLUsage) (u : NetworkACLUsage) : list NetworkACLUsage :=
  match m with
  | [] => [u]
  | v :: rest =>
      if String.eqb (UsageName v) (UsageName u) then u :: rest else v :: usagePut rest u
  end.

Definition wrapR {A} (context : string) (r : result A) : result A :=
  match r with
  | Ok a => Ok a
  | Err e => Err (EWrap context e)
  end.

Section EnsureACLs.

Context {netlib : NetLib}.

(** The second transaction of [OVNEnsureACLs]: the target network of
    every peer of every OVN network of the project. *)
Fixpoint loadPeers (db : DB) (networks : list (Z * api.Network))
    (peerTargetNetIDs : gmap (string * string) Z) : result (gmap (string * string) Z) :=
  match networks with
  | [] => Ok peerTargetNetIDs
  | (netID, network) :: rest =>
      if negb (String.eqb (api.NetworkType network) "ovn") then
        loadPeers db rest peerTargetNetIDs
      else
        match GetNetworkPeers db netID with
        | Err e => Err (EWrap "Failed loading network peers" e)
        | Ok dbPeers =>
            loadPeers db rest
              (fold_left
                 (fun m dbPeer =>
                    match cluster.TargetNetworkID dbPeer with
                    | Some target =>
                        <[(api.NetworkName network, cluster.Name dbPeer) := target]> m
                    | None => m
                    end)
                 dbPeers peerTargetNetIDs)
        end
  end.

Definition loadPeerTargetNetIDs (db : DB) (aclProjectName : string)
  : result (gmap (string * string) Z) :=
  wrapR "Failed getting peer connection mappings"
    match GetCreatedNetworksByProject db aclProjectName with
    | Err e => Err (EWrap "Failed getting created networks" e)
    | Ok networks => loadPeers db networks ∅
    end.

(** First check: all ACL names map to IDs. *)
Fixpoint checkACLNames (aclNameIDs : gmap string Z) (aclNames : list string) : result unit :=
  match aclNames with
  | [] => Ok tt
  | aclName :: rest =>
      match aclNameIDs !! aclName with
      | None => Err (EACLIDNotFound aclName)
      | Some _ => checkACLNames aclNameIDs rest
      end
  end.

(** One iteration of the loop that sorts the requested ACLs into
    [existingACLPortGroups] and [createACLPortGroups]. *)
Definition classifyACL (db : DB) (aclProjectName : string) (aclNameIDs : gmap string Z)
    (aclNets : list NetworkACLUsage) (reapplyRules : bool)
    (acc : list aclStatus * list aclStatus) (aclName : string)
  : M ovn.NB (list aclStatus * list aclStatus) :=
  let '(existingACLPortGroups, createACLPortGroups) := acc in
  let portGroupName := OVNACLPortGroupName (idOf aclNameIDs aclName) in
  info <- wrap "Failed getting port group UUID" (ovn.GetPortGroupInfo portGroupName) ;;
  let '(portGroupPresent, portGroupHasACLs) := info in
  if negb portGroupPresent then
    aclInfo <- lift (wrapR "Failed loading Network ACL"
                       (GetNetworkACLAPI db aclProjectName aclName)) ;;
    ret (existingACLPortGroups,
         createACLPortGroups
           ++ [{| name := aclName; aclInfo := Some aclInfo; addACLNets := [] |}])
  else
    addACLNets <-
      foldM aclNets []
        (fun add aclNet =>
           let netPortGroupName :=
             OVNACLNetworkPortGroupName (idOf aclNameIDs aclName) (UsageID aclNet) in
           netInfo <- wrap "Failed getting port group UUID"
                        (ovn.GetPortGroupInfo netPortGroupName) ;;
           ret (if negb (fst netInfo) then usagePut add aclNet else add)) ;;
    aclInfo <-
      (if reapplyRules || negb portGroupHasACLs || (0 <? length addACLNets)%nat then
         a <- lift (wrapR "Failed loading Network ACL"
                      (GetNetworkACLAPI db aclProjectName aclName)) ;;
         ret (Some a)
       else ret None) ;;
    ret (existingACLPortGroups
           ++ [{| name := aclName; aclInfo := aclInfo; addACLNets := addACLNets |}],
         createACLPortGroups).

(** The set [referencedACLs] once the creation ACLs are taken out. *)
Definition referencedACLsOf (reapplyRules : bool)
    (existingACLPortGroups createACLPortGroups : list aclStatus) : list string :=
  let add refs st :=
    match aclInfo st with
    | Some info => ovnAddReferencedACLs info refs
    | None => refs
    end in
  let refs1 := fold_left add createACLPortGroups [] in
  let refs2 := if reapplyRules then fold_left add existingACLPortGroups refs1 else refs1 in
  fold_left (fun refs st => setDelete refs (name st)) createACLPortGroups refs2.

(** Creates the missing port groups of the referenced ACLs, empty. *)
Definition createReferenced (projectID : Z) (aclNameIDs : gmap string Z)
    (referencedACLs : list string) : M Run unit :=
  forEach referencedACLs (fun aclName =>
    let portGroupName := OVNACLPortGroupName (idOf aclNameIDs aclName) in
    info <- onClient (wrap "Failed getting port group UUID"
                        (ovn.GetPortGroupInfo portGroupName)) ;;
    if negb (fst info) then
      createPortGroup "Failed creating port group for referenced security ACL"
        projectID portGroupName "" "" []
    else ret tt).

(** Creates the per-ACL-per-network port groups of one ACL. *)
Definition createNetworkPortGroups (projectID : Z) (aclID : Z) (portGroupName : string)
    (nets : list NetworkACLUsage) : M Run unit :=
  forEach nets (fun aclNet =>
    let netPortGroupName := OVNACLNetworkPortGroupName aclID (UsageID aclNet) in
    createPortGroup "Failed creating port group for security ACL and network"
      projectID netPortGroupName portGroupName
      (OVNIntSwitchName (UsageID aclNet)) [OVNIntSwitchRouterPortName (UsageID aclNet)]).

(** The loop over [createACLPortGroups]. *)
Definition createRequested (db : DB) (projectID : Z) (aclProjectName : string)
    (aclNameIDs : gmap string Z) (aclNets : list NetworkACLUsage)
    (peerTargetNetIDs : gmap (string * string) Z)
    (createACLPortGroups : list aclStatus) : M Run unit :=
  forEach createACLPortGroups (fun st =>
    (* [aclInfo] is loaded for every ACL of this list. *)
    let portGroupName := OVNACLPortGroupName (idOf aclNameIDs (name st)) in
    _ <- createPortGroup "Failed creating port group for security ACL"
           projectID portGroupName "" "" [] ;;
    _ <- createNetworkPortGroups projectID (idOf aclNameIDs (name st)) portGroupName aclNets ;;
    match aclInfo st with
    | Some info =>
        onClient (wrap "Failed applying ACL rules to port group for security ACL"
                    (ovnApplyToPortGroup db (api.withProject info aclProjectName)
                       portGroupName aclNameIDs aclNets peerTargetNetIDs))
    | None => ret tt
    end).

(** The loop over [existingACLPortGroups]. *)
Definition updateExisting (db : DB) (projectID : Z) (aclProjectName : string)
    (aclNameIDs : gmap string Z) (aclNets : list NetworkACLUsage)
    (peerTargetNetIDs : gmap (string * string) Z)
    (existingACLPortGroups : list aclStatus) : M Run unit :=
  forEach existingACLPortGroups (fun st =>
    let portGroupName := OVNACLPortGroupName (idOf aclNameIDs (name st)) in
    _ <- createNetworkPortGroups projectID (idOf aclNameIDs (name st)) portGroupName
           (addACLNets st) ;;
    match aclInfo st with
    | Some info =>
        onClient (wrap "Failed applying ACL rules to port group for security ACL"
                    (ovnApplyToPortGroup db (api.withProject info aclProjectName)
                       portGroupName aclNameIDs aclNets peerTargetNetIDs))
    | None => ret tt
    end).

(** The body of [OVNEnsureACLs] between the creation of the reverter
    and the last three lines. *)
Definition ensureACLs (db : DB) (aclProjectName : string) (aclNameIDs : gmap string Z)
    (aclNets : list NetworkACLUsage) (aclNames : list string) (reapplyRules : bool)
  : M Run unit :=
  projectID <- lift (wrapR "Failed getting project ID" (GetProjectID db aclProjectName)) ;;
  peerTargetNetIDs <- lift (loadPeerTargetNetIDs db aclProjectName) ;;
  _ <- lift (checkACLNames aclNameIDs aclNames) ;;
  status <- onClient (foldM aclNames ([], [])
                        (classifyACL db aclProjectName aclNameIDs aclNets reapplyRules)) ;;
  let '(existingACLPortGroups, createACLPortGroups) := status in
  let referencedACLs :=
    referencedACLsOf reapplyRules existingACLPortGroups createACLPortGroups in
  _ <- createReferenced projectID aclNameIDs referencedACLs ;;
  _ <- createRequested db projectID aclProjectName aclNameIDs aclNets peerTargetNetIDs
         createACLPortGroups ;;
  updateExisting db projectID aclProjectName aclNameIDs aclNets peerTargetNetIDs
    existingACLPortGroups.

(** [OVNEnsureACLs]: on an error the deferred [reverter.Fail()] runs the
    hooks; otherwise the function returns [reverter.Clone().Fail] and
    [reverter.Success()] leaves nothing to the deferred call. *)
Definition OVNEnsureACLs (db : DB) (aclProjectName : string) (aclNameIDs : gmap string Z)
    (aclNets : list NetworkACLUsage) (aclNames : list string) (reapplyRules : bool)
  : M ovn.NB revert.Hook :=
  fun w =>
    let '(r, s) :=
      ensureACLs db aclProjectName aclNameIDs aclNets aclNames reapplyRules
        {| client := w; reverter := revert.New |} in
    match r with
    | Ok _ =>
        let cleanup := revert.Fail (revert.Clone (reverter s)) in
        (Ok cleanup, revert.Fail (revert.Success (reverter s)) (client s))
    | Err e => (Err e, revert.Fail (reverter s) (client s))
    end.

End EnsureACLs.

(** ** Runs of the reconciler, step by step

    The client calls a run is made of, as relations between the states
    before and after: a call that changes nothing but the count of
    calls, the replacement of the rules of a port group that exists, and
    the creation of a port group that does not, with the hook that
    deletes it. The parameters say which of them a part of the code may
    take. *)

Inductive nbStep (canUpdate : Prop) : ovn.NB -> ovn.NB -> Prop :=
| nbTick (w : ovn.NB) :
    nbStep canUpdate w (ovn.tick w)
| nbUpdate (w : ovn.NB) (name : string) (g : ovn.PortGroup) (rules : list ovn.OVNACLRule) :
    canUpdate ->
    ovn.portGroups w !! name = Some g ->
    nbStep canUpdate w
      (ovn.setGroups w (<[name := ovn.withACLs g rules]> (ovn.portGroups w))
         (ovn.EvUpdatePortGroupACLRules name rules (ovn.portGroups w))).

Inductive runStep (canCreate : string -> Prop) (canUpdate : Prop) : Run -> Run -> Prop :=
| runClient (s : Run) (w' : ovn.NB) :
    nbStep canUpdate (client s) w' ->
    runStep canCreate canUpdate s {| client := w'; reverter := reverter s |}
| runCreate (s : Run) (name : string) (g : ovn.PortGroup) :
    canCreate name ->
    ovn.portGroups (client s) !! name = None ->
    ovn.ACLs g = [] ->
    runStep canCreate canUpdate s
      {| client := ovn.setGroups (client s) (<[name := g]> (ovn.portGroups (client s)))
                     (ovn.EvCreatePortGroup name (ovn.portGroups (client s)));
         reverter := revert.Add (reverter s) (deleteHook name) |}.

(** A computation whose every run is a sequence of steps of [R],
    whether it ends with a result or an error. *)
Definition follows {S A} (R : relation S) (m : M S A) : Prop :=
  forall s, rtc R s (snd (m s)).

(** The names of the port groups created by a sequence of events. *)
Definition createdGroups (evs : list ovn.Event) : list string :=
  omap (fun ev => match ev with
                  | ovn.EvCreatePortGroup name _ => Some name
                  | _ => None
                  end) evs.

(** The port groups an event found in place; a deletion records none. *)
Definition presentAt (ev : ovn.Event) : option (gmap string ovn.PortGroup) :=
  match ev with
  | ovn.EvCreatePortGroup _ present => Some present
  | ovn.EvUpdatePortGroupACLRules _ _ present => Some present
  | ovn.EvDeletePortGroup _ => None
  end.

(** Two port groups that differ at most in their rules. *)
Definition sameButACLs (g g' : ovn.PortGroup) : Prop :=
  exists rules, g' = ovn.withACLs g rules.

(** The port groups [m'] are those of [m], with at most other rules. *)
Definition sameGroupsButACLs (m m' : gmap string ovn.PortGroup) : Prop :=
  forall name,
    match m !! name with
    | None => m' !! name = None
    | Some g => exists g', m' !! name = Some g' /\ sameButACLs g g'
    end.

(** The deletions of a rollback, one event for each hook. *)
Definition deleteEvents (names : list string) : list ovn.Event :=
  map (fun n => ovn.EvDeletePortGroup [n]) names.

(** What holds of a run of the body of [OVNEnsureACLs] started in [w0],
    at each step: the hooks of the reverter are the deletions of the
    port groups created so far, in the order of their creation; these
    groups were not there in [w0]; every other port group is as in [w0]
    but for its rules. *)
Definition runInvariant (w0 : ovn.NB) (s : Run) : Prop :=
  ovn.faults (client s) = ovn.faults w0
  /\ exists evs,
       ovn.trace (client s) = ovn.trace w0 ++ evs
       /\ reverter s = map deleteHook (createdGroups evs)
       /\ Forall (fun ev => is_Some (presentAt ev)) evs
       /\ (forall n, In n (createdGroups evs) -> ovn.portGroups w0 !! n = None)
       /\ (forall n, ~ In n (createdGroups evs) ->
             match ovn.portGroups w0 !! n with
             | None => ovn.portGroups (client s) !! n = None
             | Some g =>
                 exists g', ovn.portGroups (client s) !! n = Some g' /\ sameButACLs g g'
             end).

(** ** The reaper *)

(** The dynamic type of the [usageType] argument of the visitor. *)
Inductive usageType : Type :=
| UInstance (instName instProject : string)
| UNetwork (network : api.Network)
| UProfile (profileName profileProject : string)
| UNetworkACL (aclName : string)
| UOther.

(** One visit of [UsedBy]: the arguments of the callback. *)
Record usage : Type := {
  matchedACLNames : list string;
  usedBy : usageType;
  nicName : string;
  nicConfig : gmap string string
}.

(** The dynamic type of the argument [ignoreUsageType]. *)
Inductive ignoreUsage : Type :=
| IgnoreInstance (instName instProject : string)
| IgnoreNetwork (networkName : string)
| IgnoreProfile (profileName profileProject : string)
| IgnoreNothing.

(** Modelled from the spec: [UsedBy] is declared in a file of the package
    that is not among the sources; section 4.1 describes it as invoking
    the visitor for every entity that references one of the ACLs. The
    enumeration is the list of its visits and the error, if any, with
    which the enumeration itself ends. *)
Definition UsedByFn : Type := string -> list string -> list usage * option error.

(** The three collections the visitor of [OVNPortGroupDeleteIfUnused]
    updates. *)
Record reaper : Type := {
  removeACLPortGroups : list string;
  ovnUsedACLs : list string;
  aclUsedACLS : list (string * list string)
}.

(** The loop shared by the three cases of the visitor that stand for an
    entity on an OVN network. *)
Definition markUsed (aclNameIDs : gmap string Z) (netID : Z) (matched : list string)
    (r : reaper) : reaper :=
  fold_left
    (fun r matchedACLName =>
       {| removeACLPortGroups :=
            setDelete
              (setDelete (removeACLPortGroups r)
                 (OVNACLPortGroupName (idOf aclNameIDs matchedACLName)))
              (OVNACLNetworkPortGroupName (idOf aclNameIDs matchedACLName) netID);
          ovnUsedACLs := setAdd (ovnUsedACLs r) matchedACLName;
          aclUsedACLS := aclUsedACLS r |})
    matched r.

(** [aclUsedACLS[matchedACLName] = append(..., name)] unless present. *)
Fixpoint recordReferrer (m : list (string * list string)) (matchedACLName referrer : string)
  : list (string * list string) :=
  match m with
  | [] => [(matchedACLName, [referrer])]
  | (k, refs) :: rest =>
      if String.eqb k matchedACLName
      then (k, if slices.Contains refs referrer then refs else refs ++ [referrer]) :: rest
      else (k, refs) :: recordReferrer rest matchedACLName referrer
  end.

(** The visitor passed to [UsedBy]. *)
Definition visitUsage (db : DB) (aclProjectName : string) (aclNameIDs : gmap string Z)
    (ignoreUsageType : ignoreUsage) (ignoreUsageNicName : string)
    (r : reaper) (u : usage) : result reaper :=
  let network := default "" (nicConfig u !! "network") in
  let onNIC :=
    match GetNetworkInAnyState db aclProjectName network with
    | Err e => Err (EWrap "Failed to load network" e)
    | Ok (netID, net) =>
        if String.eqb (api.NetworkType net) "ovn"
        then Ok (markUsed aclNameIDs netID (matchedACLNames u) r)
        else Ok r
    end in
  match usedBy u with
  | UInstance uName uProject =>
      match ignoreUsageType with
      | IgnoreInstance iName iProject =>
          if String.eqb ignoreUsageNicName "" then
            Err (EIgnoreNicName "ignoreUsageNicName should be specified when providing an instance")
          else if String.eqb iName uName && String.eqb iProject uProject
                  && String.eqb ignoreUsageNicName (nicName u)
          then Ok r
          else onNIC
      | _ => onNIC
      end
  | UNetwork uNet =>
      let onNetwork :=
        if String.eqb (api.NetworkType uNet) "ovn" then
          match GetNetworkInAnyState db aclProjectName (api.NetworkName uNet) with
          | Err e => Err (EWrap "Failed to load network" e)
          | Ok (netID, _) => Ok (markUsed aclNameIDs netID (matchedACLNames u) r)
          end
        else Ok r in
      match ignoreUsageType with
      | IgnoreNetwork iName =>
          if negb (String.eqb ignoreUsageNicName "") then
            Err (EIgnoreNicName "ignoreUsageNicName should be empty when providing a network")
          else if String.eqb iName (api.NetworkName uNet) then Ok r
          else onNetwork
      | _ => onNetwork
      end
  | UProfile uName uProject =>
      match ignoreUsageType with
      | IgnoreProfile iName iProject =>
          if String.eqb ignoreUsageNicName "" then
            Err (EIgnoreNicName "ignoreUsageNicName should be specified when providing a profile")
          else if String.eqb iName uName && String.eqb iProject uProject
                  && String.eqb ignoreUsageNicName (nicName u)
          then Ok r
          else onNIC
      | _ => onNIC
      end
  | UNetworkACL uName =>
      Ok {| removeACLPortGroups := removeACLPortGroups r;
            ovnUsedACLs := ovnUsedACLs r;
            aclUsedACLS :=
              fold_left (fun m matched => recordReferrer m matched uName)
                        (matchedACLNames u) (aclUsedACLS r) |}
  | UOther => Err EUnrecognisedUsage
  end.

Fixpoint visitAll (db : DB) (aclProjectName : string) (aclNameIDs : gmap string Z)
    (ignoreUsageType : ignoreUsage) (ignoreUsageNicName : string)
    (visits : list usage) (r : reaper) : result reaper :=
  match visits with
  | [] => Ok r
  | u :: rest =>
      match visitUsage db aclProjectName aclNameIDs ignoreUsageType ignoreUsageNicName r u with
      | Err e => Err e
      | Ok r' => visitAll db aclProjectName aclNameIDs ignoreUsageType ignoreUsageNicName rest r'
      end
  end.

(** The closure [hasKeeperPrefix]. *)
Definition hasKeeperPrefix (aclNameIDs : gmap string Z) (keepACLs : list string)
    (portGroup : string) : bool :=
  existsb (fun keepACLName =>
             strings.HasPrefix portGroup (OVNACLPortGroupName (idOf aclNameIDs keepACLName)))
          keepACLs.

(** The initial candidates for removal. *)
Definition removalCandidates (aclNameIDs : gmap string Z) (keepACLs : list string)
    (portGroups : list string) : list string :=
  fold_left
    (fun set portGroup =>
       if strings.HasPrefix portGroup ovnACLPortGroupPrefix
          && negb (hasKeeperPrefix aclNameIDs keepACLs portGroup)
       then setAdd set portGroup else set)
    portGroups [].

(** The closure [usedByOvn]. *)
Definition usedByOvn (ovnUsed : list string) (aclNames : list string) : bool :=
  existsb (fun aclName => slices.Contains ovnUsed aclName) aclNames.

(** The loop over [aclUsedACLS] that keeps the groups of ACLs referenced
    by an ACL in use. *)
Definition keepReferenced (aclNameIDs : gmap string Z) (r : reaper) : list string :=
  fold_left
    (fun remove entry =>
       if usedByOvn (ovnUsedACLs r) (snd entry)
       then setDelete remove (OVNACLPortGroupName (idOf aclNameIDs (fst entry)))
       else remove)
    (aclUsedACLS r) (removeACLPortGroups r).

(** What [OVNPortGroupDeleteIfUnused] schedules for deletion, given the
    port groups of the project. *)
Definition unusedPortGroups (db : DB) (usedByFn : UsedByFn) (aclProjectName : string)
    (aclNameIDs : gmap string Z) (aclNames : list string)
    (ignoreUsageType : ignoreUsage) (ignoreUsageNicName : string) (keepACLs : list string)
    (portGroups : list string) : result (list string) :=
  let r0 := {| removeACLPortGroups := removalCandidates aclNameIDs keepACLs portGroups;
               ovnUsedACLs := fold_left setAdd keepACLs [];
               aclUsedACLS := [] |} in
  let '(visits, enumErr) := usedByFn aclProjectName aclNames in
  match visitAll db aclProjectName aclNameIDs ignoreUsageType ignoreUsageNicName visits r0 with
  | Err e => Err (EWrap "Failed getting ACL usage" e)
  | Ok r =>
      match enumErr with
      | Some e => Err (EWrap "Failed getting ACL usage" e)
      | None => Ok (keepReferenced aclNameIDs r)
      end
  end.

(** The map [aclNameIDs] that [OVNPortGroupDeleteIfUnused] fills from the
    ACLs of the project. *)
Definition aclNameIDsOf (acls : list (string * Z)) : gmap string Z :=
  fold_left (fun m acl => <[fst acl := snd acl]> m) acls ∅.

(** [OVNPortGroupDeleteIfUnused]. *)
Definition OVNPortGroupDeleteIfUnused (db : DB) (usedByFn : UsedByFn) (aclProjectName : string)
    (ignoreUsageType : ignoreUsage) (ignoreUsageNicName : string) (keepACLs : list string)
  : M ovn.NB unit :=
  acls <- lift (GetNetworkACLs db aclProjectName) ;;
  let aclNames := map fst acls in
  let aclNameIDs := aclNameIDsOf acls in
  projectID <- lift (wrapR "Failed getting project ID" (GetProjectID db aclProjectName)) ;;
  portGroups <- wrap "Failed getting port groups for project"
                  (ovn.GetPortGroupsByProject projectID) ;;
  removePortGroups <-
    lift (unusedPortGroups db usedByFn aclProjectName aclNameIDs aclNames
            ignoreUsageType ignoreUsageNicName keepACLs portGroups) ;;
  if (0 <? length removePortGroups)%nat
  then wrap "Failed to delete unused OVN port groups" (ovn.DeletePortGroup removePortGroups)
  else ret tt.

(** ** Package [resources]: the inventory cache *)

Module resources.

(** The package variables [lastResources] and [lastRun]; times are
    nanoseconds on the clock [time.Now] reads. *)
Record cache (R : Type) : Type := {
  lastResources : option R;
  lastRun : Z
}.
Arguments lastResources {R} c.
Arguments lastRun {R} c.
Arguments Build_cache {R} lastResources lastRun.

Definition Second : Z := 1000000000.

(** [GetResources], run with the mutex held from its first line to its
    return. [now1] and [now2] are what the two calls of [time.Now]
    read ([now2] is read only when the inventory is taken), [inventory]
    is the outcome of the nine queries ([GetCPU] to [GetLoad]), the
    first error if one fails. *)
Definition GetResources {R} (now1 now2 : Z) (inventory : result R) (c : cache R)
  : result R * cache R :=
  match lastResources c with
  | Some cached =>
      if (lastRun c + 10 * Second <? now1)
      then (Ok cached, c)
      else match inventory with
           | Err e => (Err e, c)
           | Ok resources => (Ok resources, Build_cache (Some resources) now2)
           end
  | None =>
      match inventory with
      | Err e => (Err e, c)
      | Ok resources => (Ok resources, Build_cache (Some resources) now2)
      end
  end.

End resources.

(** ** A reference implementation of the address parsers

    Used to evaluate the functions above on concrete inputs. It follows
    [net.ParseIP] and [net.ParseCIDR] on dotted-quad IPv4 addresses (four
    decimal fields up to 255, no leading zero) and on IPv6 addresses
    written as groups of up to four hexadecimal digits with at most one
    [::] (no embedded IPv4 part, no zone); a range is two addresses of
    one family around a dash (section 3). *)

Module gonet.

Definition isDigit (c : ascii) : bool :=
  let n := nat_of_ascii c in ((48 <=? n) && (n <=? 57))%nat.

Definition isHex (c : ascii) : bool :=
  let n := nat_of_ascii c in
  (((48 <=? n) && (n <=? 57)) || ((65 <=? n) && (n <=? 70)) || ((97 <=? n) && (n <=? 102)))%nat.

Fixpoint allChars (p : ascii -> bool) (s : string) : bool :=
  match s with
  | EmptyString => true
  | String c s' => p c && allChars p s'
  end.

Fixpoint decValue (s : string) (acc : Z) : Z :=
  match s with
  | EmptyString => acc
  | String c s' => decValue s' (10 * acc + (Z.of_nat (nat_of_ascii c) - 48))
  end.

(** A decimal number of at most [digits] digits and at most [bound],
    without leading zero. *)
Definition decimalUpTo (digits : nat) (bound : Z) (s : string) : bool :=
  if ((1 <=? String.length s) && (String.length s <=? digits))%nat
     && allChars isDigit s
     && negb (String.prefix "0" s && (2 <=? String.length s)%nat)
  then decValue s 0 <=? bound
  else false.

Definition isIPv4 (s : string) : bool :=
  let fields := strings.SplitN s "." (-1) in
  (length fields =? 4)%nat && forallb (decimalUpTo 3 255) fields.

Definition isGroup (g : string) : bool :=
  ((1 <=? String.length g) && (String.length g <=? 4))%nat && allChars isHex g.

Definition isIPv6 (s : string) : bool :=
  let groups := strings.SplitN s ":" (-1) in
  let groups1 := if String.prefix "::" s then tl groups else groups in
  let groups2 :=
    if String.prefix "::" (String.rev s) then removelast groups1 else groups1 in
  let empties := length (filter (fun g => String.eqb g "") groups2) in
  let filled := filter (fun g => negb (String.eqb g "")) groups2 in
  negb (String.eqb (hd "x" groups2) "" && negb (String.prefix "::" s))
  && negb (String.eqb (List.last groups2 "x") "" && negb (String.prefix "::" (String.rev s)))
  && forallb isGroup filled
  && (((empties =? 0) && (length filled =? 8)) || ((empties =? 1) && (length filled <=? 7)))%nat.

Definition parseIP (s : string) : option bool :=
  if isIPv4 s then Some true else if isIPv6 s then Some false else None.

Definition parseCIDR (s : string) : option bool :=
  match strings.SplitN s "/" 2 with
  | [addr; bits] =>
      match parseIP addr with
      | Some true => if decimalUpTo 2 32 bits then Some true else None
      | Some false => if decimalUpTo 3 128 bits then Some false else None
      | None => None
      end
  | _ => None
  end.

Definition isNetworkRange (s : string) : bool :=
  match strings.SplitN s "-" 2 with
  | [a; b] =>
      match parseIP a, parseIP b with
      | Some fa, Some fb => Bool.eqb fa fb
      | _, _ => false
      end
  | _ => false
  end.

Definition lib : NetLib :=
  {| ParseIP := parseIP;
     ParseCIDR := parseCIDR;
     IsNetworkAddressCIDR := fun s => match parseCIDR s with Some _ => true | None => false end;
     IsNetworkRange := isNetworkRange |}.

End gonet.

(** ** Inputs used to evaluate the code *)

Module fixtures.

Definition rule (action src dst proto sport dport state : string) : api.NetworkACLRule :=
  {| api.Action := action; api.Source := src; api.Destination := dst;
     api.Protocol := proto; api.SourcePort := sport; api.DestinationPort := dport;
     api.ICMPType := ""; api.ICMPCode := ""; api.State := state |}.

Definition acl (name : string) (ingress egress : list api.NetworkACLRule) : api.NetworkACL :=
  {| api.Name := name; api.Project := "default"; api.Ingress := ingress; api.Egress := egress |}.

(** A catalog with one project (ID 1), the networks [mynet] (ID 3) and
    [othernet] (ID 12), both OVN, the peer [mypeer] of [mynet] towards
    [othernet], the address set [office] (ID 5) and the given ACLs. *)
Definition db (acls : list (api.NetworkACL * Z)) : DB :=
  {| GetProjectID := fun _ => Ok 1;
     GetCreatedNetworksByProject := fun _ =>
       Ok [(3, {| api.NetworkName := "mynet"; api.NetworkType := "ovn" |});
           (12, {| api.NetworkName := "othernet"; api.NetworkType := "ovn" |})];
     GetNetworkPeers := fun netID =>
       Ok (if netID =? 3
           then [{| cluster.Name := "mypeer"; cluster.TargetNetworkID := Some 12 |}]
           else []);
     GetNetworkACLAPI := fun _ aclName =>
       match List.find (fun a => String.eqb (api.Name (fst a)) aclName) acls with
       | Some a => Ok (fst a)
       | None => Err (ENotFound aclName)
       end;
     GetNetworkAddressSet := fun _ setName =>
       if String.eqb setName "office"
       then Ok {| cluster.SetName := "office"; cluster.SetID := 5 |}
       else Err (ENotFound setName);
     GetNetworkACLs := fun _ => Ok (map (fun a => (api.Name (fst a), snd a)) acls);
     GetNetworkInAnyState := fun _ netName =>
       if String.eqb netName "mynet"
       then Ok (3, {| api.NetworkName := "mynet"; api.NetworkType := "ovn" |})
       else if String.eqb netName "othernet"
       then Ok (12, {| api.NetworkName := "othernet"; api.NetworkType := "ovn" |})
       else Err (ENotFound netName) |}.

Definition ids (acls : list (api.NetworkACL * Z)) : gmap string Z :=
  list_to_map (map (fun a => (api.Name (fst a), snd a)) acls).

Definition peers : gmap (string * string) Z := {[ ("mynet", "mypeer") := 12 ]}.

Definition mynet : NetworkACLUsage := {| UsageName := "mynet"; UsageID := 3 |}.
Definition othernet : NetworkACLUsage := {| UsageName := "othernet"; UsageID := 12 |}.

(** A northbound database with the given port groups and a client that
    never fails. *)
Definition nb (groups : gmap string ovn.PortGroup) : ovn.NB :=
  {| ovn.portGroups := groups; ovn.calls := 0; ovn.faults := fun _ => false;
     ovn.trace := [] |}.

Definition group (rules : list ovn.OVNACLRule) : ovn.PortGroup :=
  {| ovn.ProjectID := 1; ovn.ParentGroup := ""; ovn.Switch := ""; ovn.Ports := [];
     ovn.ACLs := rules |}.


(** The ACL of the first scenario: one ingress rule allowing TCP port 80. *)
Definition aclWeb : api.NetworkACL :=
  acl "web" [rule "allow" "" "" "tcp" "" "80" "enabled"] [].

(** An ACL whose only rule carries an action outside the four. *)
Definition aclBogus : api.NetworkACL :=
  acl "bogus" [rule "bogus" "" "" "tcp" "" "80" "enabled"] [].

(** An ACL whose second rule names an ACL that has no ID. *)
Definition aclGhost : api.NetworkACL :=
  acl "ghost" [rule "allow" "" "" "tcp" "" "80" "enabled";
               rule "allow" "nobody" "" "" "" "" "enabled";
               rule "drop" "" "" "" "" "" "enabled"] [].


(** An ACL whose ingress rule names an address set, a peer, another ACL,
    a reserved alias and a CIDR. *)
Definition aclMixed : api.NetworkACL :=
  acl "mixed" [rule "allow" "$office,@mynet/mypeer,db,@internal,10.0.0.0/24" "" "" "" "" "enabled"] [].


(** The ACL of the fifth scenario: an egress rule towards the peer
    [mypeer] of the network [mynet]. *)
Definition aclPeer : api.NetworkACL :=
  acl "peered" [] [rule "allow" "" "@mynet/mypeer" "" "" "" "enabled"].


(** The ACLs [x] (ID 7) and [y] (ID 9) of the reaper scenarios. *)
Definition aclX : api.NetworkACL := acl "x" [] [].
Definition aclY : api.NetworkACL := acl "y" [] [].
Definition dbXY : DB := db [(aclX, 7); (aclY, 9)].

(** No entity uses an ACL. *)
Definition unused : UsedByFn := fun _ _ => ([], None).

(** The networks [mynet] and [othernet] both use the ACL [x]. *)
Definition usedByTwoNetworks : UsedByFn :=
  fun _ _ =>
    ([{| matchedACLNames := ["x"];
         usedBy := UNetwork {| api.NetworkName := "mynet"; api.NetworkType := "ovn" |};
         nicName := ""; nicConfig := ∅ |};
      {| matchedACLNames := ["x"];
         usedBy := UNetwork {| api.NetworkName := "othernet"; api.NetworkType := "ovn" |};
         nicName := ""; nicConfig := ∅ |}], None).

(** The port groups of [x] on both networks and the port group of [y]. *)
Definition groupsXY : gmap string ovn.PortGroup :=
  {[ "incus_acl7" := group []; "incus_acl7_net3" := group [];
     "incus_acl7_net12" := group []; "incus_acl9" := group [] ]}.


(** Two ACLs whose port groups exist with an old rule: [a] compiles, the
    ingress rule of [b] names as destination an ACL that has no ID. *)
Definition aclA : api.NetworkACL :=
  acl "a" [rule "allow" "" "" "tcp" "" "80" "enabled"] [].
Definition aclB : api.NetworkACL :=
  acl "b" [rule "allow" "" "nobody" "" "" "" "enabled"] [].
Definition dbAB : DB := db [(aclA, 1); (aclB, 2)].
Definition idsAB : gmap string Z := ids [(aclA, 1); (aclB, 2)].

Definition oldRule : ovn.OVNACLRule :=
  {| ovn.Direction := "to-lport"; ovn.Action := "drop"; ovn.Priority := 500;
     ovn.Match := "(outport == @incus_acl1)"; ovn.Log := false; ovn.LogName := "" |}.

Definition groupsAB : gmap string ovn.PortGroup :=
  {[ "incus_acl1" := group [oldRule]; "incus_acl2" := group [oldRule] ]}.

(** The third scenario: the ACL [web] (ID 1) references the ACL [db]
    (ID 2) in the destination of an egress rule. *)
Definition aclWebDb : api.NetworkACL :=
  acl "web" [] [rule "allow" "" "db" "tcp" "" "5432" "enabled"].
Definition aclDb : api.NetworkACL := acl "db" [] [].
Definition dbWebDb : DB := db [(aclWebDb, 1); (aclDb, 2)].
Definition idsWebDb : gmap string Z := ids [(aclWebDb, 1); (aclDb, 2)].


(** The ACLs [web] (ID 1), [db] (ID 2) and [b] (ID 3): [web] references
    [db], and [b] does not compile. *)
Definition dbWebDbB : DB := db [(aclWebDb, 1); (aclDb, 2); (aclB, 3)].
Definition idsWebDbB : gmap string Z := ids [(aclWebDb, 1); (aclDb, 2); (aclB, 3)].


(** The ACL [db] (ID 2) references the ACL [cache] (ID 4); the port group
    of [db] is there without any rule, as a placeholder is. *)
Definition aclDbCache : api.NetworkACL :=
  acl "db" [] [rule "allow" "" "cache" "tcp" "" "6379" "enabled"].
Definition aclCache : api.NetworkACL := acl "cache" [] [].
Definition dbDbCache : DB := db [(aclDbCache, 2); (aclCache, 4)].
Definition idsDbCache : gmap string Z := ids [(aclDbCache, 2); (aclCache, 4)].

(** The ACLs [mixed] (ID 8) and [db] (ID 2). *)
Definition dbMixed : DB := db [(aclMixed, 8); (aclDb, 2)].
Definition idsMixed : gmap string Z := ids [(aclMixed, 8); (aclDb, 2)].

End fixtures.

(** ** Package [acl]: the rest of the file

    The functions of the file that [OVNEnsureACLs] and
    [OVNPortGroupDeleteIfUnused] do not call: the port groups scheduled
    for a NIC, the default rules of a NIC and the baseline rules of a
    logical switch. *)

(** The body of the loop of [replaceAddressSetNames]: what becomes of
    one subject. *)
Definition addressSetToken (addressSetIDs : gmap string Z) (subj : string) : string :=
  let '(after, ok) := strings.CutPrefix subj "$" in
  if ok then
    match addressSetIDs !! after with
    | Some setID => "$incus_set" +:+ fmt.d setID
    | None => subj
    end
  else subj.

(** [OVNPortGroupInstanceNICSchedule]: the change set with the port
    appended to the entry of each port group listed. *)
Definition OVNPortGroupInstanceNICSchedule (portUUID : string)
    (changeSet : gmap string (list string)) (portGroups : list string)
  : gmap string (list string) :=
  fold_left
    (fun changeSet portGroupName =>
       let changeSet' :=
         match changeSet !! portGroupName with
         | Some _ => changeSet
         | None => <[portGroupName := []]> changeSet
         end in
       <[portGroupName := default [] (changeSet' !! portGroupName) ++ [portUUID]]> changeSet')
    portGroups changeSet.

(** The errors of [OVNApplyInstanceNICDefaultRules]. *)
Inductive nicRulesError : Type :=
| EInvalidIngressAction (action : string)
| EInvalidEgressAction (action : string)
| EApplyNICRules (nicPortName : string) (cause : error).

(** The two rules [OVNApplyInstanceNICDefaultRules] builds. *)
Definition nicDefaultRules (logPrefix nicPortName ingressAction : string)
    (ingressLogged : bool) (egressAction : string) (egressLogged : bool)
  : list ovn.OVNACLRule :=
  [ {| ovn.Direction := "to-lport";
       ovn.Action := egressAction;
       ovn.Priority := ovnACLPriorityNICDefaultActionEgress;
       ovn.Match := "inport == " +:+ strings.quote +:+ nicPortName +:+ strings.quote;
       ovn.Log := egressLogged;
       ovn.LogName := logPrefix +:+ "-egress" |};
    {| ovn.Direction := "to-lport";
       ovn.Action := ingressAction;
       ovn.Priority := ovnACLPriorityNICDefaultActionIngress;
       ovn.Match := "outport == " +:+ strings.quote +:+ nicPortName +:+ strings.quote;
       ovn.Log := ingressLogged;
       ovn.LogName := logPrefix +:+ "-ingress" |} ].

(** An address as the baseline rules read it: [ip.To4() != nil] and
    [ip.String()]. *)
Record IP : Type := {
  IPTo4 : bool;
  IPString : string
}.

(** The verb [%#.03x] on a non-negative integer: [0x] and at least three
    hexadecimal digits. *)
Definition sharpX03 (z : Z) : string :=
  let digits := HexadecimalString.NilZero.string_of_uint (N.to_hex_uint (Z.to_N z)) in
  "0x" +:+ String.concat "" (repeat "0" (3 - String.length digits)) +:+ digits.

Section SwitchAndNIC.

(** The two operations of the northbound client these functions call
    are not among the sources: [UpdatePortGroupPortACLRules] and
    [UpdateLogicalSwitchACLRules] are parameters, and so are the TCP
    flags [ovn.TCPRST] and [ovn.TCPACK]. *)
Variable UpdatePortGroupPortACLRules :
  string -> string -> list ovn.OVNACLRule -> M ovn.NB unit.
Variable UpdateLogicalSwitchACLRules : string -> list ovn.OVNACLRule -> M ovn.NB unit.
Variables TCPRST TCPACK : Z.

(** [OVNApplyInstanceNICDefaultRules]. *)
Definition OVNApplyInstanceNICDefaultRules (switchPortGroup logPrefix nicPortName : string)
    (ingressAction : string) (ingressLogged : bool)
    (egressAction : string) (egressLogged : bool)
  : ovn.NB -> option nicRulesError * ovn.NB :=
  fun w =>
    if negb (slices.Contains ValidActions ingressAction)
    then (Some (EInvalidIngressAction ingressAction), w)
    else if negb (slices.Contains ValidActions egressAction)
    then (Some (EInvalidEgressAction egressAction), w)
    else
      match UpdatePortGroupPortACLRules switchPortGroup nicPortName
              (nicDefaultRules logPrefix nicPortName ingressAction ingressLogged
                 egressAction egressLogged) w with
      | (Err e, w') => (Some (EApplyNICRules nicPortName e), w')
      | (Ok _, w') => (None, w')
      end.

Definition switchAllow (m : string) : ovn.OVNACLRule :=
  {| ovn.Direction := "to-lport";
     ovn.Action := "allow";
     ovn.Priority := ovnACLPrioritySwitchAllow;
     ovn.Match := m;
     ovn.Log := false;
     ovn.LogName := "" |}.

(** The rules [OVNApplyNetworkBaselineRules] gathers before its call of
    the client. *)
Definition baselineRules (routerPortName : string) (intRouterIPs dnsIPs : list IP)
  : list ovn.OVNACLRule :=
  let q := strings.quote in
  let rules :=
    [ switchAllow "(arp || nd)";
      switchAllow ("inport == " +:+ q +:+ routerPortName +:+ q +:+ " && nd_ra");
      switchAllow ("outport == " +:+ q +:+ routerPortName +:+ q +:+ " && nd_rs");
      switchAllow "icmp6 && icmp6.type == 143 && ip.ttl == 1 && ip6.dst == ff02::16";
      switchAllow "igmp && ip.ttl == 1 && ip4.mcast";
      switchAllow ("outport == " +:+ q +:+ routerPortName +:+ q
                   +:+ " && ((ip4 && udp.dst == 67) || (ip6 && udp.dst == 547))");
      switchAllow "icmp6 && icmp6.type == {1,2,3,4} && ip.ttl == 255";
      switchAllow "icmp4 && icmp4.type == {3,11,12} && ip.ttl == 255";
      switchAllow ("tcp && tcp.flags == " +:+ sharpX03 (Z.lor TCPRST TCPACK)) ] in
  let rules :=
    fold_left
      (fun rules intRouterIP =>
         let ipVersion := if IPTo4 intRouterIP then 4 else 6 in
         let icmpPingType := if IPTo4 intRouterIP then 8 else 128 in
         let icmpPingReplyType := if IPTo4 intRouterIP then 0 else 129 in
         rules ++
         [ switchAllow ("outport == " +:+ q +:+ routerPortName +:+ q +:+ " && icmp"
                        +:+ fmt.d ipVersion +:+ ".type == " +:+ fmt.d icmpPingType
                        +:+ " && ip" +:+ fmt.d ipVersion +:+ ".dst == "
                        +:+ IPString intRouterIP);
           switchAllow ("inport == " +:+ q +:+ routerPortName +:+ q +:+ " && icmp"
                        +:+ fmt.d ipVersion +:+ ".type == " +:+ fmt.d icmpPingReplyType
                        +:+ " && ip" +:+ fmt.d ipVersion +:+ ".src == "
                        +:+ IPString intRouterIP) ])
      intRouterIPs rules in
  fold_left
    (fun rules dnsIP =>
       let ipVersion := if IPTo4 dnsIP then 4 else 6 in
       rules ++
       [ switchAllow ("outport == " +:+ q +:+ routerPortName +:+ q +:+ " && ip"
                      +:+ fmt.d ipVersion +:+ ".dst == " +:+ IPString dnsIP
                      +:+ " && (udp.dst == 53 || tcp.dst == 53)") ])
    dnsIPs rules.

(** [OVNApplyNetworkBaselineRules]. *)
Definition OVNApplyNetworkBaselineRules (switchName routerPortName : string)
    (intRouterIPs dnsIPs : list IP) : M ovn.NB unit :=
  wrap ("Failed applying baseline ACL rules to logical switch "
          +:+ strings.quote +:+ switchName +:+ strings.quote)
    (UpdateLogicalSwitchACLRules switchName (baselineRules routerPortName intRouterIPs dnsIPs)).

End SwitchAndNIC.

(** A usage the visitor of [OVNPortGroupDeleteIfUnused] counts for the
    OVN network [netID]: by the network itself, or by a NIC of an
    instance or of a profile on that network, the ignored usage apart. *)
Definition countsForNetwork (db : DB) (aclProjectName : string)
    (ignoreUsageType : ignoreUsage) (ignoreUsageNicName : string)
    (u : usage) (netID : Z) : Prop :=
  let onNIC :=
    exists net,
      GetNetworkInAnyState db aclProjectName (default "" (nicConfig u !! "network"))
        = Ok (netID, net)
      /\ api.NetworkType net = "ovn" in
  match usedBy u with
  | UNetwork net =>
      api.NetworkType net = "ovn"
      /\ (exists net', GetNetworkInAnyState db aclProjectName (api.NetworkName net)
                        = Ok (netID, net'))
      /\ ignoreUsageType <> IgnoreNetwork (api.NetworkName net)
  | UInstance instName instProject =>
      onNIC
      /\ ~ (ignoreUsageType = IgnoreInstance instName instProject
            /\ ignoreUsageNicName = nicName u)
  | UProfile profileName profileProject =>
      onNIC
      /\ ~ (ignoreUsageType = IgnoreProfile profileName profileProject
            /\ ignoreUsageNicName = nicName u)
  | _ => False
  end.

(** ** What a run of the reconciler leaves in place *)

(** The port group [name] is there with at least one rule. *)
Definition carriesRules (name : string) (w : ovn.NB) : Prop :=
  exists g, ovn.portGroups w !! name = Some g /\ ovn.ACLs g <> [].

(** From [w] to [w'] no port group has gone, and no port group of an
    ACL has lost all its rules. *)
Definition growsNB : relation ovn.NB :=
  fun w w' =>
    (forall n, is_Some (ovn.portGroups w !! n) -> is_Some (ovn.portGroups w' !! n))
    /\ (forall aclID,
          carriesRules (OVNACLPortGroupName aclID) w ->
          carriesRules (OVNACLPortGroupName aclID) w').

Definition grows : relation Run := fun s s' => growsNB (client s) (client s').

(** ** Package [schema]: a database schema as a series of updates

    The file of the package that holds [Schema] with [Ensure], [Trim],
    [Add] and the checks of the versions recorded. The queries on the
    table [schema] ([selectSchemaVersions], [insertSchemaVersion]) and
    [query.Count] are in files that are not among the sources: they are
    parameters. A transaction [*sql.Tx] is a state of type [Tx] that a
    statement may change before it returns an error. *)

Module schema.

(** Go's [int] on the 64-bit platforms the server runs on. *)
Definition wrap (z : Z) : Z := (z + 2 ^ 63) mod 2 ^ 64 - 2 ^ 63.

Definition add (a b : Z) : Z := wrap (a + b).

(** A call returns, or panics at run time. *)
Inductive outcome (A : Type) : Type :=
| Returns (a : A)
| Panics.
Arguments Returns {A} a.
Arguments Panics {A}.

(** The errors the file builds; the constructor keeps the operands of
    the message. *)
Inductive err : Type :=
| ETooRecent (current expected : Z)
| EHook (version : Z) (cause : error)
| EUpdate (version : Z) (cause : error)
| EInsertVersion (version : Z)
| EMissingUpdates (from to : Z)
| EFetchVersions (cause : error)
| EInsertMissing (version : Z)
| ECheckClusterAddress (cause : error)
| ENoRows
| EUpdateLevel (current expected : Z).

(** [checkSchemaVersionsHaveNoHoles]: the loop ranges over
    [versions[:len(versions)-1]], which is out of bounds for an empty
    slice. *)
Definition checkSchemaVersionsHaveNoHoles (versions : list Z) : outcome (option err) :=
  match versions with
  | [] => Panics
  | _ :: _ =>
      Returns
        match find (fun i => negb (nth (S i) versions 0 =? add (nth i versions 0) 1))
                   (seq 0 (length versions - 1)) with
        | Some i => Some (EMissingUpdates (nth i versions 0) (nth (S i) versions 0))
        | None => None
        end
  end.

Section Transactions.

Variable Tx : Type.

(** [selectSchemaVersions], [insertSchemaVersion] and the call
    [query.Count(ctx, tx, "config", "key = 'cluster.https_address'")]. *)
Variable selectSchemaVersions : Tx -> result (list Z).
Variable insertSchemaVersion : Z -> M Tx unit.
Variable countClusterAddress : Tx -> result Z.

(** [Update] and [Hook]. *)
Definition Update : Type := M Tx unit.
Definition Hook : Type := Z -> M Tx unit.

(** The loop of [ensureUpdatesAreApplied] over [updates[current:]]. *)
Fixpoint applyUpdates (current : Z) (updates : list Update) (hook : option Hook)
    (tx : Tx) : option err * Tx :=
  match updates with
  | [] => (None, tx)
  | update :: rest =>
      match (match hook with
             | Some h => h current tx
             | None => (Ok tt, tx)
             end) with
      | (Err e, tx1) => (Some (EHook current e), tx1)
      | (Ok _, tx1) =>
          match update tx1 with
          | (Err e, tx2) => (Some (EUpdate current e), tx2)
          | (Ok _, tx2) =>
              let current' := add current 1 in
              match insertSchemaVersion current' tx2 with
              | (Err _, tx3) => (Some (EInsertVersion current'), tx3)
              | (Ok _, tx3) => applyUpdates current' rest hook tx3
              end
          end
      end
  end.

(** [ensureUpdatesAreApplied]: the slice [updates[current:]] is out of
    bounds for a negative [current]. *)
Definition ensureUpdatesAreApplied (current : Z) (updates : list Update)
    (hook : option Hook) (tx : Tx) : outcome (option err * Tx) :=
  if Z.of_nat (length updates) <? current
  then Returns (Some (ETooRecent current (Z.of_nat (length updates))), tx)
  else if (length updates =? 0)%nat then Returns (None, tx)
  else if current <? 0 then Panics
  else Returns (applyUpdates current (drop (Z.to_nat current) updates) hook tx).


(** [queryCurrentVersion]: the version and the error it returns, and
    the transaction as it leaves it. *)
Definition queryCurrentVersion (tx : Tx) : outcome (Z * option err * Tx) :=
  match selectSchemaVersions tx with
  | Err e => Returns (-1, Some (EFetchVersions e), tx)
  | Ok versions =>
      let hasVersion (versions : list Z) (v : Z) := existsb (Z.eqb v) versions in
      (* Fix bad upgrade code between 30 and 32 *)
      let fixed31 :=
        if hasVersion versions 30 && hasVersion versions 32 && negb (hasVersion versions 31)
        then
          match insertSchemaVersion 31 tx with
          | (Err _, tx1) => (Some (EInsertMissing 31), versions, tx1)
          | (Ok _, tx1) =>
              match selectSchemaVersions tx1 with
              | Err e => (Some (EFetchVersions e), versions, tx1)
              | Ok versions1 => (None, versions1, tx1)
              end
          end
        else (None, versions, tx) in
      match fixed31 with
      | (Some e, _, tx1) => Returns (-1, Some e, tx1)
      | (None, versions1, tx1) =>
          (* Fix broken schema version between 37 and 38 *)
          let fixed38 :=
            if hasVersion versions1 37 && negb (hasVersion versions1 38)
            then
              match countClusterAddress tx1 with
              | Err e => (Some (ECheckClusterAddress e), versions1, tx1)
              | Ok count =>
                  if count =? 1 then
                    match insertSchemaVersion 38 tx1 with
                    | (Err _, tx2) => (Some (EInsertMissing 38), versions1, tx2)
                    | (Ok _, tx2) => (None, versions1 ++ [38], tx2)
                    end
                  else (None, versions1, tx1)
              end
            else (None, versions1, tx1) in
          match fixed38 with
          | (Some e, _, tx2) => Returns (-1, Some e, tx2)
          | (None, versions2, tx2) =>
              if (0 <? length versions2)%nat then
                match checkSchemaVersionsHaveNoHoles versions2 with
                | Panics => Panics
                | Returns (Some e) => Returns (-1, Some e, tx2)
                | Returns None =>
                    Returns (nth (length versions2 - 1) versions2 0, None, tx2)
                end
              else Returns (0, None, tx2)
          end
      end
  end.

(** A value of type [Update], for the lookups in a map: [NewFromMap]
    only looks up keys it has read from the map. *)
#[local] Instance Update_inhabited : Inhabited Update :=
  populate (fun tx => (Ok tt, tx)).

(** The loop of [NewFromMap] over the sorted versions. *)
Fixpoint collectUpdates (versionsToUpdates : gmap Z Update) (versions : list Z) (i : nat)
    (updates : list Update) : outcome (list Update) :=
  match versions with
  | [] => Returns updates
  | version :: rest =>
      if negb (version =? Z.of_nat i + 1) then Panics
      else collectUpdates versionsToUpdates rest (S i)
             (updates ++ [versionsToUpdates !!! version])
  end.

(** [NewFromMap]: the updates of the schema it returns; [sort.Ints]
    gives the keys in increasing order. *)
Definition NewFromMap (versionsToUpdates : gmap Z Update) : outcome (list Update) :=
  let versions := map fst (map_to_list versionsToUpdates) in
  collectUpdates versionsToUpdates (merge_sort Z.le versions) 0 [].

(** *** The updates of a schema as a slice

    [Trim] and [Add] work on the slice [s.updates]: a window of [len]
    elements from [low] on in an array of the heap, whose capacity is
    what is left of the array from [low] on. *)
Record slice : Type := {
  array : nat;
  low : nat;
  len : nat
}.

Definition heap : Type := gmap nat (list (option Update)).

(** The elements of the array; a slot that was never written holds
    [nil]. *)
Definition elements (h : heap) (s : slice) : list (option Update) :=
  take (len s) (drop (low s) (default [] (h !! array s))).

Definition cap (h : heap) (s : slice) : nat :=
  (length (default [] (h !! array s)) - low s)%nat.

(** The capacity [append] gives the array it allocates is left open:
    [newcap] is a function of the number of elements to hold. *)
Variable newcap : nat -> nat.

(** [append(s, x)]: in place when the capacity allows it, in a new array
    otherwise. *)
Definition append (h : heap) (s : slice) (x : option Update) : heap * slice :=
  if (len s <? cap h s)%nat then
    (<[array s := <[(low s + len s)%nat := x]> (default [] (h !! array s))]> h,
     {| array := array s; low := low s; len := S (len s) |})
  else
    let a := fresh (dom h) in
    (<[a := elements h s ++ [x]
            ++ replicate (newcap (S (len s)) - S (len s))%nat None]> h,
     {| array := a; low := 0%nat; len := S (len s) |}).

(** The fields of [Schema] that [Trim] and [Add] read or write. *)
Record Schema : Type := {
  updates : slice;
  fresh : string
}.

(** [Add]. *)
Definition Add (h : heap) (s : Schema) (update : Update) : heap * Schema :=
  let '(h', updates') := append h (updates s) (Some update) in
  (h', {| updates := updates'; fresh := fresh s |}).

(** [Trim]: the slice it returns and the schema as it leaves it; the
    slice expression [s.updates[version:]] panics unless [version] is
    between 0 and the length. *)
Definition Trim (s : Schema) (version : Z) : outcome (slice * Schema) :=
  if (version <? 0) || (Z.of_nat (len (updates s)) <? version) then Panics
  else
    let v := Z.to_nat version in
    let trimmed := {| array := array (updates s); low := (low (updates s) + v)%nat;
                      len := (len (updates s) - v)%nat |} in
    Returns (trimmed,
             {| updates := {| array := array (updates s); low := low (updates s); len := v |};
                fresh := "" |}).

End Transactions.

End schema.

(** ** Further inputs *)

Module samples.

(** An ACL with a disabled rule, a logged rule on the reserved subject
    [@internal], an enabled rule, and a logged egress rule. *)
Definition aclStates : api.NetworkACL :=
  fixtures.acl "states"
    [fixtures.rule "allow" "" "" "tcp" "" "22" "disabled";
     fixtures.rule "drop" "@internal" "" "" "" "" "logged";
     fixtures.rule "allow" "" "" "" "" "" "enabled"]
    [fixtures.rule "reject" "" "" "" "" "" "logged"].

(** An ACL whose only rule is disabled; the rule has an action that is
    not valid and names an ACL without ID and the address set [office]. *)
Definition aclOff : api.NetworkACL :=
  fixtures.acl "off" [fixtures.rule "bogus" "nobody,$office" "" "" "" "" "disabled"] [].

(** The ACL [web] (ID 1) refers to the ACL [db] (ID 2) and is in use on
    the network [mynet]. *)
Definition webRefersToDb : UsedByFn :=
  fun _ _ =>
    ([{| matchedACLNames := ["db"]; usedBy := UNetworkACL "web";
         nicName := ""; nicConfig := ∅ |};
      {| matchedACLNames := ["web"];
         usedBy := UNetwork {| api.NetworkName := "mynet"; api.NetworkType := "ovn" |};
         nicName := ""; nicConfig := ∅ |}], None).

Definition groupsWebDb : gmap string ovn.PortGroup :=
  {[ "incus_acl1" := fixtures.group []; "incus_acl1_net3" := fixtures.group [];
     "incus_acl2" := fixtures.group [] ]}.

(** A transaction that holds the versions recorded in the table
    [schema], in their order, and the names of the updates run. *)
Definition tx : Type := list Z * list string.

Definition selectVersions (t : tx) : result (list Z) := Ok (fst t).

Definition insertVersion (v : Z) : M tx unit :=
  fun t => (Ok tt, (fst t ++ [v], snd t)).

Definition countOne (t : tx) : result Z := Ok 1.

Definition logUpdate (updateName : string) : schema.Update tx :=
  fun t => (Ok tt, (fst t, snd t ++ [updateName])).

End samples.

(** * Properties *)

(** ** The code on the scenarios of the specification *)

Section Scenarios.

#[local] Existing Instance gonet.lib.

Example scenario_allow_tcp_80 :
ovnRuleCriteriaToOVNACLRule "ingress"
  (fixtures.rule "allow" "" "" "tcp" "" "80" "enabled") "incus_acl7" ∅ ∅
= Ok ({| ovn.Direction := "to-lport"; ovn.Action := "allow-related"; ovn.Priority := 300;
         ovn.Match := "(outport == @incus_acl7) && (tcp) && (tcp.dst == 80)";
         ovn.Log := false; ovn.LogName := "" |}, false, []).
Proof. vm_compute. reflexivity. Qed.

Example scenario_port_range :
ovnRulePortToOVNACLMatch "udp" "src" (util.SplitNTrimSpace "53,1000-2000" "," (-1) false)
= "udp.src == 53 || (udp.src >= 1000 && udp.src <= 2000)".
Proof. vm_compute. reflexivity. Qed.

Example scenario_address_set :
subjectParts "src" ∅ ∅ (replaceAddressSetNames "$office,10.0.0.0/24" {[ "office" := 5 ]})
= Ok (["ip6.src == $incus_set5_ip6 || ip4.src == $incus_set5_ip4 || ip4.src == 10.0.0.0/24"],
      false, []).
Proof. vm_compute. reflexivity. Qed.

Example scenario_peer :
subjectParts "dst" ∅ fixtures.peers "@mynet/mypeer"
= Ok (["ip6.dst == $incus_net12_routes_ip6 || ip4.dst == $incus_net12_routes_ip4"],
      false, [{| cluster.NetworkName := "mynet"; cluster.PeerName := "mypeer" |}]).
Proof. vm_compute. reflexivity. Qed.

Example names_ex :
OVNACLPortGroupName 7 = "incus_acl7"
/\ OVNACLNetworkPortGroupName 7 3 = "incus_acl7_net3"
/\ OVNIntSwitchPortGroupName 3 = "incus_net3"
/\ OVNIntSwitchPortGroupAddressSetPrefix 12 = "incus_net12_routes"
/\ OVNIntSwitchName 3 = "incus-net3-ls-int"
/\ OVNIntSwitchRouterPortName 3 = "incus-net3-ls-int-lsp-router".
Proof. vm_compute. repeat split. Qed.

Example split_examples :
strings.SplitN "53,1000-2000" "," (-1) = ["53"; "1000-2000"]
/\ strings.SplitN "1000-2000-1" "-" 2 = ["1000"; "2000-1"]
/\ strings.SplitN "" "," (-1) = [""]
/\ util.SplitNTrimSpace " a , b ,," "," (-1) true = ["a"; "b"; ""; ""]
/\ util.SplitNTrimSpace "  " "," (-1) true = []
/\ strings.CutPrefix "$office" "$" = ("office", true)
/\ strings.ReplaceAll "inport == @__internal__ || x" "@__internal__" "@incus_net3"
   = "inport == @incus_net3 || x".
Proof. vm_compute. repeat split. Qed.

End Scenarios.

(** ** Facts on the string functions *)

Lemma genSplit_no_sep (sep : ascii) (s : string) (k : nat) :
  strings.ContainsByte s sep = false -> strings.genSplit sep s k = [s].
Proof.
  revert k. induction s as [|c s IH]; intros k H; simpl in *.
  - reflexivity.
  - apply orb_false_iff in H as [Hc Hs].
    destruct k as [|k]; [reflexivity|].
    rewrite Hc. rewrite (IH (S k) Hs). reflexivity.
Qed.

Lemma genSplit_cut (sep : ascii) (a b : string) (k : nat) :
  strings.ContainsByte a sep = false ->
  strings.genSplit sep (a +:+ String sep b) (S k) = a :: strings.genSplit sep b k.
Proof.
  intros H. induction a as [|c a IH]; simpl in *.
  - rewrite Ascii.eqb_refl. reflexivity.
  - apply orb_false_iff in H as [Hc Ha].
    rewrite Hc. rewrite (IH Ha). reflexivity.
Qed.

Lemma SplitN2_single (s : string) (sep : ascii) :
  strings.ContainsByte s sep = false -> strings.SplitN s sep 2 = [s].
Proof. intros H. unfold strings.SplitN. simpl. apply genSplit_no_sep, H. Qed.

Lemma SplitN2_pair (a b : string) (sep : ascii) :
  strings.ContainsByte a sep = false ->
  strings.SplitN (a +:+ String sep b) sep 2 = [a; b].
Proof.
  intros H. unfold strings.SplitN. simpl Z.to_nat.
  change (Z.to_nat (2 - 1)) with 1%nat.
  simpl (2 =? 0). simpl (2 <? 0). cbv iota.
  rewrite (genSplit_cut sep a b 0 H).
  destruct b; reflexivity.
Qed.

(** ** The lowering of one rule *)

Section Lowering.

Context {netlib : NetLib}.

Lemma actionAndPriority_cases (a : string) :
  (a = "allow" /\ actionAndPriority a = ("allow-related", 300))
  \/ (a = "allow-stateless" /\ actionAndPriority a = ("allow-stateless", 300))
  \/ (a = "reject" /\ actionAndPriority a = ("reject", 400))
  \/ (a = "drop" /\ actionAndPriority a = ("drop", 500))
  \/ (~ In a ValidActions /\ actionAndPriority a = ("", 0)).
Proof.
  unfold actionAndPriority.
  destruct (String.eqb_spec a "allow") as [->|H1]; [auto|].
  destruct (String.eqb_spec a "allow-stateless") as [->|H2]; [auto|].
  destruct (String.eqb_spec a "reject") as [->|H3]; [auto 6|].
  destruct (String.eqb_spec a "drop") as [->|H4]; [auto 6|].
  right; right; right; right. split; [|reflexivity].
  simpl. intros [E|[E|[E|[E|[]]]]]; congruence.
Qed.

(** What a successful lowering returns, field by field. *)
Lemma lowerRule_inv pg ids peers sets dir i rule r ns ps :
  lowerRule pg ids peers sets dir i rule = Ok (r, ns, ps) ->
  exists srcParts srcSpecific srcPeers dstParts dstSpecific dstPeers,
    subjectParts "src" ids peers (replaceAddressSetNames (api.Source rule) sets)
      = Ok (srcParts, srcSpecific, srcPeers)
    /\ subjectParts "dst" ids peers (replaceAddressSetNames (api.Destination rule) sets)
      = Ok (dstParts, dstSpecific, dstPeers)
    /\ ovn.Direction r = "to-lport"
    /\ ovn.Action r = fst (actionAndPriority (api.Action rule))
    /\ ovn.Priority r = snd (actionAndPriority (api.Action rule))
    /\ ovn.Match r =
         "(" +:+ strings.Join (directionalMatch dir pg ++ srcParts ++ dstParts
                                 ++ protocolParts rule) ") && (" +:+ ")"
    /\ ns = srcSpecific || dstSpecific
    /\ ps = srcPeers ++ dstPeers.
Proof.
  unfold lowerRule, ovnRuleCriteriaToOVNACLRule. simpl.
  destruct (subjectParts "src" ids peers _) as [[[sp ss] spe]|e] eqn:Hs; [|discriminate].
  destruct (subjectParts "dst" ids peers _) as [[[dp ds] dpe]|e] eqn:Hd; [|discriminate].
  intros H. injection H as Hr Hns Hps. subst ns ps.
  exists sp, ss, spe, dp, ds, dpe.
  split; [reflexivity|]. split; [reflexivity|].
  destruct (String.eqb (api.State rule) "logged"); subst r; simpl; repeat split.
Qed.

Lemma convertACLRule_inv pg ids peers sets dir i rule c c' :
  convertACLRule pg ids peers sets dir i rule c = Ok c' ->
  (api.State rule = "disabled" /\ c' = c)
  \/ (api.State rule <> "disabled" /\
      exists r ns ps,
        lowerRule pg ids peers sets dir i rule = Ok (r, ns, ps)
        /\ portGroupRules c' = (if ns then portGroupRules c else portGroupRules c ++ [r])
        /\ networkRules c' = (if ns then networkRules c ++ [r] else networkRules c)
        /\ peersNeeded c' = peersNeeded c ++ ps).
Proof.
  unfold convertACLRule.
  destruct (String.eqb_spec (api.State rule) "disabled") as [E|E].
  - intros H. injection H as <-. left. split; [exact E|reflexivity].
  - destruct (lowerRule pg ids peers sets dir i rule) as [[[r ns] ps]|e] eqn:Hl; [|discriminate].
    intros H. injection H as <-. right. split; [exact E|].
    exists r, ns, ps. simpl. repeat split.
Qed.

End Lowering.

(** ** Port predicates and the match of a TCP or UDP rule *)

Lemma portCriterionMatch_single (protocol direction P : string) :
  strings.ContainsByte P "-" = false ->
  portCriterionMatch protocol direction P = protocol +:+ "." +:+ direction +:+ " == " +:+ P.
Proof.
  intros H. unfold portCriterionMatch. rewrite (SplitN2_single P "-" H). reflexivity.
Qed.

Lemma portCriterionMatch_range (protocol direction A B : string) :
  strings.ContainsByte A "-" = false ->
  portCriterionMatch protocol direction (A +:+ "-" +:+ B)
  = "(" +:+ protocol +:+ "." +:+ direction +:+ " >= " +:+ A +:+ " && "
        +:+ protocol +:+ "." +:+ direction +:+ " <= " +:+ B +:+ ")".
Proof.
  intros H. unfold portCriterionMatch.
  change (A +:+ "-" +:+ B) with (A +:+ String "-" B).
  rewrite (SplitN2_pair A B "-" H). reflexivity.
Qed.

Section TcpUdp.

Context {netlib : NetLib}.

Lemma subjectParts_inv direction ids peers subject parts specific needed :
  subjectParts direction ids peers subject = Ok (parts, specific, needed) ->
  (subject = "" /\ parts = [] /\ specific = false /\ needed = [])
  \/ (subject <> "" /\ exists m,
        ovnRuleSubjectToOVNACLMatch direction ids peers
          (util.SplitNTrimSpace subject "," (-1) false) = Ok (m, specific, needed)
        /\ parts = [m]).
Proof.
  unfold subjectParts.
  destruct (String.eqb_spec subject "") as [E|E].
  - intros H. injection H as <- <- <-. left. auto.
  - destruct (ovnRuleSubjectToOVNACLMatch _ _ _ _) as [[[m s] n]|e]; [|discriminate].
    intros H. injection H as <- <- <-. right. split; [exact E|]. exists m. auto.
Qed.

Lemma protocolParts_tcp_udp (rule : api.NetworkACLRule) :
  api.Protocol rule = "tcp" \/ api.Protocol rule = "udp" ->
  protocolParts rule
  = [api.Protocol rule]
      ++ portParts (api.Protocol rule) "src" (api.SourcePort rule)
      ++ portParts (api.Protocol rule) "dst" (api.DestinationPort rule).
Proof. unfold protocolParts. intros [-> | ->]; reflexivity. Qed.

(** C2: the match of an enabled TCP or UDP rule is its match parts
    joined by ") && (" inside parentheses: the directional anchor, the
    fragment of the source and of the destination when that field is
    not empty, the protocol, then the port predicates; a single port
    lowers to an equality, a range to two comparisons in parentheses,
    and the criteria of one field are joined by " || ". *)
Theorem C2_tcp_udp_match pg ids peers sets dir i rule c c' :
  api.State rule <> "disabled" ->
  api.Protocol rule = "tcp" \/ api.Protocol rule = "udp" ->
  dir = "ingress" \/ dir = "egress" ->
  convertACLRule pg ids peers sets dir i rule c = Ok c' ->
  exists r srcParts dstParts,
    (* the rule is emitted, into one of the two lists *)
    (portGroupRules c' = portGroupRules c ++ [r]
     \/ networkRules c' = networkRules c ++ [r])
    (* its match *)
    /\ ovn.Match r =
         "(" +:+ strings.Join
                   ([if String.eqb dir "ingress"
                     then "outport == @" +:+ pg else "inport == @" +:+ pg]
                    ++ srcParts ++ dstParts
                    ++ [api.Protocol rule]
                    ++ (if String.eqb (api.SourcePort rule) "" then []
                        else [ovnRulePortToOVNACLMatch (api.Protocol rule) "src"
                                (util.SplitNTrimSpace (api.SourcePort rule) "," (-1) false)])
                    ++ (if String.eqb (api.DestinationPort rule) "" then []
                        else [ovnRulePortToOVNACLMatch (api.Protocol rule) "dst"
                                (util.SplitNTrimSpace (api.DestinationPort rule) "," (-1) false)]))
                   ") && (" +:+ ")"
    (* the subject fragments *)
    /\ (let src := replaceAddressSetNames (api.Source rule) sets in
        (src = "" /\ srcParts = [])
        \/ (src <> "" /\ exists m specific needed,
              ovnRuleSubjectToOVNACLMatch "src" ids peers
                (util.SplitNTrimSpace src "," (-1) false) = Ok (m, specific, needed)
              /\ srcParts = [m]))
    /\ (let dst := replaceAddressSetNames (api.Destination rule) sets in
        (dst = "" /\ dstParts = [])
        \/ (dst <> "" /\ exists m specific needed,
              ovnRuleSubjectToOVNACLMatch "dst" ids peers
                (util.SplitNTrimSpace dst "," (-1) false) = Ok (m, specific, needed)
              /\ dstParts = [m]))
    (* the port predicates *)
    /\ (forall protocol d criteria,
          ovnRulePortToOVNACLMatch protocol d criteria
          = strings.Join (map (portCriterionMatch protocol d) criteria) " || ")
    /\ (forall protocol d P,
          strings.ContainsByte P "-" = false ->
          portCriterionMatch protocol d P = protocol +:+ "." +:+ d +:+ " == " +:+ P)
    /\ (forall protocol d A B,
          strings.ContainsByte A "-" = false ->
          portCriterionMatch protocol d (A +:+ "-" +:+ B)
          = "(" +:+ protocol +:+ "." +:+ d +:+ " >= " +:+ A +:+ " && "
                +:+ protocol +:+ "." +:+ d +:+ " <= " +:+ B +:+ ")").
Proof.
  intros Hstate Hproto Hdir Hconv.
  apply convertACLRule_inv in Hconv as [[E _]|[_ (r & ns & ps & Hl & Hpg & Hnet & _)]];
    [contradiction|].
  apply lowerRule_inv in Hl
    as (sp & ss & spe & dp & ds & dpe & Hs & Hd & _ & _ & _ & Hm & _ & _).
  exists r, sp, dp.
  split. { destruct ns; [right|left]; assumption. }
  split.
  { rewrite Hm, (protocolParts_tcp_udp rule Hproto). unfold portParts, directionalMatch.
    destruct Hdir as [-> | ->]; reflexivity. }
  split.
  { cbv zeta. apply subjectParts_inv in Hs as [(E & -> & _)|(E & m & Hm' & ->)].
    - left. auto.
    - right. split; [exact E|]. exists m, ss, spe. auto. }
  split.
  { cbv zeta. apply subjectParts_inv in Hd as [(E & -> & _)|(E & m & Hm' & ->)].
    - left. auto.
    - right. split; [exact E|]. exists m, ds, dpe. auto. }
  split. { reflexivity. }
  split. { intros. apply portCriterionMatch_single. assumption. }
  intros. apply portCriterionMatch_range. assumption.
Qed.

End TcpUdp.

Section TcpUdpWitness.

#[local] Existing Instance gonet.lib.

(** The theorem at the rule of the second scenario of the
    specification, with a source and a destination added. *)
Lemma C2_tcp_udp_match_witness :
  exists c',
    convertACLRule "incus_acl7" (fixtures.ids []) fixtures.peers {[ "office" := 5 ]} "ingress" 0
      (fixtures.rule "allow" "$office,10.0.0.0/24" "" "udp" "53,1000-2000" "" "enabled")
      {| portGroupRules := []; networkRules := []; peersNeeded := [] |} = Ok c'
    /\ exists r,
         portGroupRules c' = [r]
         /\ ovn.Match r =
              "(outport == @incus_acl7) && (ip6.src == $incus_set5_ip6 || ip4.src == $incus_set5_ip4 || ip4.src == 10.0.0.0/24) && (udp) && (udp.src == 53 || (udp.src >= 1000 && udp.src <= 2000))".
Proof.
  eexists. split; [vm_compute; reflexivity|].
  destruct (C2_tcp_udp_match "incus_acl7" (fixtures.ids []) fixtures.peers {[ "office" := 5 ]}
              "ingress" 0
              (fixtures.rule "allow" "$office,10.0.0.0/24" "" "udp" "53,1000-2000" "" "enabled")
              {| portGroupRules := []; networkRules := []; peersNeeded := [] |} _
              ltac:(discriminate) ltac:(right; reflexivity) ltac:(left; reflexivity)
              ltac:(vm_compute; reflexivity))
    as (r & sp & dp & Hem & Hm & _).
  eexists. split; [reflexivity|]. vm_compute. reflexivity.
Defined.

End TcpUdpWitness.

(** ** Actions and priorities *)

Section Actions.

Context {netlib : NetLib}.

(** C8: a rule that is not disabled and whose action is "allow" is
    emitted with the action "allow-related"; the action
    "allow-stateless" is emitted unchanged. *)
Theorem C8_allow_is_allow_related pg ids peers sets dir i rule c c' :
  api.State rule <> "disabled" ->
  convertACLRule pg ids peers sets dir i rule c = Ok c' ->
  exists r,
    (portGroupRules c' = portGroupRules c ++ [r] /\ networkRules c' = networkRules c
     \/ networkRules c' = networkRules c ++ [r] /\ portGroupRules c' = portGroupRules c)
    /\ (api.Action rule = "allow" -> ovn.Action r = "allow-related")
    /\ (api.Action rule = "allow-stateless" -> ovn.Action r = "allow-stateless").
Proof.
  intros Hstate Hconv.
  apply convertACLRule_inv in Hconv as [[E _]|[_ (r & ns & ps & Hl & Hpg & Hnet & _)]];
    [contradiction|].
  apply lowerRule_inv in Hl as (? & ? & ? & ? & ? & ? & _ & _ & _ & Ha & _).
  exists r. split.
  - destruct ns; [right|left]; split; assumption.
  - rewrite Ha. split; intros ->; reflexivity.
Qed.

(** Whatever holds of the rules gathered so far and of every rule a
    lowering returns holds of the rules gathered at the end. *)
Lemma convertACLRulesFrom_Forall (P : ovn.OVNACLRule -> Prop) (Q : api.NetworkACLRule -> Prop)
    pg ids peers sets dir rules :
  (forall j rule r ns ps,
      Q rule -> api.State rule <> "disabled" ->
      lowerRule pg ids peers sets dir j rule = Ok (r, ns, ps) -> P r) ->
  forall i c c',
    Forall Q rules ->
    Forall P (portGroupRules c) -> Forall P (networkRules c) ->
    convertACLRulesFrom pg ids peers sets dir i rules c = Ok c' ->
    Forall P (portGroupRules c') /\ Forall P (networkRules c').
Proof.
  intros HP. induction rules as [|rule rest IH]; intros i c c' HQ Hpg Hnet Hconv; simpl in Hconv.
  - injection Hconv as <-. auto.
  - destruct (convertACLRule pg ids peers sets dir i rule c) as [c1|e] eqn:Hone; [|discriminate].
    apply Forall_cons in HQ as [HQ1 HQrest].
    apply (IH (i + 1) c1 c' HQrest); [| |exact Hconv].
    + apply convertACLRule_inv in Hone
        as [[_ ->]|[Hs (r & ns & ps & Hl & Hpg' & _ & _)]]; [exact Hpg|].
      rewrite Hpg'. destruct ns; [exact Hpg|].
      apply Forall_app. split; [exact Hpg|].
      apply Forall_cons. split; [|apply Forall_nil; exact I]. eapply HP; eauto.
    + apply convertACLRule_inv in Hone
        as [[_ ->]|[Hs (r & ns & ps & Hl & _ & Hnet' & _)]]; [exact Hnet|].
      rewrite Hnet'. destruct ns; [|exact Hnet].
      apply Forall_app. split; [exact Hnet|].
      apply Forall_cons. split; [|apply Forall_nil; exact I]. eapply HP; eauto.
Qed.

Lemma compileACL_inv db acl pg ids peers c :
  compileACL db acl pg ids peers = Ok c ->
  exists sets c1 c2,
    convertACLRules pg ids peers sets "ingress" (api.Ingress acl)
      {| portGroupRules := []; networkRules := []; peersNeeded := [] |} = Ok c1
    /\ convertACLRules pg ids peers sets "egress" (api.Egress acl) c1 = Ok c2
    /\ portGroupRules c = portGroupRules c2 ++ [defaultRule pg]
    /\ networkRules c = networkRules c2
    /\ peersNeeded c = peersNeeded c2.
Proof.
  unfold compileACL.
  destruct (loadAddressSetIDs _ _ _ _) as [sets|e]; [|discriminate].
  destruct (convertACLRules pg ids peers sets "ingress" _ _) as [c1|e] eqn:H1; [|discriminate].
  destruct (convertACLRules pg ids peers sets "egress" _ _) as [c2|e] eqn:H2; [|discriminate].
  intros H. injection H as <-. exists sets, c1, c2. simpl. auto.
Qed.

(** Every rule of a compiled ACL satisfies what every lowered rule
    satisfies, the default rule apart. *)
Lemma compileACL_Forall (P : ovn.OVNACLRule -> Prop) (Q : api.NetworkACLRule -> Prop)
    db acl pg ids peers c :
  (forall sets dir j rule r ns ps,
      Q rule -> api.State rule <> "disabled" ->
      lowerRule pg ids peers sets dir j rule = Ok (r, ns, ps) -> P r) ->
  Forall Q (api.Ingress acl ++ api.Egress acl) ->
  compileACL db acl pg ids peers = Ok c ->
  exists before,
    portGroupRules c = before ++ [defaultRule pg]
    /\ Forall P before /\ Forall P (networkRules c).
Proof.
  intros HP HQ Hc.
  apply compileACL_inv in Hc as (sets & c1 & c2 & H1 & H2 & Hpg & Hnet & _).
  apply Forall_app in HQ as [HQi HQe].
  unfold convertACLRules in H1, H2.
  apply (convertACLRulesFrom_Forall P Q) in H1 as [Hp1 Hn1];
    [|intros; eapply HP; eauto|assumption|constructor|constructor].
  apply (convertACLRulesFrom_Forall P Q) in H2 as [Hp2 Hn2];
    [|intros; eapply HP; eauto|assumption|assumption|assumption].
  exists (portGroupRules c2). rewrite Hnet. auto.
Qed.

(** C1: every rule of a compiled ACL has a priority among 0, 300, 400
    and 500; the list for the port group ends with the default rule, of
    priority 0, action "drop" and match
    (inport == @PG || outport == @PG); and for the ACLs of the data
    model, whose rules that are not disabled have one of the four
    actions, it is the one rule of priority 0, in the list for the port
    group and in the list for the networks together. *)
Theorem C1_priorities db acl pg ids peers c :
  compileACL db acl pg ids peers = Ok c ->
  (forall r, In r (portGroupRules c ++ networkRules c) ->
             In (ovn.Priority r) [0; 300; 400; 500])
  /\ (exists before d,
        portGroupRules c = before ++ [d]
        /\ ovn.Priority d = 0
        /\ ovn.Action d = "drop"
        /\ ovn.Match d = "(inport == @" +:+ pg +:+ " || outport == @" +:+ pg +:+ ")")
  /\ ((forall rule, In rule (api.Ingress acl ++ api.Egress acl) ->
                    api.State rule <> "disabled" -> In (api.Action rule) ValidActions) ->
      filter (fun r => ovn.Priority r =? 0) (portGroupRules c) = [defaultRule pg]
      /\ filter (fun r => ovn.Priority r =? 0) (networkRules c) = []).
Proof.
  intros Hc. split; [|split].
  - destruct (compileACL_Forall
                (fun r => In (ovn.Priority r) [0; 300; 400; 500]) (fun _ => True)
                db acl pg ids peers c) as (before & Hpg & Hb & Hn); [| |exact Hc|].
    + intros sets dir j rule r ns ps _ _ Hl.
      apply lowerRule_inv in Hl as (? & ? & ? & ? & ? & ? & _ & _ & _ & _ & Hp & _).
      rewrite Hp.
      destruct (actionAndPriority_cases (api.Action rule))
        as [[_ ->]|[[_ ->]|[[_ ->]|[[_ ->]|[_ ->]]]]]; simpl; auto 6.
    + apply Forall_forall. auto.
    + intros r Hin. rewrite Hpg in Hin.
      apply in_app_or in Hin as [Hin|Hin]; [apply in_app_or in Hin as [Hin|Hin]|].
      * rewrite Forall_forall in Hb. apply Hb. apply list_elem_of_In. exact Hin.
      * destruct Hin as [<-|[]]. simpl. auto.
      * rewrite Forall_forall in Hn. apply Hn. apply list_elem_of_In. exact Hin.
  - apply compileACL_inv in Hc as (sets & c1 & c2 & _ & _ & Hpg & _).
    exists (portGroupRules c2), (defaultRule pg). auto.
  - intros Hvalid.
    destruct (compileACL_Forall
                (fun r => (ovn.Priority r =? 0) = false)
                (fun rule => api.State rule <> "disabled" -> In (api.Action rule) ValidActions)
                db acl pg ids peers c) as (before & Hpg & Hb & Hn); [| |exact Hc|].
    + intros sets dir j rule r ns ps HQ Hs Hl.
      apply lowerRule_inv in Hl as (? & ? & ? & ? & ? & ? & _ & _ & _ & _ & Hp & _).
      rewrite Hp.
      destruct (actionAndPriority_cases (api.Action rule))
        as [[_ ->]|[[_ ->]|[[_ ->]|[[_ ->]|[Hbad _]]]]]; try reflexivity.
      exfalso. apply Hbad. apply HQ. exact Hs.
    + apply Forall_forall. intros rule Hin. apply Hvalid. apply list_elem_of_In. exact Hin.
    + assert (Hnone : forall l, Forall (fun r => (ovn.Priority r =? 0) = false) l ->
                                filter (fun r => ovn.Priority r =? 0) l = []).
      { induction 1 as [|r l Hr _ IH]; [reflexivity|].
        rewrite filter_cons. rewrite Hr. simpl. exact IH. }
      split.
      * rewrite Hpg, filter_app, (Hnone _ Hb). reflexivity.
      * apply Hnone, Hn.
Qed.

End Actions.

Section ActionsWitness.

#[local] Existing Instance gonet.lib.

Lemma C8_allow_is_allow_related_witness :
  exists c',
    convertACLRule "incus_acl7" ∅ ∅ ∅ "ingress" 0
      (fixtures.rule "allow" "" "" "tcp" "" "80" "enabled")
      {| portGroupRules := []; networkRules := []; peersNeeded := [] |} = Ok c'
    /\ exists r, portGroupRules c' = [r] /\ ovn.Action r = "allow-related".
Proof.
  eexists. split; [vm_compute; reflexivity|].
  destruct (C8_allow_is_allow_related "incus_acl7" ∅ ∅ ∅ "ingress" 0
              (fixtures.rule "allow" "" "" "tcp" "" "80" "enabled")
              {| portGroupRules := []; networkRules := []; peersNeeded := [] |} _
              ltac:(discriminate) ltac:(vm_compute; reflexivity))
    as (r & [[Hpg _]|[_ Hpg]] & Hallow & _).
  - exists r. split; [exact Hpg|]. apply Hallow. reflexivity.
  - discriminate Hpg.
Defined.

Lemma C1_priorities_witness :
  exists c,
    compileACL (fixtures.db []) fixtures.aclWeb "incus_acl7" ∅ ∅ = Ok c
    /\ filter (fun r => ovn.Priority r =? 0) (portGroupRules c) = [defaultRule "incus_acl7"]
    /\ map ovn.Priority (portGroupRules c) = [300; 0].
Proof.
  eexists. split; [vm_compute; reflexivity|].
  destruct (C1_priorities (fixtures.db []) fixtures.aclWeb "incus_acl7" ∅ ∅ _
              ltac:(vm_compute; reflexivity)) as (_ & _ & Honly).
  split; [|vm_compute; reflexivity].
  apply Honly.
  intros rule [<-|[]] _. vm_compute. auto.
Defined.

End ActionsWitness.

(** ** Failure of the compilation *)

Section CompileFailure.

Context {netlib : NetLib}.

Lemma convertACLRulesFrom_first_failure pg ids peers sets dir pre :
  forall i bad rest c c1 e,
    convertACLRulesFrom pg ids peers sets dir i pre c = Ok c1 ->
    convertACLRule pg ids peers sets dir (i + Z.of_nat (length pre)) bad c1 = Err e ->
    convertACLRulesFrom pg ids peers sets dir i (pre ++ bad :: rest) c = Err e.
Proof.
  induction pre as [|rule pre IH]; intros i bad rest c c1 e Hpre Hbad; simpl in *.
  - injection Hpre as ->. rewrite Z.add_0_r in Hbad. rewrite Hbad. reflexivity.
  - destruct (convertACLRule pg ids peers sets dir i rule c) as [c'|e']; [|discriminate].
    apply (IH (i + 1) bad rest c' c1 e Hpre).
    replace (i + 1 + Z.of_nat (length pre)) with (i + Z.pos (Pos.of_succ_nat (length pre)))
      by lia.
    exact Hbad.
Qed.

(** C7 (as amended): the lowering of a rule fails only on its source or
    destination subjects, whatever its action; the first rule whose
    conversion fails makes the conversion of the whole list fail with
    that error; and when the compilation of the ACL fails,
    [ovnApplyToPortGroup] returns the error without any client call,
    the northbound database untouched. *)
Theorem C7_failure_is_whole_acl :
  (forall dir rule pg ids peers e,
      ovnRuleCriteriaToOVNACLRule dir rule pg ids peers = Err e <->
      (subjectParts "src" ids peers (api.Source rule) = Err e
       \/ (is_ok (subjectParts "src" ids peers (api.Source rule)) = true
           /\ subjectParts "dst" ids peers (api.Destination rule) = Err e)))
  /\ (forall pg ids peers sets dir i pre bad rest c c1 e,
        convertACLRulesFrom pg ids peers sets dir i pre c = Ok c1 ->
        convertACLRule pg ids peers sets dir (i + Z.of_nat (length pre)) bad c1 = Err e ->
        convertACLRulesFrom pg ids peers sets dir i (pre ++ bad :: rest) c = Err e)
  /\ (forall db acl pg ids nets peers e w,
        compileACL db acl pg ids peers = Err e ->
        ovnApplyToPortGroup db acl pg ids nets peers w = (Err e, w)).
Proof.
  split; [|split].
  - intros dir rule pg ids peers e. unfold ovnRuleCriteriaToOVNACLRule.
    destruct (subjectParts "src" ids peers (api.Source rule)) as [[[sp ss] spe]|es].
    + destruct (subjectParts "dst" ids peers (api.Destination rule)) as [[[dp ds] dpe]|ed].
      * split; [discriminate|]. intros [H|[_ H]]; discriminate.
      * split; [intros H; right; split; [reflexivity|congruence]|].
        intros [H|[_ H]]; [discriminate|congruence].
    + split; [intros H; left; congruence|].
      intros [H|[H _]]; [congruence|discriminate].
  - intros. eapply convertACLRulesFrom_first_failure; eauto.
  - intros db acl pg ids nets peers e w Hc.
    unfold ovnApplyToPortGroup, bind, lift. rewrite Hc. reflexivity.
Qed.

End CompileFailure.

Section CompileFailureWitness.

#[local] Existing Instance gonet.lib.

(** The second rule of the ACL names an ACL without ID: the conversion
    stops there and nothing reaches the port group. *)
Lemma C7_failure_is_whole_acl_witness :
  compileACL (fixtures.db []) fixtures.aclGhost "incus_acl7" ∅ ∅
  = Err (EWrap "Failed converting ACL ingress rules" (EACLIDNotFound "nobody"))
  /\ ovnApplyToPortGroup (fixtures.db []) fixtures.aclGhost "incus_acl7" ∅ [] ∅
       (fixtures.nb {[ "incus_acl7" := fixtures.group [] ]})
     = (Err (EWrap "Failed converting ACL ingress rules" (EACLIDNotFound "nobody")),
        fixtures.nb {[ "incus_acl7" := fixtures.group [] ]}).
Proof.
  assert (H : compileACL (fixtures.db []) fixtures.aclGhost "incus_acl7" ∅ ∅
              = Err (EWrap "Failed converting ACL ingress rules" (EACLIDNotFound "nobody")))
    by (vm_compute; reflexivity).
  split; [exact H|].
  exact (proj2 (proj2 C7_failure_is_whole_acl)
           (fixtures.db []) fixtures.aclGhost "incus_acl7" ∅ [] ∅ _ _ H).
Defined.

(** The claim C7 as stated fails: an action outside the four is no
    error, the rule reaches the port group with an empty action. *)
Lemma C7_unknown_action_is_emitted :
  slices.Contains ValidActions "bogus" = false
  /\ exists w',
       ovnApplyToPortGroup (fixtures.db []) fixtures.aclBogus "incus_acl7" ∅ [] ∅
         (fixtures.nb {[ "incus_acl7" := fixtures.group [] ]}) = (Ok tt, w')
       /\ (map (fun r => (ovn.Action r, ovn.Priority r)) ∘ ovn.ACLs)
            <$> ovn.portGroups w' !! "incus_acl7"
          = Some [("", 0); ("drop", 0)].
Proof.
  split; [reflexivity|]. eexists. split; [vm_compute; reflexivity|].
  vm_compute. reflexivity.
Qed.

End CompileFailureWitness.

(** ** The referenced ACLs of an ACL *)

Section ReferencedNames.

Context {netlib : NetLib}.

(** What [addACLNamesFrom] adds: every subject that is no reserved
    alias, no CIDR and no range, whatever its first character. *)
Lemma addACLNamesFrom_spec (subjects refs : list string) (x : string) :
  In x (addACLNamesFrom refs subjects)
  <-> In x refs
      \/ (In x subjects
          /\ slices.Contains (ruleSubjectInternalAliases ++ ruleSubjectExternalAliases) x = false
          /\ IsNetworkAddressCIDR x || IsNetworkRange x = false).
Proof.
  unfold addACLNamesFrom. revert refs.
  induction subjects as [|s subjects IH]; intros refs; cbn [fold_left In].
  - tauto.
  - rewrite IH. clear IH.
    set (aliases := ruleSubjectInternalAliases ++ ruleSubjectExternalAliases).
    destruct (slices.Contains refs s) eqn:Hseen.
    { split; [tauto|]. intros [H|[[<-|H] Hx]]; [tauto| |tauto].
      left. unfold slices.Contains in Hseen. apply existsb_exists in Hseen as (y & Hy & E).
      apply String.eqb_eq in E. subst y. exact Hy. }
    destruct (slices.Contains aliases s) eqn:Halias.
    { split; [tauto|]. intros [H|[[<-|H] Hx]]; [tauto|destruct Hx; congruence|tauto]. }
    destruct (IsNetworkAddressCIDR s || IsNetworkRange s) eqn:Haddr.
    { split; [tauto|]. intros [H|[[<-|H] Hx]]; [tauto|destruct Hx; congruence|tauto]. }
    split.
    + intros [H|H]; [|tauto].
      apply in_app_or in H as [H|[<-|[]]]; [tauto|]. right. auto.
    + intros [H|[[<-|H] Hx]]; [left; apply in_or_app; tauto| |tauto].
      left. apply in_or_app. right. left. reflexivity.
Qed.

End ReferencedNames.

Section Referenced.

#[local] Existing Instance gonet.lib.

(** C5: the code at an ACL whose ingress source lists an address set, a
    peer, an ACL name, a reserved alias and a CIDR. The alias and the
    CIDR are skipped; the token starting with "$" and the token starting
    with "@" that contains "/" are added to the set of referenced ACLs
    like the ACL name, where the claim says they are skipped. Neither
    has an ID, so [OVNEnsureACLs], asked for that ACL, creates for them
    a placeholder port group named after the ID 0. *)
Theorem C5_address_set_and_peer_tokens_are_collected :
  ovnAddReferencedACLs fixtures.aclMixed [] = ["$office"; "@mynet/mypeer"; "db"]
  /\ strings.HasPrefix "$office" "$" = true
  /\ (strings.HasPrefix "@mynet/mypeer" "@" && strings.ContainsByte "@mynet/mypeer" "/") = true
  /\ createdGroups
       (ovn.trace (snd (OVNEnsureACLs fixtures.dbMixed "default" fixtures.idsMixed []
                          ["mixed"] false (fixtures.nb ∅))))
     = ["incus_acl0"; "incus_acl2"; "incus_acl8"].
Proof. vm_compute. auto. Qed.

End Referenced.

(** ** The cache of the resource inventory *)

(** C10: the code at a cache filled at time 0 with the inventory [1],
    when the inventory now reads [2]. Five seconds later the call takes
    the inventory again and refreshes the cache; fifteen seconds later it
    returns the cached value and leaves the cache as it is. The test
    [lastRun.Add(10*time.Second).Before(time.Now())] holds when more than
    ten seconds have passed, the opposite of the comment above it. *)
Theorem C10_cache_test_is_inverted :
  resources.GetResources (5 * resources.Second) (5 * resources.Second) (Ok 2%nat)
    {| resources.lastResources := Some 1%nat; resources.lastRun := 0 |}
  = (Ok 2%nat, {| resources.lastResources := Some 2%nat;
                  resources.lastRun := 5 * resources.Second |})
  /\ resources.GetResources (15 * resources.Second) (15 * resources.Second) (Ok 2%nat)
       {| resources.lastResources := Some 1%nat; resources.lastRun := 0 |}
     = (Ok 1%nat, {| resources.lastResources := Some 1%nat; resources.lastRun := 0 |}).
Proof. split; reflexivity. Qed.

(** What the test does in general: with a filled cache the inventory is
    taken again exactly when at most ten seconds have passed. *)
Lemma GetResources_served_from_cache {R} (now1 now2 : Z) (inventory : result R)
    (c : resources.cache R) (cached : R) :
  resources.lastResources c = Some cached ->
  resources.GetResources now1 now2 inventory c = (Ok cached, c)
  <-> (resources.lastRun c + 10 * resources.Second < now1
       \/ (inventory = Ok cached /\ c = {| resources.lastResources := Some cached;
                                           resources.lastRun := now2 |})).
Proof.
  intros Hc. unfold resources.GetResources. rewrite Hc.
  destruct (Z.ltb_spec (resources.lastRun c + 10 * resources.Second) now1) as [Hlt|Hge].
  - split; auto.
  - split.
    + destruct inventory as [r|e]; [|discriminate].
      intros H. injection H as -> <-. right. auto.
    + intros [Hlt|[-> Heq]]; [lia|]. rewrite <- Heq. reflexivity.
Qed.

(** ** Peers *)

Lemma ContainsByte_app (a b : string) (c : ascii) :
  strings.ContainsByte (a +:+ b) c = strings.ContainsByte a c || strings.ContainsByte b c.
Proof.
  induction a as [|x a IH]; simpl; [reflexivity|].
  rewrite IH. apply orb_assoc.
Qed.

Section Peers.

Context {netlib : NetLib}.

Lemma HasPrefix_at_dollar (x : string) : strings.HasPrefix (String "@" x) "$" = false.
Proof. reflexivity. Qed.

Lemma CutPrefix_at (x : string) : strings.CutPrefix (String "@" x) "@" = (x, true).
Proof. reflexivity. Qed.

Lemma alias_with_slash (x : string) :
  strings.ContainsByte x "/" = true ->
  slices.Contains ruleSubjectInternalAliases (String "@" x) = false
  /\ slices.Contains ruleSubjectExternalAliases (String "@" x) = false.
Proof.
  intros Hslash.
  assert (Hne : forall s, strings.ContainsByte s "/" = false -> String.eqb x s = false).
  { intros s Hs. apply String.eqb_neq. intros E. rewrite E in Hslash. congruence. }
  unfold slices.Contains, ruleSubjectInternalAliases, ruleSubjectExternalAliases.
  cbn [existsb String.eqb Ascii.eqb Bool.eqb orb andb].
  rewrite (Hne "internal"), (Hne "external") by reflexivity. auto.
Qed.

Lemma peerSubject_step direction ids peers a tok net peer :
  peerSubject tok net peer ->
  subjectCriterionStep direction ids peers a tok
  = match peers !! (net, peer) with
    | None => Err (EPeerNetworkNotFound tok)
    | Some networkID =>
        Ok {| fieldParts := fieldParts a ++
                ["ip6." +:+ direction +:+ " == $"
                        +:+ OVNIntSwitchPortGroupAddressSetPrefix networkID +:+ "_ip6 || ip4."
                        +:+ direction +:+ " == $"
                        +:+ OVNIntSwitchPortGroupAddressSetPrefix networkID +:+ "_ip4"];
              networkSpecific := networkSpecific a;
              networkPeersNeeded :=
                networkPeersNeeded a
                  ++ [{| cluster.NetworkName := net; cluster.PeerName := peer |}] |}
    end.
Proof.
  intros (Htok & Hnet & Hrange & Hip & Hcidr).
  unfold subjectCriterionStep. rewrite Hrange, Hip, Hcidr.
  assert (Hslash : strings.ContainsByte (net +:+ String "/" peer) "/" = true).
  { rewrite ContainsByte_app. simpl. apply orb_true_r. }
  subst tok. change ("@" +:+ net +:+ "/" +:+ peer) with (String "@" (net +:+ String "/" peer)).
  destruct (alias_with_slash _ Hslash) as [-> ->].
  rewrite HasPrefix_at_dollar, CutPrefix_at, (SplitN2_pair net peer "/" Hnet).
  reflexivity.
Qed.

(** A step only adds to the peers needed. *)
Lemma subjectCriterionStep_peers direction ids peers a tok a' :
  subjectCriterionStep direction ids peers a tok = Ok a' ->
  exists extra, networkPeersNeeded a' = networkPeersNeeded a ++ extra.
Proof.
  unfold subjectCriterionStep, addField, addPortSelector.
  intros H.
  repeat match type of H with
         | context [if ?b then _ else _] => destruct b
         | context [match ?x with _ => _ end] => destruct x
         end;
    try discriminate; injection H as <-; simpl;
    solve [exists []; symmetry; apply app_nil_r | eexists; reflexivity].
Qed.

Lemma subjectLoop_peers direction ids peers criteria :
  forall a a',
    subjectLoop direction ids peers criteria a = Ok a' ->
    (forall p, In p (networkPeersNeeded a) -> In p (networkPeersNeeded a'))
    /\ (forall tok net peer,
          In tok criteria -> peerSubject tok net peer ->
          In {| cluster.NetworkName := net; cluster.PeerName := peer |}
             (networkPeersNeeded a')).
Proof.
  induction criteria as [|tok0 rest IH]; intros a a' H; simpl in H.
  - injection H as <-. split; [auto|]. intros ? ? ? [].
  - destruct (subjectCriterionStep direction ids peers a tok0) as [a1|e] eqn:Hstep; [|discriminate].
    destruct (IH a1 a' H) as [Hmono Hin].
    pose proof (subjectCriterionStep_peers _ _ _ _ _ _ Hstep) as [extra Hextra].
    split.
    + intros p Hp. apply Hmono. rewrite Hextra. apply in_or_app. left. exact Hp.
    + intros tok net peer [<-|Htok] Hpeer.
      * rewrite (peerSubject_step direction ids peers a tok0 net peer Hpeer) in Hstep.
        destruct (peers !! (net, peer)); [|discriminate].
        injection Hstep as <-. apply Hmono. simpl. apply in_or_app. right. left. reflexivity.
      * eapply Hin; eauto.
Qed.

Lemma subjectParts_peers direction ids peers subject parts specific needed tok net peer :
  subjectParts direction ids peers subject = Ok (parts, specific, needed) ->
  In tok (util.SplitNTrimSpace subject "," (-1) false) ->
  peerSubject tok net peer ->
  In {| cluster.NetworkName := net; cluster.PeerName := peer |} needed.
Proof.
  unfold subjectParts, ovnRuleSubjectToOVNACLMatch.
  destruct (String.eqb_spec subject "") as [->|_].
  - intros _ Hin (-> & _). vm_compute in Hin. destruct Hin as [H|[]]. discriminate H.
  - destruct (subjectLoop _ _ _ _ _) as [a'|e] eqn:Hloop; [|discriminate].
    intros H Hin Hpeer. injection H as _ _ <-.
    apply (proj2 (subjectLoop_peers _ _ _ _ _ _ Hloop) tok net peer Hin Hpeer).
Qed.

(** The peers a rule needs are among those gathered by the end of the
    conversion. *)
Lemma convertACLRulesFrom_peers pg ids peers sets dir rules :
  forall i c c',
    convertACLRulesFrom pg ids peers sets dir i rules c = Ok c' ->
    (forall p, In p (peersNeeded c) -> In p (peersNeeded c'))
    /\ (forall rule, In rule rules -> api.State rule <> "disabled" ->
          exists j r ns ps,
            lowerRule pg ids peers sets dir j rule = Ok (r, ns, ps)
            /\ forall p, In p ps -> In p (peersNeeded c')).
Proof.
  induction rules as [|rule0 rest IH]; intros i c c' H; simpl in H.
  - injection H as <-. split; [auto|]. intros ? [].
  - destruct (convertACLRule pg ids peers sets dir i rule0 c) as [c1|e] eqn:Hone; [|discriminate].
    destruct (IH (i + 1) c1 c' H) as [Hmono Hrules].
    apply convertACLRule_inv in Hone as [[Hdis ->]|[Hen (r & ns & ps & Hl & _ & _ & Hp)]].
    + split; [exact Hmono|].
      intros rule [<-|Hin] Hs; [contradiction|]. apply Hrules; assumption.
    + split.
      * intros p Hin. apply Hmono. rewrite Hp. apply in_or_app. left. exact Hin.
      * intros rule [<-|Hin] Hs; [|apply Hrules; assumption].
        exists i, r, ns, ps. split; [exact Hl|].
        intros p Hin. apply Hmono. rewrite Hp. apply in_or_app. right. exact Hin.
Qed.

Lemma checkPeers_fails nets needed :
  (exists aclNet peer,
      In aclNet nets /\ In peer needed
      /\ cluster.NetworkName peer <> UsageName aclNet) ->
  exists peerNet peerName netName,
    checkPeers nets needed = Err (EPeerNotOnNetwork peerNet peerName netName)
    /\ peerNet <> netName
    /\ In {| cluster.NetworkName := peerNet; cluster.PeerName := peerName |} needed
    /\ In netName (map UsageName nets).
Proof.
  induction nets as [|n nets IH]; intros (aclNet & peer & Hn & Hp & Hne).
  - destruct Hn.
  - simpl.
    destruct (List.find _ needed) as [bad|] eqn:Hfind.
    + apply find_some in Hfind as [Hin Hbad].
      exists (cluster.NetworkName bad), (cluster.PeerName bad), (UsageName n).
      split; [reflexivity|]. split.
      * apply negb_true_iff, String.eqb_neq in Hbad. exact Hbad.
      * split; [destruct bad; exact Hin|left; reflexivity].
    + destruct Hn as [->|Hn].
      * exfalso. pose proof (find_none _ _ Hfind peer Hp) as Hnone. simpl in Hnone.
        apply negb_false_iff, String.eqb_eq in Hnone. contradiction.
      * destruct IH as (pn & pp & nn & Hc & Hd & Hi & Hm); [exists aclNet, peer; auto|].
        exists pn, pp, nn. repeat split; auto; right; exact Hm.
Qed.

(** C6: when a compiled rule of the ACL needs a peer connection and a
    network the ACL is bound to has another name than the network of
    that peer, [ovnApplyToPortGroup] fails with the error "ACL requiring
    peer ... cannot be applied to network ..." and the northbound
    database is as before: no client call was made, no rule set written.
    The peers needed contain, for every rule that is not disabled, the
    [(net, peer)] of each subject [@net/peer] of its source and
    destination. *)
Theorem C6_peer_check_before_any_write db acl pg ids nets peers c :
  compileACL db acl pg ids peers = Ok c ->
  (forall w,
      (exists aclNet peer,
          In aclNet nets /\ In peer (peersNeeded c)
          /\ cluster.NetworkName peer <> UsageName aclNet) ->
      exists peerNet peerName netName,
        ovnApplyToPortGroup db acl pg ids nets peers w
        = (Err (EPeerNotOnNetwork peerNet peerName netName), w)
        /\ peerNet <> netName
        /\ In {| cluster.NetworkName := peerNet; cluster.PeerName := peerName |} (peersNeeded c)
        /\ In netName (map UsageName nets))
  /\ (exists sets,
        forall rule tok net peer,
          In rule (api.Ingress acl ++ api.Egress acl) ->
          api.State rule <> "disabled" ->
          In tok (util.SplitNTrimSpace (api.Source (withAddressSets rule sets)) "," (-1) false
                  ++ util.SplitNTrimSpace (api.Destination (withAddressSets rule sets))
                       "," (-1) false) ->
          peerSubject tok net peer ->
          In {| cluster.NetworkName := net; cluster.PeerName := peer |} (peersNeeded c)).
Proof.
  intros Hc. split.
  - intros w Hbad.
    destruct (checkPeers_fails nets (peersNeeded c) Hbad) as (pn & pp & nn & Hchk & Hrest).
    exists pn, pp, nn. split; [|exact Hrest].
    unfold ovnApplyToPortGroup, bind, lift. rewrite Hc, Hchk. reflexivity.
  - apply compileACL_inv in Hc as (sets & c1 & c2 & H1 & H2 & _ & _ & Hp).
    exists sets. intros rule tok net peer Hrule Hstate Htok Hpeer.
    unfold convertACLRules in H1, H2.
    destruct (convertACLRulesFrom_peers _ _ _ _ _ _ _ _ _ H1) as [_ Hin1].
    destruct (convertACLRulesFrom_peers _ _ _ _ _ _ _ _ _ H2) as [Hmono2 Hin2].
    assert (Hlow : exists dir j r ns ps,
               lowerRule pg ids peers sets dir j rule = Ok (r, ns, ps)
               /\ forall p, In p ps -> In p (peersNeeded c2)).
    { apply in_app_or in Hrule as [Hi|He].
      - destruct (Hin1 rule Hi Hstate) as (j & r & ns & ps & Hl & Hsub).
        exists "ingress", j, r, ns, ps. split; [exact Hl|]. auto.
      - destruct (Hin2 rule He Hstate) as (j & r & ns & ps & Hl & Hsub).
        exists "egress", j, r, ns, ps. split; [exact Hl|]. auto. }
    destruct Hlow as (dir & j & r & ns & ps & Hl & Hsub).
    rewrite Hp. apply Hsub.
    apply lowerRule_inv in Hl
      as (sp & ss & spe & dp & ds & dpe & Hs & Hd & _ & _ & _ & _ & _ & ->).
    apply in_or_app. apply in_app_or in Htok as [Htok|Htok].
    + left. eapply subjectParts_peers; eauto.
    + right. eapply subjectParts_peers; eauto.
Qed.

End Peers.

Section PeersWitness.

#[local] Existing Instance gonet.lib.

(** Scenario 5: bound to [othernet], which does not own [mypeer], the
    ACL is refused and the port groups keep their rules. *)
Lemma C6_peer_check_before_any_write_witness :
  ovnApplyToPortGroup (fixtures.db []) fixtures.aclPeer "incus_acl7" (fixtures.ids [])
    [fixtures.othernet] fixtures.peers
    (fixtures.nb {[ "incus_acl7" := fixtures.group []; "incus_acl7_net12" := fixtures.group [] ]})
  = (Err (EPeerNotOnNetwork "mynet" "mypeer" "othernet"),
     fixtures.nb {[ "incus_acl7" := fixtures.group []; "incus_acl7_net12" := fixtures.group [] ]}).
Proof.
  assert (Hc : exists c,
             compileACL (fixtures.db []) fixtures.aclPeer "incus_acl7" (fixtures.ids [])
               fixtures.peers = Ok c
             /\ peersNeeded c = [{| cluster.NetworkName := "mynet"; cluster.PeerName := "mypeer" |}]).
  { eexists. split; vm_compute; reflexivity. }
  destruct Hc as (c & Hc & Hp).
  destruct (proj1 (C6_peer_check_before_any_write (fixtures.db []) fixtures.aclPeer "incus_acl7"
                     (fixtures.ids []) [fixtures.othernet] fixtures.peers c Hc)
              (fixtures.nb {[ "incus_acl7" := fixtures.group [];
                              "incus_acl7_net12" := fixtures.group [] ]}))
    as (pn & pp & nn & Heq & _ & Hi & Hm).
  { exists fixtures.othernet, {| cluster.NetworkName := "mynet"; cluster.PeerName := "mypeer" |}.
    rewrite Hp. split; [left; reflexivity|]. split; [left; reflexivity|]. discriminate. }
  rewrite Hp in Hi. destruct Hi as [Hi|[]]. injection Hi as <- <-.
  destruct Hm as [<-|[]]. exact Heq.
Defined.

(** Bound to [mynet] the same ACL is applied. *)
Example scenario_peer_applied :
  exists w',
    ovnApplyToPortGroup (fixtures.db []) fixtures.aclPeer "incus_acl7"
      (fixtures.ids [(fixtures.aclPeer, 7)]) [fixtures.mynet] fixtures.peers
      (fixtures.nb {[ "incus_acl7" := fixtures.group []; "incus_acl7_net3" := fixtures.group [] ]})
    = (Ok tt, w')
    /\ (map ovn.Match ∘ ovn.ACLs) <$> ovn.portGroups w' !! "incus_acl7"
       = Some ["(inport == @incus_acl7) && (ip6.dst == $incus_net12_routes_ip6 || ip4.dst == $incus_net12_routes_ip4)";
               "(inport == @incus_acl7 || outport == @incus_acl7)"]
    /\ ovn.ACLs <$> ovn.portGroups w' !! "incus_acl7_net3" = Some [].
Proof. eexists. repeat split; vm_compute; reflexivity. Qed.

End PeersWitness.

(** ** The client operations and the port groups *)

Lemma call_faulty {A} (op : M ovn.NB A) (w : ovn.NB) :
  ovn.faults w (ovn.calls w) = true ->
  ovn.call op w = (Err (EClient (ovn.calls w)), ovn.tick w).
Proof. intros H. unfold ovn.call. rewrite H. reflexivity. Qed.

Lemma call_sound {A} (op : M ovn.NB A) (w : ovn.NB) :
  ovn.faults w (ovn.calls w) = false -> ovn.call op w = op (ovn.tick w).
Proof. intros H. unfold ovn.call. rewrite H. reflexivity. Qed.

Lemma GetPortGroupInfo_groups (name : string) (w : ovn.NB) :
  ovn.portGroups (snd (ovn.GetPortGroupInfo name w)) = ovn.portGroups w
  /\ ovn.trace (snd (ovn.GetPortGroupInfo name w)) = ovn.trace w
  /\ ovn.faults (snd (ovn.GetPortGroupInfo name w)) = ovn.faults w.
Proof.
  unfold ovn.GetPortGroupInfo, ovn.call.
  destruct (ovn.faults w (ovn.calls w)); simpl; [auto|].
  destruct (ovn.portGroups w !! name); simpl; auto.
Qed.

Lemma GetPortGroupInfo_present (name : string) (w w' : ovn.NB) (present hasACLs : bool) :
  ovn.GetPortGroupInfo name w = (Ok (present, hasACLs), w') ->
  present = bool_decide (is_Some (ovn.portGroups w !! name)).
Proof.
  unfold ovn.GetPortGroupInfo, ovn.call.
  destruct (ovn.faults w (ovn.calls w)); [discriminate|]. simpl.
  destruct (ovn.portGroups w !! name) as [g|]; intros H; injection H as <- _ _.
  - symmetry. apply bool_decide_eq_true. eauto.
  - symmetry. apply bool_decide_eq_false. intros [? ?]. discriminate.
Qed.

Lemma deleteAll_lookup_notin (names : list string) (m : gmap string ovn.PortGroup) (k : string) :
  ~ In k names -> ovn.deleteAll names m !! k = m !! k.
Proof.
  unfold ovn.deleteAll. revert m. induction names as [|n names IH]; intros m Hk; simpl.
  - reflexivity.
  - rewrite IH by (intros H; apply Hk; right; exact H).
    apply lookup_delete_ne. intros ->. apply Hk. left. reflexivity.
Qed.

Lemma deleteAll_lookup_in (names : list string) (m : gmap string ovn.PortGroup) (k : string) :
  In k names -> ovn.deleteAll names m !! k = None.
Proof.
  unfold ovn.deleteAll. revert m. induction names as [|n names IH]; intros m Hk; simpl.
  - destruct Hk.
  - destruct (in_dec string_dec k names) as [Hin|Hnin].
    + apply IH, Hin.
    + destruct Hk as [->|Hk]; [|contradiction].
      fold (ovn.deleteAll names (delete k m)).
      rewrite deleteAll_lookup_notin by exact Hnin. apply lookup_delete_eq.
Qed.

(** ** The reaper *)

Lemma setDelete_In (set : list string) (x y : string) :
  In y (setDelete set x) -> In y set.
Proof.
  unfold setDelete. intros H. apply list_elem_of_In in H.
  apply list_elem_of_filter in H as [_ H]. apply list_elem_of_In. exact H.
Qed.

Lemma markUsed_remove ids netID matched :
  forall r y, In y (removeACLPortGroups (markUsed ids netID matched r)) ->
              In y (removeACLPortGroups r).
Proof.
  unfold markUsed. induction matched as [|m matched IH]; intros r y H; simpl in H.
  - exact H.
  - apply IH in H. simpl in H. apply setDelete_In, setDelete_In in H. exact H.
Qed.

Lemma visitUsage_remove db project ids ign nic r u r' :
  visitUsage db project ids ign nic r u = Ok r' ->
  forall y, In y (removeACLPortGroups r') -> In y (removeACLPortGroups r).
Proof.
  unfold visitUsage. intros H y Hy.
  repeat match type of H with
         | context [if ?b then _ else _] => destruct b
         | context [match ?x with _ => _ end] => destruct x
         end;
    try discriminate; injection H as <-;
    solve [exact Hy | eapply markUsed_remove; exact Hy].
Qed.

Lemma visitAll_remove db project ids ign nic visits :
  forall r r', visitAll db project ids ign nic visits r = Ok r' ->
    forall y, In y (removeACLPortGroups r') -> In y (removeACLPortGroups r).
Proof.
  induction visits as [|u visits IH]; intros r r' H y Hy; simpl in H.
  - injection H as <-. exact Hy.
  - destruct (visitUsage db project ids ign nic r u) as [r1|e] eqn:Hu; [|discriminate].
    eapply visitUsage_remove; [exact Hu|]. eapply IH; eauto.
Qed.

Lemma keepReferenced_remove ids r y :
  In y (keepReferenced ids r) -> In y (removeACLPortGroups r).
Proof.
  unfold keepReferenced. generalize (removeACLPortGroups r) as remove.
  induction (aclUsedACLS r) as [|entry rest IH]; intros remove H; simpl in H.
  - exact H.
  - apply IH in H. destruct (usedByOvn _ _); [apply setDelete_In in H|]; exact H.
Qed.

Lemma setAdd_In (set : list string) (x y : string) :
  In y (setAdd set x) -> In y set \/ y = x.
Proof.
  unfold setAdd. destruct (slices.Contains set x); [auto|].
  intros H. apply in_app_or in H as [H|[<-|[]]]; auto.
Qed.

Lemma removalCandidates_no_keeper ids keepACLs portGroups y :
  In y (removalCandidates ids keepACLs portGroups) ->
  In y portGroups
  /\ strings.HasPrefix y ovnACLPortGroupPrefix = true
  /\ hasKeeperPrefix ids keepACLs y = false.
Proof.
  unfold removalCandidates.
  assert (Hgen : forall set,
             In y (fold_left
                     (fun set portGroup =>
                        if strings.HasPrefix portGroup ovnACLPortGroupPrefix
                           && negb (hasKeeperPrefix ids keepACLs portGroup)
                        then setAdd set portGroup else set) portGroups set) ->
             In y set
             \/ (In y portGroups /\ strings.HasPrefix y ovnACLPortGroupPrefix = true
                 /\ hasKeeperPrefix ids keepACLs y = false)).
  { induction portGroups as [|pg rest IH]; intros set H; simpl in H; [auto|].
    apply IH in H as [H|(Hin & Hp & Hk)].
    - destruct (strings.HasPrefix pg ovnACLPortGroupPrefix
                && negb (hasKeeperPrefix ids keepACLs pg)) eqn:E; [|auto].
      apply setAdd_In in H as [H | ->]; [auto|].
      apply andb_true_iff in E as [E1 E2]. apply negb_true_iff in E2.
      right. split; [left; reflexivity|]. auto.
    - right. split; [right; exact Hin|]. auto. }
  intros H. apply Hgen in H as [[]|H]. exact H.
Qed.

Lemma unusedPortGroups_no_keeper db usedByFn project ids names ign nic keepACLs portGroups removed :
  unusedPortGroups db usedByFn project ids names ign nic keepACLs portGroups = Ok removed ->
  forall y, In y removed ->
    In y portGroups /\ hasKeeperPrefix ids keepACLs y = false.
Proof.
  unfold unusedPortGroups.
  destruct (usedByFn project names) as [visits enumErr].
  destruct (visitAll _ _ _ _ _ _ _) as [r|e] eqn:Hv; [|discriminate].
  destruct enumErr; [discriminate|].
  intros H y Hy. injection H as <-.
  apply keepReferenced_remove in Hy.
  apply (visitAll_remove _ _ _ _ _ _ _ _ Hv) in Hy. simpl in Hy.
  apply removalCandidates_no_keeper in Hy as (? & _ & ?). auto.
Qed.

(** C9: a port group whose name starts with the port-group name
    [incus_acl<id>] of an ACL listed in [keepACLs] is never among the
    port groups scheduled for removal, and [OVNPortGroupDeleteIfUnused]
    leaves it in the northbound database as it was, whatever the usages
    found and whether the client fails or not. *)
Theorem C9_keep_acls_are_never_deleted db usedByFn project ign nic keepACLs acls
    keepACLName portGroup :
  GetNetworkACLs db project = Ok acls ->
  In keepACLName keepACLs ->
  strings.HasPrefix portGroup (OVNACLPortGroupName (idOf (aclNameIDsOf acls) keepACLName)) = true ->
  (forall portGroups removed,
      unusedPortGroups db usedByFn project (aclNameIDsOf acls) (map fst acls)
        ign nic keepACLs portGroups = Ok removed ->
      ~ In portGroup removed)
  /\ (forall w,
        ovn.portGroups (snd (OVNPortGroupDeleteIfUnused db usedByFn project ign nic keepACLs w))
          !! portGroup
        = ovn.portGroups w !! portGroup).
Proof.
  intros Hacls Hkeep Hprefix.
  assert (Hk : hasKeeperPrefix (aclNameIDsOf acls) keepACLs portGroup = true).
  { unfold hasKeeperPrefix. apply existsb_exists. exists keepACLName. auto. }
  assert (Hnot : forall portGroups removed,
             unusedPortGroups db usedByFn project (aclNameIDsOf acls) (map fst acls)
               ign nic keepACLs portGroups = Ok removed ->
             ~ In portGroup removed).
  { intros pgs removed Hu Hin.
    apply (unusedPortGroups_no_keeper _ _ _ _ _ _ _ _ _ _ Hu) in Hin as [_ Hin]. congruence. }
  split; [exact Hnot|].
  intros w. unfold OVNPortGroupDeleteIfUnused, bind, lift, wrap, wrapR, ret.
  rewrite Hacls.
  destruct (GetProjectID db project) as [projectID|e]; [|reflexivity].
  unfold ovn.GetPortGroupsByProject, ovn.DeletePortGroup, ovn.call.
  destruct (ovn.faults w (ovn.calls w)); [reflexivity|]. simpl.
  destruct (unusedPortGroups _ _ _ _ _ _ _ _ _) as [removed|e] eqn:Hu; [|reflexivity].
  destruct (0 <? length removed)%nat; [|reflexivity].
  destruct (ovn.faults (ovn.tick w) (ovn.calls (ovn.tick w))); [reflexivity|]. simpl.
  apply deleteAll_lookup_notin. eapply Hnot. exact Hu.
Qed.

(** With no usage at all, the port groups of the kept ACL [x] stay. *)
Lemma C9_keep_acls_are_never_deleted_witness :
  ovn.portGroups
    (snd (OVNPortGroupDeleteIfUnused fixtures.dbXY fixtures.unused "default" IgnoreNothing ""
            ["x"] (fixtures.nb fixtures.groupsXY))) !! "incus_acl7_net3"
  = ovn.portGroups (fixtures.nb fixtures.groupsXY) !! "incus_acl7_net3".
Proof.
  apply (proj2 (C9_keep_acls_are_never_deleted fixtures.dbXY fixtures.unused "default"
                  IgnoreNothing "" ["x"] [("x", 7); ("y", 9)] "x" "incus_acl7_net3"
                  ltac:(reflexivity) ltac:(left; reflexivity) ltac:(vm_compute; reflexivity))).
Defined.

Example reaper_keeps_x_drops_y :
  dom (ovn.portGroups
         (snd (OVNPortGroupDeleteIfUnused fixtures.dbXY fixtures.unused "default" IgnoreNothing ""
                 ["x"] (fixtures.nb fixtures.groupsXY))))
  = {[ "incus_acl7"; "incus_acl7_net3"; "incus_acl7_net12" ]}.
Proof. vm_compute. reflexivity. Qed.

(** Scenario 6: both networks use [x], the usage by [mynet] is ignored;
    the group of [x] on [mynet] goes, the other two stay. *)
Example scenario_reaper_with_ignore :
  dom (ovn.portGroups
         (snd (OVNPortGroupDeleteIfUnused fixtures.dbXY fixtures.usedByTwoNetworks "default"
                 (IgnoreNetwork "mynet") "" [] (fixtures.nb fixtures.groupsXY))))
  = {[ "incus_acl7"; "incus_acl7_net12" ]}.
Proof. vm_compute. reflexivity. Qed.

(** ** Runs as sequences of steps *)

Section Follows.

Context {S : Type} (R : relation S).

Lemma follows_ret {A} (a : A) : follows R (ret a).
Proof. intros s. apply rtc_refl. Qed.

Lemma follows_fail {A} (e : error) : follows R (@fail S A e).
Proof. intros s. apply rtc_refl. Qed.

Lemma follows_lift {A} (r : result A) : follows R (lift r).
Proof. intros s. apply rtc_refl. Qed.

Lemma follows_bind {A B} (m : M S A) (k : A -> M S B) :
  follows R m -> (forall a, follows R (k a)) -> follows R (bind m k).
Proof.
  intros Hm Hk s. unfold bind. specialize (Hm s).
  destruct (m s) as [[a|e] s1]; simpl in *.
  - eapply rtc_trans; [exact Hm|]. apply Hk.
  - exact Hm.
Qed.

Lemma follows_wrap {A} (context : string) (m : M S A) :
  follows R m -> follows R (wrap context m).
Proof.
  intros Hm s. unfold wrap. specialize (Hm s).
  destruct (m s) as [[a|e] s1]; exact Hm.
Qed.

Lemma follows_forEach {A} (l : list A) (body : A -> M S unit) :
  (forall x, follows R (body x)) -> follows R (forEach l body).
Proof.
  intros Hb. induction l as [|x l IH]; simpl.
  - apply follows_ret.
  - apply follows_bind; [apply Hb|]. intros _. exact IH.
Qed.

Lemma follows_foldM {A B} (l : list A) (body : B -> A -> M S B) :
  (forall acc x, follows R (body acc x)) -> forall acc, follows R (foldM l acc body).
Proof.
  intros Hb. induction l as [|x l IH]; intros acc; simpl.
  - apply follows_ret.
  - apply follows_bind; [apply Hb|]. intros acc'. apply IH.
Qed.

Lemma follows_if {A} (b : bool) (m1 m2 : M S A) :
  follows R m1 -> follows R m2 -> follows R (if b then m1 else m2).
Proof. destruct b; auto. Qed.

End Follows.

Lemma follows_weaken {S A} (R R' : relation S) (m : M S A) :
  (forall s s', R s s' -> R' s s') -> follows R m -> follows R' m.
Proof.
  intros Hsub Hm s. specialize (Hm s).
  induction Hm as [|x y z Hxy _ IH]; [apply rtc_refl|].
  eapply rtc_l; [apply Hsub; exact Hxy|exact IH].
Qed.

Lemma nbStep_weaken (u u' : Prop) w w' : (u -> u') -> nbStep u w w' -> nbStep u' w w'.
Proof. intros Hu [w0|w0 name g rules Hcan Hg]; constructor; auto. Qed.

Lemma runStep_weaken (c c' : string -> Prop) (u u' : Prop) s s' :
  (forall n, c n -> c' n) -> (u -> u') -> runStep c u s s' -> runStep c' u' s s'.
Proof.
  intros Hc Hu [s0 w' Hnb|s0 name g Hcan Hnone Hacl].
  - apply runClient. eapply nbStep_weaken; eauto.
  - apply runCreate; auto.
Qed.

(** *** The client operations *)

Lemma follows_call {A} (u : Prop) (op : M ovn.NB A) :
  follows (nbStep u) op -> follows (nbStep u) (ovn.call op).
Proof.
  intros Hop w. unfold ovn.call.
  destruct (ovn.faults w (ovn.calls w)); simpl.
  - apply rtc_once. constructor.
  - eapply rtc_l; [constructor|]. apply Hop.
Qed.

Lemma follows_GetPortGroupInfo (u : Prop) (name : string) :
  follows (nbStep u) (ovn.GetPortGroupInfo name).
Proof.
  apply follows_call. intros w.
  destruct (ovn.portGroups w !! name); apply rtc_refl.
Qed.

Lemma follows_UpdatePortGroupACLRules name matchReplace rules :
  follows (nbStep True) (ovn.UpdatePortGroupACLRules name matchReplace rules).
Proof.
  apply follows_call. intros w.
  destruct (ovn.portGroups w !! name) as [g|] eqn:Hg; simpl.
  - apply rtc_once. apply nbUpdate; [exact I|exact Hg].
  - apply rtc_refl.
Qed.

Lemma follows_onClient {A} (c : string -> Prop) (u : Prop) (m : M ovn.NB A) :
  follows (nbStep u) m -> follows (runStep c u) (onClient m).
Proof.
  intros Hm s. unfold onClient. specialize (Hm (client s)).
  destruct (m (client s)) as [r w']. simpl in *.
  destruct s as [w rv]. simpl in *.
  induction Hm as [|x y z Hxy _ IH]; [apply rtc_refl|].
  eapply rtc_l; [|exact IH].
  apply (runClient c u {| client := x; reverter := rv |} y Hxy).
Qed.

Lemma follows_createPortGroup (c : string -> Prop) (u : Prop)
    context projectID name parent switch members :
  c name ->
  follows (runStep c u) (createPortGroup context projectID name parent switch members).
Proof.
  intros Hc [w rv].
  unfold createPortGroup, bind, onClient, wrap, ovn.CreatePortGroup, ovn.call, reverterAdd.
  simpl.
  destruct (ovn.faults w (ovn.calls w)); simpl.
  - apply rtc_once. apply (runClient c u {| client := w; reverter := rv |}). constructor.
  - eapply rtc_l;
      [apply (runClient c u {| client := w; reverter := rv |} (ovn.tick w)); constructor|].
    destruct (ovn.portGroups w !! name) as [g|] eqn:Hg; simpl.
    + apply rtc_refl.
    + apply rtc_once.
      apply (runCreate c u {| client := ovn.tick w; reverter := rv |} name
               {| ovn.ProjectID := projectID; ovn.ParentGroup := parent; ovn.Switch := switch;
                  ovn.Ports := members; ovn.ACLs := [] |}); auto.
Qed.

Section FollowsReconciler.

Context {netlib : NetLib}.

Lemma follows_ovnApplyToPortGroup db aclInfo portGroupName ids nets peers :
  follows (nbStep True) (ovnApplyToPortGroup db aclInfo portGroupName ids nets peers).
Proof.
  unfold ovnApplyToPortGroup.
  apply follows_bind; [apply follows_lift|]. intros c.
  apply follows_bind; [apply follows_lift|]. intros _.
  apply follows_bind; [apply follows_wrap, follows_UpdatePortGroupACLRules|]. intros _.
  apply follows_forEach. intros aclNet.
  apply follows_wrap, follows_UpdatePortGroupACLRules.
Qed.

Lemma follows_classifyACL db project ids nets reapply acc aclName :
  follows (nbStep False) (classifyACL db project ids nets reapply acc aclName).
Proof.
  unfold classifyACL. destruct acc as [existing create].
  apply follows_bind; [apply follows_wrap, follows_GetPortGroupInfo|]. intros [present hasACLs].
  apply follows_if.
  - apply follows_bind; [apply follows_lift|]. intros a. apply follows_ret.
  - apply follows_bind.
    + apply follows_foldM. intros add aclNet.
      apply follows_bind; [apply follows_wrap, follows_GetPortGroupInfo|].
      intros netInfo. apply follows_ret.
    + intros add. apply follows_bind.
      * apply follows_if; [|apply follows_ret].
        apply follows_bind; [apply follows_lift|]. intros a. apply follows_ret.
      * intros a. apply follows_ret.
Qed.

Lemma follows_createReferenced projectID ids refs :
  follows (runStep (fun n => In n (map (fun r => OVNACLPortGroupName (idOf ids r)) refs)) False)
          (createReferenced projectID ids refs).
Proof.
  unfold createReferenced.
  assert (Hgen : forall l (c : string -> Prop),
             (forall r, In r l -> c (OVNACLPortGroupName (idOf ids r))) ->
             follows (runStep c False)
               (forEach l (fun aclName =>
                  let portGroupName := OVNACLPortGroupName (idOf ids aclName) in
                  info <- onClient (wrap "Failed getting port group UUID"
                                      (ovn.GetPortGroupInfo portGroupName)) ;;
                  if negb (fst info) then
                    createPortGroup "Failed creating port group for referenced security ACL"
                      projectID portGroupName "" "" []
                  else ret tt))).
  { induction l as [|x l IH]; intros c Hc; simpl.
    - apply follows_ret.
    - apply follows_bind.
      + apply follows_bind.
        * apply follows_onClient, follows_wrap, follows_GetPortGroupInfo.
        * intros info. apply follows_if; [|apply follows_ret].
          apply follows_createPortGroup. apply Hc. left. reflexivity.
      + intros _. apply IH. intros r Hr. apply Hc. right. exact Hr. }
  apply Hgen. intros r Hr. apply in_map_iff. exists r. auto.
Qed.

Lemma follows_createNetworkPortGroups projectID aclID portGroupName nets :
  follows (runStep (fun _ => True) True)
          (createNetworkPortGroups projectID aclID portGroupName nets).
Proof.
  unfold createNetworkPortGroups. apply follows_forEach. intros aclNet.
  apply follows_createPortGroup. exact I.
Qed.

Lemma follows_apply db project portGroupName ids nets peers (st : option api.NetworkACL) :
  follows (runStep (fun _ => True) True)
    match st with
    | Some info =>
        onClient (wrap "Failed applying ACL rules to port group for security ACL"
                    (ovnApplyToPortGroup db (api.withProject info project)
                       portGroupName ids nets peers))
    | None => ret tt
    end.
Proof.
  destruct st as [i|]; [|apply follows_ret].
  apply follows_onClient, follows_wrap, follows_ovnApplyToPortGroup.
Qed.

Lemma follows_createRequested db projectID project ids nets peers create :
  follows (runStep (fun _ => True) True)
          (createRequested db projectID project ids nets peers create).
Proof.
  unfold createRequested. apply follows_forEach. intros st.
  apply follows_bind; [apply follows_createPortGroup; exact I|]. intros _.
  apply follows_bind; [apply follows_createNetworkPortGroups|]. intros _.
  apply follows_apply.
Qed.

Lemma follows_updateExisting db projectID project ids nets peers existing :
  follows (runStep (fun _ => True) True)
          (updateExisting db projectID project ids nets peers existing).
Proof.
  unfold updateExisting. apply follows_forEach. intros st.
  apply follows_bind; [apply follows_createNetworkPortGroups|]. intros _.
  apply follows_apply.
Qed.

(** Every run of the body of [OVNEnsureACLs] is made of client calls
    without effect, creations of missing port groups with their hooks,
    and replacements of the rules of port groups that exist. *)
Lemma follows_ensureACLs db project ids nets names reapply :
  follows (runStep (fun _ => True) True) (ensureACLs db project ids nets names reapply).
Proof.
  unfold ensureACLs.
  apply follows_bind; [apply follows_lift|]. intros projectID.
  apply follows_bind; [apply follows_lift|]. intros peers.
  apply follows_bind; [apply follows_lift|]. intros _.
  apply follows_bind.
  { apply follows_onClient.
    apply (follows_weaken (nbStep False)); [intros ? ?; apply nbStep_weaken; tauto|].
    apply follows_foldM. intros acc x. apply follows_classifyACL. }
  intros [existing create].
  apply follows_bind.
  { eapply follows_weaken; [|apply follows_createReferenced].
    intros ? ?. apply runStep_weaken; [auto|tauto]. }
  intros _.
  apply follows_bind; [apply follows_createRequested|]. intros _.
  apply follows_updateExisting.
Qed.

End FollowsReconciler.

(** ** Rollback *)

Lemma createdGroups_app (evs1 evs2 : list ovn.Event) :
  createdGroups (evs1 ++ evs2) = createdGroups evs1 ++ createdGroups evs2.
Proof. unfold createdGroups. apply omap_app. Qed.

Lemma sameButACLs_refl (g : ovn.PortGroup) : sameButACLs g g.
Proof. exists (ovn.ACLs g). destruct g; reflexivity. Qed.

Lemma sameButACLs_withACLs (g g' : ovn.PortGroup) (rules : list ovn.OVNACLRule) :
  sameButACLs g g' -> sameButACLs g (ovn.withACLs g' rules).
Proof. intros [r ->]. exists rules. reflexivity. Qed.

Lemma runInvariant_start (w : ovn.NB) :
  runInvariant w {| client := w; reverter := revert.New |}.
Proof.
  split; [reflexivity|]. exists []. simpl.
  split; [symmetry; apply app_nil_r|]. split; [reflexivity|].
  split; [constructor|]. split; [intros n []|].
  intros n _. destruct (ovn.portGroups w !! n) as [g|]; [|reflexivity].
  exists g. split; [reflexivity|apply sameButACLs_refl].
Qed.

Lemma runInvariant_step (w0 : ovn.NB) (c : string -> Prop) (u : Prop) (s s' : Run) :
  runStep c u s s' -> runInvariant w0 s -> runInvariant w0 s'.
Proof.
  intros Hstep (Hf & evs & Htr & Hrev & Hpres & Hnew & Hold).
  destruct Hstep as [s w' Hnb|s name g Hcan Hnone Hacl].
  - destruct Hnb as [w|w name g rules Hcan Hg]; simpl in *.
    + split; [exact Hf|]. exists evs. auto.
    + split; [exact Hf|]. exists (evs ++ [ovn.EvUpdatePortGroupACLRules name rules (ovn.portGroups w)]).
      simpl. rewrite createdGroups_app, Htr, app_assoc. simpl. rewrite app_nil_r.
      split; [reflexivity|]. split; [exact Hrev|].
      split; [apply Forall_app; split; [exact Hpres|repeat constructor; eauto]|].
      split; [exact Hnew|].
      intros n Hn. specialize (Hold n Hn).
      destruct (decide (name = n)) as [->|Hne].
      * rewrite lookup_insert_eq. rewrite Hg in Hold.
        destruct (ovn.portGroups w0 !! n) as [g0|]; [|discriminate].
        destruct Hold as (g' & Hg' & Hsame). injection Hg' as <-.
        exists (ovn.withACLs g rules). split; [reflexivity|].
        apply sameButACLs_withACLs, Hsame.
      * rewrite lookup_insert_ne by exact Hne. exact Hold.
  - simpl in *. split; [exact Hf|].
    exists (evs ++ [ovn.EvCreatePortGroup name (ovn.portGroups (client s))]).
    simpl. rewrite createdGroups_app, Htr, app_assoc. simpl.
    split; [reflexivity|]. split.
    { unfold revert.Add. rewrite Hrev, map_app. reflexivity. }
    split; [apply Forall_app; split; [exact Hpres|repeat constructor; eauto]|].
    assert (Hw0 : ovn.portGroups w0 !! name = None).
    { destruct (in_dec string_dec name (createdGroups evs)) as [Hin|Hnin]; [auto|].
      specialize (Hold name Hnin). rewrite Hnone in Hold.
      destruct (ovn.portGroups w0 !! name); [|reflexivity].
      destruct Hold as (? & ? & _). discriminate. }
    split.
    + intros n Hn. apply in_app_or in Hn as [Hn|[<-|[]]]; auto.
    + intros n Hn.
      assert (Hne : name <> n).
      { intros ->. apply Hn. apply in_or_app. right. left. reflexivity. }
      rewrite lookup_insert_ne by exact Hne.
      apply Hold. intros Hin. apply Hn. apply in_or_app. left. exact Hin.
Qed.

Lemma runInvariant_steps (w0 : ovn.NB) (c : string -> Prop) (u : Prop) (s s' : Run) :
  rtc (runStep c u) s s' -> runInvariant w0 s -> runInvariant w0 s'.
Proof.
  induction 1 as [|x y z Hxy _ IH]; [auto|].
  intros Hx. apply IH. eapply runInvariant_step; eauto.
Qed.

(** The hooks run when the client answers: the groups are deleted, the
    last one created first. *)
Lemma Fail_deleteHooks (names : list string) (w : ovn.NB) :
  (forall k, (ovn.calls w <= k)%nat -> ovn.faults w k = false) ->
  ovn.portGroups (revert.Fail (map deleteHook names) w)
  = ovn.deleteAll (rev names) (ovn.portGroups w)
  /\ ovn.trace (revert.Fail (map deleteHook names) w)
     = ovn.trace w ++ deleteEvents (rev names).
Proof.
  unfold revert.Fail. rewrite <- map_rev.
  generalize (rev names) as l. clear names. intros l. revert w.
  induction l as [|n l IH]; intros w Hok; simpl.
  - split; [reflexivity|]. symmetry. apply app_nil_r.
  - unfold deleteHook at 2 4, ovn.DeletePortGroup, ovn.call.
    rewrite (Hok (ovn.calls w)) by lia. simpl.
    match goal with
    | |- context [fold_left _ _ ?w1] => destruct (IH w1) as [Hg Ht]
    end.
    { intros k Hk. simpl in *. apply Hok. lia. }
    rewrite Hg, Ht. simpl. split; [reflexivity|].
    rewrite <- app_assoc. reflexivity.
Qed.

(** Whatever the client answers, the hooks only add deletions to the log. *)
Lemma Fail_deleteHooks_trace (names : list string) (w : ovn.NB) :
  exists evs,
    ovn.trace (revert.Fail (map deleteHook names) w) = ovn.trace w ++ evs
    /\ Forall (fun ev => exists ns, ev = ovn.EvDeletePortGroup ns) evs.
Proof.
  unfold revert.Fail. rewrite <- map_rev.
  generalize (rev names) as l. clear names. intros l. revert w.
  induction l as [|n l IH]; intros w; simpl.
  - exists []. split; [symmetry; apply app_nil_r|constructor].
  - unfold deleteHook at 2, ovn.DeletePortGroup, ovn.call.
    destruct (ovn.faults w (ovn.calls w)); simpl.
    + destruct (IH (ovn.tick w)) as (evs & Ht & Hall). exists evs. auto.
    + match goal with
      | |- context [fold_left _ _ ?w1] => destruct (IH w1) as (evs & Ht & Hall)
      end.
      exists (ovn.EvDeletePortGroup [n] :: evs). rewrite Ht. simpl.
      split; [rewrite <- app_assoc; reflexivity|].
      constructor; [eauto|exact Hall].
Qed.

Lemma rollback_restores (w0 : ovn.NB) (s : Run) :
  runInvariant w0 s ->
  (forall k, (ovn.calls (client s) <= k)%nat -> ovn.faults w0 k = false) ->
  exists evs,
    ovn.trace (client s) = ovn.trace w0 ++ evs
    /\ Forall (fun ev => is_Some (presentAt ev)) evs
    /\ ovn.trace (revert.Fail (reverter s) (client s))
       = ovn.trace (client s) ++ deleteEvents (rev (createdGroups evs))
    /\ sameGroupsButACLs (ovn.portGroups w0)
         (ovn.portGroups (revert.Fail (reverter s) (client s))).
Proof.
  intros (Hf & evs & Htr & Hrev & Hpres & Hnew & Hold) Hok.
  exists evs. split; [exact Htr|]. split; [exact Hpres|].
  rewrite Hrev.
  destruct (Fail_deleteHooks (createdGroups evs) (client s)) as [Hg Ht].
  { intros k Hk. rewrite Hf. apply Hok, Hk. }
  split; [exact Ht|].
  intros n. rewrite Hg.
  destruct (in_dec string_dec n (createdGroups evs)) as [Hin|Hnin].
  - rewrite (Hnew n Hin). apply deleteAll_lookup_in. apply in_rev in Hin. exact Hin.
  - rewrite deleteAll_lookup_notin; [apply Hold, Hnin|].
    intros Hin. apply Hnin. apply in_rev. exact Hin.
Qed.

Section Rollback.

Context {netlib : NetLib}.

(** C3 (as amended): provided the client answers the deletions of the
    rollback, when [OVNEnsureACLs] fails at any step (an error of the
    catalog, of the compiler, of the peer check, or any client call
    failing) the hooks run in the reverse order of the creations: every
    port group created during the call is deleted, no port group is
    added or lost, and each port group that was there is as before but
    for its rule set, which the call may have replaced. On success the
    state is the one the body reached, and the hook returned performs
    that same rollback. *)
Theorem C3_rollback_deletes_created_groups db project ids nets names reapply w :
  (forall k,
      (ovn.calls (client (snd (ensureACLs db project ids nets names reapply
                                 {| client := w; reverter := revert.New |}))) <= k)%nat ->
      ovn.faults w k = false) ->
  exists s evs,
    snd (ensureACLs db project ids nets names reapply
           {| client := w; reverter := revert.New |}) = s
    /\ ovn.trace (client s) = ovn.trace w ++ evs
    /\ Forall (fun ev => is_Some (presentAt ev)) evs
    /\ match OVNEnsureACLs db project ids nets names reapply w with
       | (Err e, w') =>
           ovn.trace w' = ovn.trace (client s) ++ deleteEvents (rev (createdGroups evs))
           /\ sameGroupsButACLs (ovn.portGroups w) (ovn.portGroups w')
       | (Ok cleanup, w') =>
           w' = client s
           /\ ovn.trace (cleanup w') = ovn.trace w' ++ deleteEvents (rev (createdGroups evs))
           /\ sameGroupsButACLs (ovn.portGroups w) (ovn.portGroups (cleanup w'))
       end.
Proof.
  intros Hok.
  pose proof (follows_ensureACLs db project ids nets names reapply
                {| client := w; reverter := revert.New |}) as Hsteps.
  apply (runInvariant_steps w) in Hsteps; [|apply runInvariant_start].
  unfold OVNEnsureACLs.
  destruct (ensureACLs db project ids nets names reapply
              {| client := w; reverter := revert.New |}) as [r s] eqn:Hrun.
  simpl in *.
  destruct (rollback_restores w s Hsteps Hok) as (evs & Htr & Hpres & Ht & Hsame).
  exists s, evs. split; [reflexivity|]. split; [exact Htr|]. split; [exact Hpres|].
  destruct r as [[]|e].
  - unfold revert.Success, revert.Clone. split; [reflexivity|]. auto.
  - auto.
Qed.

End Rollback.

Section RollbackWitness.

#[local] Existing Instance gonet.lib.

(** Asked for [web] and [b] on an empty database, the call creates the
    placeholder of [db] and the groups of [web] and [b], fails on the
    rules of [b] and deletes the three groups again. *)
Lemma C3_rollback_deletes_created_groups_witness :
  exists e w',
    OVNEnsureACLs fixtures.dbWebDbB "default" fixtures.idsWebDbB [] ["web"; "b"] false
      (fixtures.nb ∅) = (Err e, w')
    /\ sameGroupsButACLs ∅ (ovn.portGroups w').
Proof.
  destruct (C3_rollback_deletes_created_groups fixtures.dbWebDbB "default" fixtures.idsWebDbB
              [] ["web"; "b"] false (fixtures.nb ∅) (fun k _ => eq_refl))
    as (s & evs & _ & _ & _ & Hmatch).
  destruct (OVNEnsureACLs fixtures.dbWebDbB "default" fixtures.idsWebDbB [] ["web"; "b"] false
              (fixtures.nb ∅)) as [[h|e] w'] eqn:Hrun.
  - vm_compute in Hrun. discriminate Hrun.
  - exists e, w'. split; [reflexivity|]. exact (proj2 Hmatch).
Defined.

Example rollback_is_lifo :
  let run := OVNEnsureACLs fixtures.dbWebDbB "default" fixtures.idsWebDbB [] ["web"; "b"] false
               (fixtures.nb ∅) in
  createdGroups (ovn.trace (snd run)) = ["incus_acl2"; "incus_acl1"; "incus_acl3"]
  /\ drop 4 (ovn.trace (snd run))
     = deleteEvents ["incus_acl3"; "incus_acl1"; "incus_acl2"]
  /\ ovn.portGroups (snd run) = ∅.
Proof. vm_compute. auto. Qed.

(** The claim C3 as stated fails: with [reapplyRules] the rules of the
    port group of [a] are replaced, then the rules of [b] do not
    compile; the call fails, no hook was registered, and the port group
    of [a] keeps the new rules. *)
Lemma C3_replaced_rules_are_not_restored :
  exists e w',
    OVNEnsureACLs fixtures.dbAB "default" fixtures.idsAB [] ["a"; "b"] true
      (fixtures.nb fixtures.groupsAB) = (Err e, w')
    /\ (map ovn.Match ∘ ovn.ACLs) <$> fixtures.groupsAB !! "incus_acl1"
       = Some ["(outport == @incus_acl1)"]
    /\ (map ovn.Match ∘ ovn.ACLs) <$> ovn.portGroups w' !! "incus_acl1"
       = Some ["(outport == @incus_acl1) && (tcp) && (tcp.dst == 80)";
               "(inport == @incus_acl1 || outport == @incus_acl1)"]
    /\ ovn.portGroups w' <> fixtures.groupsAB.
Proof.
  eexists. eexists. split; [vm_compute; reflexivity|].
  split; [vm_compute; reflexivity|]. split; [vm_compute; reflexivity|].
  intros H. apply (f_equal (fun m => (length ∘ ovn.ACLs) <$> m !! "incus_acl1")) in H.
  vm_compute in H. discriminate H.
Qed.

End RollbackWitness.

(** ** Placeholders *)

Lemma present_step (c : string -> Prop) (u : Prop) (s s' : Run) (n : string) :
  runStep c u s s' ->
  is_Some (ovn.portGroups (client s) !! n) -> is_Some (ovn.portGroups (client s') !! n).
Proof.
  intros [s0 w' Hnb|s0 name g Hcan Hnone Hacl] Hn; simpl.
  - destruct Hnb as [w|w name g rules Hcan Hg]; simpl; [exact Hn|].
    destruct (decide (name = n)) as [->|Hne].
    + rewrite lookup_insert_eq. eauto.
    + rewrite lookup_insert_ne by exact Hne. exact Hn.
  - destruct (decide (name = n)) as [->|Hne].
    + rewrite lookup_insert_eq. eauto.
    + rewrite lookup_insert_ne by exact Hne. exact Hn.
Qed.

Lemma present_steps (c : string -> Prop) (u : Prop) (s s' : Run) (n : string) :
  rtc (runStep c u) s s' ->
  is_Some (ovn.portGroups (client s) !! n) -> is_Some (ovn.portGroups (client s') !! n).
Proof.
  induction 1 as [|x y z Hxy _ IH]; [auto|].
  intros Hn. apply IH. eapply present_step; eauto.
Qed.

(** Every event of steps taken with the groups [P] in place found them
    in place. *)
Lemma events_with_present (P : list string) (c : string -> Prop) (u : Prop) (s s' : Run) :
  rtc (runStep c u) s s' ->
  (forall n, In n P -> is_Some (ovn.portGroups (client s) !! n)) ->
  exists evs,
    ovn.trace (client s') = ovn.trace (client s) ++ evs
    /\ Forall (fun ev => exists present,
                   presentAt ev = Some present
                   /\ forall n, In n P -> is_Some (present !! n)) evs.
Proof.
  induction 1 as [x|x y z Hxy Hyz IH]; intros HP.
  - exists []. split; [symmetry; apply app_nil_r|constructor].
  - destruct IH as (evs & Ht & Hall).
    { intros n Hn. eapply present_step; eauto. }
    destruct Hxy as [s0 w' Hnb|s0 name g Hcan Hnone Hacl].
    + destruct Hnb as [w|w name g rules Hcan Hg]; simpl in *.
      * exists evs. auto.
      * exists (ovn.EvUpdatePortGroupACLRules name rules (ovn.portGroups w) :: evs).
        rewrite Ht, <- app_assoc. split; [reflexivity|].
        constructor; [|exact Hall]. exists (ovn.portGroups w). auto.
    + simpl in *.
      exists (ovn.EvCreatePortGroup name (ovn.portGroups (client s0)) :: evs).
      rewrite Ht, <- app_assoc. split; [reflexivity|].
      constructor; [|exact Hall]. exists (ovn.portGroups (client s0)). auto.
Qed.

(** Steps that update nothing only log creations, of the groups they may
    create. *)
Lemma events_of_creations (c : string -> Prop) (s s' : Run) :
  rtc (runStep c False) s s' ->
  exists evs,
    ovn.trace (client s') = ovn.trace (client s) ++ evs
    /\ Forall (fun ev => exists n present, ev = ovn.EvCreatePortGroup n present /\ c n) evs.
Proof.
  induction 1 as [x|x y z Hxy Hyz IH].
  - exists []. split; [symmetry; apply app_nil_r|constructor].
  - destruct IH as (evs & Ht & Hall).
    destruct Hxy as [s0 w' Hnb|s0 name g Hcan Hnone Hacl].
    + destruct Hnb as [w|w name g rules Hcan Hg]; simpl in *; [|contradiction].
      exists evs. auto.
    + simpl in *.
      exists (ovn.EvCreatePortGroup name (ovn.portGroups (client s0)) :: evs).
      rewrite Ht, <- app_assoc. split; [reflexivity|].
      constructor; [eauto|exact Hall].
Qed.

Section Placeholders.

Context {netlib : NetLib}.

(** When the loop over the referenced ACLs returns without error, the
    port group of each of them is there. *)
Lemma createReferenced_present projectID ids refs :
  forall s s',
    createReferenced projectID ids refs s = (Ok tt, s') ->
    forall r, In r refs ->
      is_Some (ovn.portGroups (client s') !! OVNACLPortGroupName (idOf ids r)).
Proof.
  induction refs as [|x rest IH]; intros s s' Hrun r Hr; [destruct Hr|].
  unfold createReferenced in Hrun. simpl in Hrun.
  fold (createReferenced projectID ids rest) in Hrun.
  unfold bind at 1 in Hrun.
  match type of Hrun with
  | context [match ?body s with _ => _ end] => destruct (body s) as [[[]|e] s1] eqn:Hbody
  end; [|discriminate].
  destruct Hr as [<-|Hr]; [|eapply IH; eauto].
  assert (Hx : is_Some (ovn.portGroups (client s1) !! OVNACLPortGroupName (idOf ids x))).
  { clear Hrun IH. destruct s as [w rv].
    unfold bind, onClient, wrap, createPortGroup, bind, onClient, wrap, reverterAdd, ret,
      ovn.GetPortGroupInfo, ovn.CreatePortGroup, ovn.call in Hbody.
    simpl in Hbody.
    destruct (ovn.faults w (ovn.calls w)); simpl in Hbody; [discriminate|].
    destruct (ovn.portGroups w !! OVNACLPortGroupName (idOf ids x)) as [g|] eqn:Hg;
      simpl in Hbody.
    - injection Hbody as <-. simpl. rewrite Hg. eauto.
    - destruct (ovn.faults w (S (ovn.calls w))); simpl in Hbody; [discriminate|].
      rewrite Hg in Hbody. simpl in Hbody. injection Hbody as <-. simpl.
      rewrite lookup_insert_eq. eauto. }
  eapply present_steps; [|exact Hx].
  pose proof (follows_createReferenced projectID ids rest s1) as Hsteps.
  rewrite Hrun in Hsteps. exact Hsteps.
Qed.

(** The log of a call in three parts: the placeholders, the requested
    groups with the rule sets, the rollback. *)
Lemma ensureACLs_log_parts
    db project ids nets names reapply w existing create s1 :
  onClient (foldM names ([], []) (classifyACL db project ids nets reapply))
    {| client := w; reverter := revert.New |} = (Ok (existing, create), s1) ->
  exists placeholders applications rollback,
    ovn.trace (snd (OVNEnsureACLs db project ids nets names reapply w))
    = ovn.trace w ++ placeholders ++ applications ++ rollback
    /\ Forall (fun ev => exists n present,
                   ev = ovn.EvCreatePortGroup n present
                   /\ In n (map (fun r => OVNACLPortGroupName (idOf ids r))
                              (referencedACLsOf reapply existing create))) placeholders
    /\ Forall (fun ev => exists present,
                   presentAt ev = Some present
                   /\ forall r, In r (referencedACLsOf reapply existing create) ->
                                is_Some (present !! OVNACLPortGroupName (idOf ids r)))
              applications
    /\ Forall (fun ev => exists ns, ev = ovn.EvDeletePortGroup ns) rollback.
Proof.
  intros Hclass.
  set (refs := referencedACLsOf reapply existing create).
  set (P := map (fun r => OVNACLPortGroupName (idOf ids r)) refs).
  (* the rollback, whatever the body did *)
  pose proof (follows_ensureACLs db project ids nets names reapply
                {| client := w; reverter := revert.New |}) as Hall.
  apply (runInvariant_steps w) in Hall; [|apply runInvariant_start].
  assert (Hroll : forall r s,
             ensureACLs db project ids nets names reapply
               {| client := w; reverter := revert.New |} = (r, s) ->
             exists evs,
               ovn.trace (snd (OVNEnsureACLs db project ids nets names reapply w))
               = ovn.trace (client s) ++ evs
               /\ Forall (fun ev => exists ns, ev = ovn.EvDeletePortGroup ns) evs).
  { intros r s Hrun. unfold OVNEnsureACLs. rewrite Hrun in Hall |- *. simpl in Hall.
    destruct Hall as (_ & evs & _ & Hrev & _).
    destruct r as [[]|e]; simpl.
    - exists []. split; [symmetry; apply app_nil_r|constructor].
    - rewrite Hrev. apply Fail_deleteHooks_trace. }
  (* the classification logs nothing *)
  assert (Htr1 : ovn.trace (client s1) = ovn.trace w).
  { pose proof (follows_onClient (fun _ => False) False _
                  (follows_foldM (nbStep False) names _
                     (fun acc x => follows_classifyACL db project ids nets reapply acc x)
                     ([], []))
                  {| client := w; reverter := revert.New |}) as H0.
    rewrite Hclass in H0. simpl in H0.
    apply events_of_creations in H0 as (evs & Ht & Hnone).
    destruct evs as [|ev evs]; [simpl in Ht; rewrite app_nil_r in Ht; exact Ht|].
    apply Forall_cons in Hnone as [(? & ? & _ & []) _]. }
  destruct (ensureACLs db project ids nets names reapply
              {| client := w; reverter := revert.New |}) as [r s] eqn:Hrun.
  destruct (Hroll r s eq_refl) as (evs3 & Hfinal & Hdel).
  rewrite Hfinal. clear Hroll Hfinal Hall.
  unfold ensureACLs, bind in Hrun. unfold lift at 1 2 3 in Hrun.
  destruct (wrapR _ (GetProjectID db project)) as [projectID|e0];
    [|injection Hrun as <- <-; exists [], [], evs3; simpl;
      repeat split; [constructor|constructor|exact Hdel]].
  destruct (loadPeerTargetNetIDs db project) as [peers|e0];
    [|injection Hrun as <- <-; exists [], [], evs3; simpl;
      repeat split; [constructor|constructor|exact Hdel]].
  destruct (checkACLNames ids names) as [[]|e0];
    [|injection Hrun as <- <-; exists [], [], evs3; simpl;
      repeat split; [constructor|constructor|exact Hdel]].
  rewrite Hclass in Hrun. fold refs in Hrun.
  destruct (createReferenced projectID ids refs s1) as [[[]|e2] s2] eqn:Hph1.
  - (* the placeholders are in place *)
    pose proof (follows_createReferenced projectID ids refs s1) as H1.
    rewrite Hph1 in H1. simpl in H1.
    apply events_of_creations in H1 as (evs1 & Ht1 & Hc1).
    pose proof (createReferenced_present projectID ids refs s1 s2 Hph1) as Hpresent.
    assert (Hsteps : rtc (runStep (fun _ => True) True) s2 s).
    { destruct (createRequested db projectID project ids nets peers create s2)
        as [[[]|e3] s3] eqn:Hph2.
      - pose proof (follows_createRequested db projectID project ids nets peers create s2) as H2.
        rewrite Hph2 in H2. simpl in H2.
        pose proof (follows_updateExisting db projectID project ids nets peers existing s3) as H3.
        rewrite Hrun in H3. simpl in H3. eapply rtc_trans; eauto.
      - pose proof (follows_createRequested db projectID project ids nets peers create s2) as H2.
        rewrite Hph2 in H2. simpl in H2. injection Hrun as <- <-. exact H2. }
    apply (events_with_present P) in Hsteps as (evs2 & Ht2 & Hc2).
    + exists evs1, evs2, evs3.
      rewrite Ht2, Ht1, Htr1, <- !app_assoc. split; [reflexivity|].
      split; [exact Hc1|]. split; [|exact Hdel].
      eapply Forall_impl; [exact Hc2|].
      intros ev (present & Hev & Hin). exists present. split; [exact Hev|].
      intros r0 Hr0. apply Hin. apply in_map_iff. exists r0. auto.
    + intros n Hn. apply in_map_iff in Hn as (r0 & <- & Hr0). apply Hpresent, Hr0.
  - (* the loop over the referenced ACLs failed *)
    pose proof (follows_createReferenced projectID ids refs s1) as H1.
    rewrite Hph1 in H1. simpl in H1.
    apply events_of_creations in H1 as (evs1 & Ht1 & Hc1).
    injection Hrun as <- <-.
    exists evs1, [], evs3. rewrite Ht1, Htr1, <- !app_assoc. simpl.
    split; [reflexivity|]. split; [exact Hc1|]. split; [constructor|exact Hdel].
Qed.

(** What the code does for the references it collects: once the
    requested ACLs are sorted into those to create and those that exist,
    the log of the call is made of three parts. First come the creations
    of placeholder port groups, only for referenced ACLs: those
    [ovnAddReferencedACLs] collects from the ACLs to create (and from
    the existing ones with [reapplyRules]), less the ACLs to create.
    Then come the creations of the requested port groups and the
    applications of rule sets, each issued with the port group of every
    one of these referenced ACLs in place. Last come the deletions of a
    rollback, if the call failed. *)
Lemma collected_references_are_in_place
    db project ids nets names reapply w existing create s1 :
  onClient (foldM names ([], []) (classifyACL db project ids nets reapply))
    {| client := w; reverter := revert.New |} = (Ok (existing, create), s1) ->
  exists evs,
    ovn.trace (snd (OVNEnsureACLs db project ids nets names reapply w)) = ovn.trace w ++ evs
    /\ (exists placeholders applications rollback,
          evs = placeholders ++ applications ++ rollback
          /\ Forall (fun ev => exists n present,
                         ev = ovn.EvCreatePortGroup n present
                         /\ In n (map (fun r => OVNACLPortGroupName (idOf ids r))
                                    (referencedACLsOf reapply existing create))) placeholders
          /\ Forall (fun ev => exists present,
                         presentAt ev = Some present
                         /\ forall r, In r (referencedACLsOf reapply existing create) ->
                                      is_Some (present !! OVNACLPortGroupName (idOf ids r)))
                    applications
          /\ Forall (fun ev => exists ns, ev = ovn.EvDeletePortGroup ns) rollback)
    (* in particular, for each rule set applied *)
    /\ Forall (fun ev =>
                 match ev with
                 | ovn.EvUpdatePortGroupACLRules _ _ present =>
                     forall r, In r (referencedACLsOf reapply existing create) ->
                               is_Some (present !! OVNACLPortGroupName (idOf ids r))
                 | _ => True
                 end) evs.
Proof.
  intros Hclass.
  destruct (ensureACLs_log_parts db project ids nets names reapply w existing create s1 Hclass)
    as (evs1 & evs2 & evs3 & Ht & H1 & H2 & H3).
  exists (evs1 ++ evs2 ++ evs3). split; [exact Ht|]. split.
  - exists evs1, evs2, evs3. auto.
  - apply Forall_app. split; [|apply Forall_app; split].
    + eapply Forall_impl; [exact H1|]. intros ev (n & p & -> & _). exact I.
    + eapply Forall_impl; [exact H2|]. intros ev (p & Hev & Hin).
      destruct ev; try exact I. simpl in Hev. injection Hev as ->. exact Hin.
    + eapply Forall_impl; [exact H3|]. intros ev (ns & ->). exact I.
Qed.

End Placeholders.

Section PlaceholdersWitness.

#[local] Existing Instance gonet.lib.

(** Scenario 3: asked for [web] alone, bound to [mynet], on an empty
    database, every rule set is applied with the port group of [db]
    (ID 2) in place. *)
Lemma collected_references_are_in_place_at_scenario_3 :
  Forall (fun ev =>
            match ev with
            | ovn.EvUpdatePortGroupACLRules _ _ present => is_Some (present !! "incus_acl2")
            | _ => True
            end)
         (ovn.trace (snd (OVNEnsureACLs fixtures.dbWebDb "default" fixtures.idsWebDb
                            [fixtures.mynet] ["web"] false (fixtures.nb ∅)))).
Proof.
  assert (Hclass : exists existing create s1,
             onClient (foldM ["web"] ([], [])
                         (classifyACL fixtures.dbWebDb "default" fixtures.idsWebDb
                            [fixtures.mynet] false))
               {| client := fixtures.nb ∅; reverter := revert.New |}
             = (Ok (existing, create), s1)
             /\ referencedACLsOf false existing create = ["db"]).
  { do 3 eexists. split; vm_compute; reflexivity. }
  destruct Hclass as (existing & create & s1 & Hclass & Hrefs).
  destruct (collected_references_are_in_place fixtures.dbWebDb "default"
              fixtures.idsWebDb [fixtures.mynet] ["web"] false (fixtures.nb ∅)
              existing create s1 Hclass) as (evs & Ht & _ & Hall).
  rewrite Ht. simpl. rewrite Hrefs in Hall.
  eapply Forall_impl; [exact Hall|].
  intros ev Hev. destruct ev; try exact I. apply (Hev "db"). left. reflexivity.
Defined.

Example scenario_reference_creates_placeholder_first :
  map (fun ev => match ev with
                 | ovn.EvCreatePortGroup n _ => "create " +:+ n
                 | ovn.EvUpdatePortGroupACLRules n _ _ => "rules " +:+ n
                 | ovn.EvDeletePortGroup _ => "delete"
                 end)
      (ovn.trace (snd (OVNEnsureACLs fixtures.dbWebDb "default" fixtures.idsWebDb
                         [fixtures.mynet] ["web"] false (fixtures.nb ∅))))
  = ["create incus_acl2"; "create incus_acl1"; "create incus_acl1_net3";
     "rules incus_acl1"; "rules incus_acl1_net3"].
Proof. vm_compute. reflexivity. Qed.

(** C4: the code at a northbound database where the port group of the
    ACL [db] is there without rules, as a placeholder is, asked for
    [db] with [reapplyRules] unset. The rules of [db] are loaded and
    applied, as the comment of [OVNEnsureACLs] says of a requested ACL
    that has no rules, but the ACLs they refer to are collected only
    for the ACLs to create and, under [if reapplyRules], for the
    existing ones: the rule that names the port group of [cache] is
    applied while that port group does not exist, and the call returns
    without having created it. The comment of the function promises
    that any ACL referenced in the rules of the requested ACLs is
    created as an empty port group if needed. *)
Theorem C4_rules_applied_without_referenced_group :
  exists cleanup w' rules present,
    OVNEnsureACLs fixtures.dbDbCache "default" fixtures.idsDbCache [] ["db"] false
      (fixtures.nb {[ "incus_acl2" := fixtures.group [] ]}) = (Ok cleanup, w')
    /\ ovn.trace w' = [ovn.EvUpdatePortGroupACLRules "incus_acl2" rules present]
    /\ map ovn.Match rules
       = ["(inport == @incus_acl2) && (outport == @incus_acl4) && (tcp) && (tcp.dst == 6379)";
          "(inport == @incus_acl2 || outport == @incus_acl2)"]
    /\ present !! "incus_acl4" = None
    /\ ovn.portGroups w' !! "incus_acl4" = None.
Proof.
  do 4 eexists. split; [vm_compute; reflexivity|].
  split; [vm_compute; reflexivity|].
  split; [vm_compute; reflexivity|].
  split; vm_compute; reflexivity.
Qed.

(** Asked for [web] and [db], both without port group: each ACL has its
    groups created and its rules applied in turn, so the rules of [web],
    which name the port group of [db], are applied before that port
    group is created. *)
Example requested_acls_in_turn :
  map (fun ev => match ev with
                 | ovn.EvCreatePortGroup n _ => "create " +:+ n
                 | ovn.EvUpdatePortGroupACLRules n _ _ => "rules " +:+ n
                 | ovn.EvDeletePortGroup _ => "delete"
                 end)
      (ovn.trace (snd (OVNEnsureACLs fixtures.dbWebDb "default" fixtures.idsWebDb
                         [] ["web"; "db"] false (fixtures.nb ∅))))
  = ["create incus_acl1"; "rules incus_acl1"; "create incus_acl2"; "rules incus_acl2"].
Proof. vm_compute. reflexivity. Qed.

End PlaceholdersWitness.

(** * Further properties of the code *)

(** ** The names of the port groups *)

Lemma string_of_uint_no_underscore (u : Decimal.uint) :
  strings.ContainsByte (DecimalString.NilEmpty.string_of_uint u) "_" = false.
Proof. induction u; simpl; auto. Qed.

Lemma fmt_d_no_underscore (z : Z) : strings.ContainsByte (fmt.d z) "_" = false.
Proof.
  unfold fmt.d, NilZero.string_of_int, NilZero.string_of_uint.
  destruct (Z.to_int z) as [u|u]; destruct u; simpl;
    try reflexivity; apply string_of_uint_no_underscore.
Qed.

Lemma fmt_d_inj (a b : Z) : fmt.d a = fmt.d b -> a = b.
Proof.
  unfold fmt.d. intros H. apply DecimalZ.to_int_inj.
  assert (Hnn : forall z, Z.to_int z <> Decimal.Pos Decimal.Nil
                          /\ Z.to_int z <> Decimal.Neg Decimal.Nil).
  { intros z. destruct z as [|p|p]; simpl; split; try discriminate;
      intros E; injection E as E; exact (DecimalPos.Unsigned.to_uint_nonnil p E). }
  pose proof (NilZero.isi (Z.to_int a) (proj1 (Hnn a)) (proj2 (Hnn a))) as Ha.
  pose proof (NilZero.isi (Z.to_int b) (proj1 (Hnn b)) (proj2 (Hnn b))) as Hb.
  rewrite H in Ha. rewrite Ha in Hb. injection Hb as Hb. exact Hb.
Qed.

(** Two strings without the byte [c] followed by [c] and anything are
    equal only part by part. *)
Lemma app_sep_inj (c : ascii) (a a' r r' : string) :
  strings.ContainsByte a c = false ->
  strings.ContainsByte a' c = false ->
  a +:+ String c r = a' +:+ String c r' -> a = a' /\ r = r'.
Proof.
  revert a'. induction a as [|x a IH]; intros a' Ha Ha' H.
  - destruct a' as [|x' a']; simpl in *.
    + injection H as ->. auto.
    + injection H as <- _. rewrite Ascii.eqb_refl in Ha'. discriminate.
  - destruct a' as [|x' a']; simpl in *.
    + injection H as -> _. rewrite Ascii.eqb_refl in Ha. discriminate.
    + injection H as -> H.
      apply orb_false_iff in Ha as [_ Ha]. apply orb_false_iff in Ha' as [_ Ha'].
      destruct (IH a' Ha Ha' H) as [-> ->]. auto.
Qed.

Lemma app_inv_head_string (p a b : string) : p +:+ a = p +:+ b -> a = b.
Proof. induction p as [|c p IH]; simpl; intros H; [exact H|]. injection H as H. auto. Qed.

Lemma network_name_is_no_acl_name (aclID netID aclID' : Z) :
  OVNACLNetworkPortGroupName aclID netID <> OVNACLPortGroupName aclID'.
Proof.
  unfold OVNACLPortGroupName, OVNACLNetworkPortGroupName.
  intros H. apply app_inv_head_string in H.
  apply (f_equal (fun s => strings.ContainsByte s "_")) in H.
  rewrite ContainsByte_app, !fmt_d_no_underscore in H. simpl in H. discriminate.
Qed.

(** X1: the names of the port groups identify what they stand for: two
    ACLs share the port group [incus_acl<id>] only if they have the same
    ID, two pairs of an ACL and a network share the port group
    [incus_acl<id>_net<id>] only if both IDs agree, and no port group of
    an ACL on a network bears the name of the port group of an ACL. *)
Theorem port_group_names_are_injective (aclID aclID' netID netID' : Z) :
  (OVNACLPortGroupName aclID = OVNACLPortGroupName aclID' <-> aclID = aclID')
  /\ (OVNACLNetworkPortGroupName aclID netID = OVNACLNetworkPortGroupName aclID' netID'
      <-> aclID = aclID' /\ netID = netID')
  /\ OVNACLNetworkPortGroupName aclID netID <> OVNACLPortGroupName aclID'.
Proof.
  split; [|split]; [| |apply network_name_is_no_acl_name];
    unfold OVNACLPortGroupName, OVNACLNetworkPortGroupName.
  - split; [|intros ->; reflexivity].
    intros H. apply app_inv_head_string in H. apply fmt_d_inj. exact H.
  - split; [|intros [-> ->]; reflexivity].
    intros H. apply app_inv_head_string in H.
    change ("_net" +:+ fmt.d netID) with (String "_" ("net" +:+ fmt.d netID)) in H.
    change ("_net" +:+ fmt.d netID') with (String "_" ("net" +:+ fmt.d netID')) in H.
    apply app_sep_inj in H as [Ha Hn]; try apply fmt_d_no_underscore.
    apply app_inv_head_string in Hn. split; apply fmt_d_inj; assumption.
Qed.

(** ** The port groups scheduled for a NIC *)

(** X2: [OVNPortGroupInstanceNICSchedule] appends the port to the entry
    of each port group listed, once for each time the port group is
    listed, after the ports the entry held (an entry is made for a port
    group that had none), and leaves every other entry of the change set
    as it was. *)
Theorem OVNPortGroupInstanceNICSchedule_lookup (portUUID : string) (portGroups : list string) :
  forall (changeSet : gmap string (list string)) (name : string),
    OVNPortGroupInstanceNICSchedule portUUID changeSet portGroups !! name =
    match count_occ string_dec portGroups name with
    | O => changeSet !! name
    | S n => Some (default [] (changeSet !! name) ++ repeat portUUID (S n))
    end.
Proof.
  unfold OVNPortGroupInstanceNICSchedule.
  induction portGroups as [|pg rest IH]; intros changeSet name; [reflexivity|].
  cbn [fold_left]. rewrite IH. cbn [count_occ].
  set (cs' := match changeSet !! pg with
              | Some _ => changeSet
              | None => <[pg := []]> changeSet
              end).
  assert (Hcs : default [] (cs' !! pg) = default [] (changeSet !! pg)).
  { unfold cs'. destruct (changeSet !! pg) eqn:E; [rewrite E; reflexivity|].
    rewrite lookup_insert_eq. reflexivity. }
  assert (Hother : forall n, n <> pg -> cs' !! n = changeSet !! n).
  { intros n Hn. unfold cs'. destruct (changeSet !! pg); [reflexivity|].
    apply lookup_insert_ne. congruence. }
  destruct (string_dec pg name) as [->|Hne].
  - rewrite lookup_insert_eq, Hcs. cbn [default].
    destruct (count_occ string_dec rest name) as [|n]; [reflexivity|].
    f_equal. unfold id. rewrite <- app_assoc. reflexivity.
  - rewrite lookup_insert_ne by exact Hne. rewrite Hother by congruence. reflexivity.
Qed.

(** ** The default rules of a NIC and the baseline rules of a switch *)

Lemma Contains_In (l : list string) (x : string) :
  slices.Contains l x = true <-> In x l.
Proof.
  unfold slices.Contains. rewrite existsb_exists. split.
  - intros (y & Hy & E). apply String.eqb_eq in E. subst. exact Hy.
  - intros H. exists x. split; [exact H|apply String.eqb_refl].
Qed.

(** X3: [OVNApplyInstanceNICDefaultRules] calls the client only with two
    actions among the valid ones: when the ingress or the egress action
    is not one of them it returns an error that names the action, the
    ingress one first, whatever the client would do, and the northbound
    database is not touched. *)
Theorem OVNApplyInstanceNICDefaultRules_validates
    (update : string -> string -> list ovn.OVNACLRule -> M ovn.NB unit)
    (switchPortGroup logPrefix nicPortName ingressAction egressAction : string)
    (ingressLogged egressLogged : bool) (w : ovn.NB) :
  ~ (In ingressAction ValidActions /\ In egressAction ValidActions) ->
  OVNApplyInstanceNICDefaultRules update switchPortGroup logPrefix nicPortName
    ingressAction ingressLogged egressAction egressLogged w
  = (Some (if slices.Contains ValidActions ingressAction
           then EInvalidEgressAction egressAction
           else EInvalidIngressAction ingressAction), w).
Proof.
  intros H. unfold OVNApplyInstanceNICDefaultRules.
  destruct (slices.Contains ValidActions ingressAction) eqn:Ei; [|reflexivity].
  destruct (slices.Contains ValidActions egressAction) eqn:Ee; [|reflexivity].
  exfalso. apply H. split; apply Contains_In; assumption.
Qed.

Lemma OVNApplyInstanceNICDefaultRules_validates_witness :
  OVNApplyInstanceNICDefaultRules
    (fun pg port rules => ovn.UpdatePortGroupACLRules pg [] rules)
    "incus_net3" "incus-web-eth0" "instance-eth0" "allow" false "permit" true
    (fixtures.nb ∅)
  = (Some (EInvalidEgressAction "permit"), fixtures.nb ∅).
Proof.
  apply (OVNApplyInstanceNICDefaultRules_validates
           (fun pg port rules => ovn.UpdatePortGroupACLRules pg [] rules)
           "incus_net3" "incus-web-eth0" "instance-eth0" "allow" "permit" false true
           (fixtures.nb ∅)).
  intros [_ H]. simpl in H. intuition discriminate.
Defined.

Lemma baselineRules_shape (TCPRST TCPACK : Z) (routerPortName : string)
    (intRouterIPs dnsIPs : list IP) :
  length (baselineRules TCPRST TCPACK routerPortName intRouterIPs dnsIPs)
  = (9 + 2 * length intRouterIPs + length dnsIPs)%nat
  /\ Forall (fun r => r = switchAllow (ovn.Match r))
       (baselineRules TCPRST TCPACK routerPortName intRouterIPs dnsIPs).
Proof.
  unfold baselineRules.
  match goal with
  | |- context [fold_left ?f intRouterIPs ?init] =>
      set (f1 := f); set (rules0 := init)
  end.
  match goal with
  | |- context [fold_left ?f dnsIPs _] => set (f2 := f)
  end.
  assert (H0 : length rules0 = 9%nat
               /\ Forall (fun r => r = switchAllow (ovn.Match r)) rules0).
  { split; [reflexivity|]. repeat constructor. }
  assert (H1 : forall ips rules n,
             length rules = n /\ Forall (fun r => r = switchAllow (ovn.Match r)) rules ->
             length (fold_left f1 ips rules) = (n + 2 * length ips)%nat
             /\ Forall (fun r => r = switchAllow (ovn.Match r)) (fold_left f1 ips rules)).
  { induction ips as [|ip ips IH]; intros rules n [Hl Hf]; cbn [fold_left length].
    - split; [lia|exact Hf].
    - destruct (IH (f1 rules ip) (n + 2)%nat) as [Hl' Hf'].
      + unfold f1. split.
        * rewrite length_app, Hl. reflexivity.
        * apply Forall_app. split; [exact Hf|]. repeat constructor.
      + split; [lia|exact Hf']. }
  assert (H2 : forall ips rules n,
             length rules = n /\ Forall (fun r => r = switchAllow (ovn.Match r)) rules ->
             length (fold_left f2 ips rules) = (n + length ips)%nat
             /\ Forall (fun r => r = switchAllow (ovn.Match r)) (fold_left f2 ips rules)).
  { induction ips as [|ip ips IH]; intros rules n [Hl Hf]; cbn [fold_left length].
    - split; [lia|exact Hf].
    - destruct (IH (f2 rules ip) (n + 1)%nat) as [Hl' Hf'].
      + unfold f2. split.
        * rewrite length_app, Hl. reflexivity.
        * apply Forall_app. split; [exact Hf|]. repeat constructor.
      + split; [lia|exact Hf']. }
  apply H2. apply H1. exact H0.
Qed.

(** X4: the baseline rules of a logical switch are nine fixed rules, two
    rules for each internal router address and one for each DNS address;
    each of them is a [to-lport] rule of action [allow] and priority 200
    that is not logged. *)
Theorem baseline_rules_are_allow_rules_at_200 (TCPRST TCPACK : Z) (routerPortName : string)
    (intRouterIPs dnsIPs : list IP) :
  length (baselineRules TCPRST TCPACK routerPortName intRouterIPs dnsIPs)
  = (9 + 2 * length intRouterIPs + length dnsIPs)%nat
  /\ Forall (fun r => ovn.Direction r = "to-lport" /\ ovn.Action r = "allow"
                      /\ ovn.Priority r = 200 /\ ovn.Log r = false)
       (baselineRules TCPRST TCPACK routerPortName intRouterIPs dnsIPs).
Proof.
  destruct (baselineRules_shape TCPRST TCPACK routerPortName intRouterIPs dnsIPs) as [Hl Hf].
  split; [exact Hl|].
  eapply Forall_impl; [exact Hf|]. intros r ->. repeat split.
Qed.

(** ** The bands of priorities *)

Section Bands.

Context {netlib : NetLib}.

(** X5: the priorities of the four kinds of rules are stacked: the
    default rule of a port group is below the two default rules of a
    NIC, these are below every baseline rule of a switch, and every
    baseline rule is below every rule lowered from a rule of an ACL
    with one of the four valid actions; the egress default of a NIC is
    more than ten above its ingress default. *)
Theorem priorities_are_stacked pg ids peers sets dir i rule r ns ps
    logPrefix nicPortName ingressAction ingressLogged egressAction egressLogged
    TCPRST TCPACK routerPortName intRouterIPs dnsIPs nicRule egress ingress baseline :
  In (api.Action rule) ValidActions ->
  lowerRule pg ids peers sets dir i rule = Ok (r, ns, ps) ->
  nicDefaultRules logPrefix nicPortName ingressAction ingressLogged egressAction egressLogged
    = [egress; ingress] ->
  In nicRule [egress; ingress] ->
  In baseline (baselineRules TCPRST TCPACK routerPortName intRouterIPs dnsIPs) ->
  ovn.Priority (defaultRule pg) < ovn.Priority nicRule
  /\ ovn.Priority nicRule < ovn.Priority baseline
  /\ ovn.Priority baseline < ovn.Priority r
  /\ ovn.Priority ingress + 10 < ovn.Priority egress.
Proof.
  intros Hvalid Hlower Hnic Hin Hbase.
  apply lowerRule_inv in Hlower as (? & ? & ? & ? & ? & ? & _ & _ & _ & _ & Hprio & _).
  destruct (baselineRules_shape TCPRST TCPACK routerPortName intRouterIPs dnsIPs) as [_ Hf].
  rewrite Forall_forall in Hf. apply list_elem_of_In in Hbase.
  rewrite (Hf baseline Hbase). rewrite Hprio.
  unfold nicDefaultRules in Hnic. injection Hnic as <- <-.
  assert (Hr : 200 < snd (actionAndPriority (api.Action rule))).
  { destruct (actionAndPriority_cases (api.Action rule))
      as [[_ ->]|[[_ ->]|[[_ ->]|[[_ ->]|[Hn _]]]]]; simpl; try lia.
    contradiction. }
  destruct Hin as [<-|[<-|[]]]; simpl; repeat split; try lia; exact Hr.
Qed.

End Bands.

Section BandsWitness.

#[local] Existing Instance gonet.lib.

Lemma priorities_are_stacked_witness :
  exists r egress ingress baseline,
    lowerRule "incus_acl7" ∅ ∅ ∅ "ingress" 0
      (fixtures.rule "reject" "" "" "tcp" "" "80" "enabled") = Ok (r, false, [])
    /\ nicDefaultRules "incus-web-eth0" "instance-eth0" "reject" false "allow" false
       = [egress; ingress]
    /\ In baseline (baselineRules 4 16 "incus-net3-ls-int-lsp-router" [] [])
    /\ ovn.Priority (defaultRule "incus_acl7") < ovn.Priority ingress
    /\ ovn.Priority egress < ovn.Priority baseline
    /\ ovn.Priority baseline < ovn.Priority r.
Proof.
  do 4 eexists.
  split; [vm_compute; reflexivity|]. split; [reflexivity|]. split; [left; reflexivity|].
  pose proof (fun nicRule Hin =>
    priorities_are_stacked "incus_acl7" ∅ ∅ ∅ "ingress" 0
      (fixtures.rule "reject" "" "" "tcp" "" "80" "enabled") _ false []
      "incus-web-eth0" "instance-eth0" "reject" false "allow" false
      4 16 "incus-net3-ls-int-lsp-router" [] [] nicRule _ _ _
      ltac:(simpl; auto) ltac:(vm_compute; reflexivity) eq_refl Hin
      ltac:(left; reflexivity)) as H.
  split; [exact (proj1 (H _ ltac:(right; left; reflexivity)))|].
  split; [exact (proj1 (proj2 (H _ ltac:(left; reflexivity))))|].
  exact (proj1 (proj2 (proj2 (H _ ltac:(left; reflexivity))))).
Defined.

End BandsWitness.

(** ** The rules of a compiled ACL, counted and named *)

Section Emitted.

Context {netlib : NetLib}.

(** The rules that are lowered: those whose state is not [disabled]. *)
Lemma convertACLRulesFrom_length pg ids peers sets dir rules :
  forall i c c',
    convertACLRulesFrom pg ids peers sets dir i rules c = Ok c' ->
    (length (portGroupRules c') + length (networkRules c'))%nat
    = (length (portGroupRules c) + length (networkRules c)
       + length (filter (fun rule => negb (String.eqb (api.State rule) "disabled")) rules))%nat.
Proof.
  induction rules as [|rule rest IH]; intros i c c' H; simpl in H.
  - injection H as <-. simpl. lia.
  - destruct (convertACLRule pg ids peers sets dir i rule c) as [c1|e] eqn:Hone; [|discriminate].
    apply IH in H. rewrite H. clear H.
    apply convertACLRule_inv in Hone
      as [[Hd ->]|[Hs (r & ns & ps & _ & Hpg & Hnet & _)]].
    + rewrite filter_cons. rewrite Hd. simpl. lia.
    + rewrite filter_cons.
      destruct (String.eqb_spec (api.State rule) "disabled") as [E|_]; [contradiction|].
      simpl. rewrite Hpg, Hnet. destruct ns; rewrite length_app; simpl; lia.
Qed.

(** X6: every rule of an ACL that is not disabled is emitted once, to
    the rules of the port group or to the rules that are specific to a
    network, and nothing else is but the default rule: a compiled ACL
    has one rule more than the ACL has rules that are not disabled. *)
Theorem compiled_rules_are_the_enabled_rules db acl pg ids peers c :
  compileACL db acl pg ids peers = Ok c ->
  (length (portGroupRules c) + length (networkRules c))%nat
  = S (length (filter (fun rule => negb (String.eqb (api.State rule) "disabled"))
                 (api.Ingress acl ++ api.Egress acl))).
Proof.
  intros H.
  apply compileACL_inv in H as (sets & c1 & c2 & H1 & H2 & Hpg & Hnet & _).
  apply convertACLRulesFrom_length in H1, H2. simpl in H1.
  rewrite Hpg, Hnet, length_app, filter_app, length_app. simpl. lia.
Qed.

Lemma convertACLRulesFrom_disabled pg ids peers sets dir rules :
  Forall (fun rule => api.State rule = "disabled") rules ->
  forall i c, convertACLRulesFrom pg ids peers sets dir i rules c = Ok c.
Proof.
  induction 1 as [|rule rest Hd _ IH]; intros i c; simpl; [reflexivity|].
  unfold convertACLRule. rewrite Hd. simpl. apply IH.
Qed.

(** X7: a disabled rule is not lowered, whatever it holds, but the
    address sets it names are looked up: an ACL whose rules are all
    disabled compiles to the default rule alone when every address set
    named by its rules is found, and fails with the error of the lookup
    otherwise. *)
Theorem disabled_rules_are_skipped_after_the_address_sets db acl pg ids peers :
  Forall (fun rule => api.State rule = "disabled") (api.Ingress acl ++ api.Egress acl) ->
  compileACL db acl pg ids peers =
  match loadAddressSetIDs db (api.Project acl)
          (extractAddressSets (api.Egress acl) (extractAddressSets (api.Ingress acl) [])) ∅ with
  | Ok _ => Ok {| portGroupRules := [defaultRule pg]; networkRules := []; peersNeeded := [] |}
  | Err e => Err e
  end.
Proof.
  intros H. apply Forall_app in H as [Hi He].
  unfold compileACL, convertACLRules.
  destruct (loadAddressSetIDs _ _ _ _) as [sets|e]; [|reflexivity].
  rewrite (convertACLRulesFrom_disabled _ _ _ _ _ _ Hi).
  rewrite (convertACLRulesFrom_disabled _ _ _ _ _ _ He). reflexivity.
Qed.

Lemma convertACLRule_keeps pg ids peers sets dir i rule c c' r :
  convertACLRule pg ids peers sets dir i rule c = Ok c' ->
  In r (portGroupRules c ++ networkRules c) ->
  In r (portGroupRules c' ++ networkRules c').
Proof.
  intros H Hin.
  apply convertACLRule_inv in H as [[_ ->]|[_ (r' & ns & ps & _ & Hpg & Hnet & _)]];
    [exact Hin|].
  rewrite Hpg, Hnet. apply in_app_or in Hin. apply in_or_app.
  destruct ns; destruct Hin as [Hin|Hin]; auto using in_or_app.
Qed.

Lemma convertACLRulesFrom_keeps pg ids peers sets dir rules r :
  forall i c c',
    convertACLRulesFrom pg ids peers sets dir i rules c = Ok c' ->
    In r (portGroupRules c ++ networkRules c) ->
    In r (portGroupRules c' ++ networkRules c').
Proof.
  induction rules as [|rule rest IH]; intros i c c' H Hin; simpl in H.
  - injection H as <-. exact Hin.
  - destruct (convertACLRule pg ids peers sets dir i rule c) as [c1|e] eqn:Hone; [|discriminate].
    eapply IH; [exact H|]. eapply convertACLRule_keeps; eauto.
Qed.

Lemma convertACLRulesFrom_logged pg ids peers sets dir rules :
  forall i c c' (k : nat) rule,
    convertACLRulesFrom pg ids peers sets dir i rules c = Ok c' ->
    nth_error rules k = Some rule ->
    api.State rule = "logged" ->
    exists r,
      In r (portGroupRules c' ++ networkRules c')
      /\ ovn.Log r = true
      /\ ovn.LogName r = pg +:+ "-" +:+ dir +:+ "-" +:+ fmt.d (i + Z.of_nat k).
Proof.
  induction rules as [|rule0 rest IH]; intros i c c' k rule H Hk Hlog; simpl in H.
  - destruct k; discriminate.
  - destruct (convertACLRule pg ids peers sets dir i rule0 c) as [c1|e] eqn:Hone; [|discriminate].
    destruct k as [|k]; simpl in Hk.
    + injection Hk as ->.
      apply convertACLRule_inv in Hone
        as [[Hd _]|[_ (r & ns & ps & Hl & Hpg & Hnet & _)]]; [congruence|].
      exists r. split; [|].
      * eapply convertACLRulesFrom_keeps; [exact H|].
        rewrite Hpg, Hnet. apply in_or_app.
        destruct ns; [right|left]; apply in_or_app; right; left; reflexivity.
      * unfold lowerRule in Hl.
        destruct (ovnRuleCriteriaToOVNACLRule _ _ _ _ _) as [[[r0 ns0] ps0]|e]; [|discriminate].
        rewrite Hlog in Hl. simpl in Hl. injection Hl as <- _ _.
        simpl. rewrite Z.add_0_r. auto.
    + destruct (IH (i + 1) c1 c' k rule H Hk Hlog) as (r & Hin & Hl & Hn).
      exists r. split; [exact Hin|]. split; [exact Hl|].
      rewrite Hn. replace (i + Z.of_nat (S k)) with (i + 1 + Z.of_nat k) by lia.
      reflexivity.
Qed.

(** X8: a logged rule is emitted with the log switched on under the name
    made of the port group, the direction and the position of the rule
    in the list of its direction, counted from 0 with the disabled
    rules included. *)
Theorem logged_rules_are_named_by_position db acl pg ids peers c (k : nat) rule :
  compileACL db acl pg ids peers = Ok c ->
  api.State rule = "logged" ->
  (nth_error (api.Ingress acl) k = Some rule ->
   exists r, In r (portGroupRules c ++ networkRules c)
             /\ ovn.Log r = true
             /\ ovn.LogName r = pg +:+ "-ingress-" +:+ fmt.d (Z.of_nat k))
  /\ (nth_error (api.Egress acl) k = Some rule ->
      exists r, In r (portGroupRules c ++ networkRules c)
                /\ ovn.Log r = true
                /\ ovn.LogName r = pg +:+ "-egress-" +:+ fmt.d (Z.of_nat k)).
Proof.
  intros H Hlog.
  apply compileACL_inv in H as (sets & c1 & c2 & H1 & H2 & Hpg & Hnet & _).
  unfold convertACLRules in H1, H2.
  assert (Hc : forall r, In r (portGroupRules c2 ++ networkRules c2) ->
                         In r (portGroupRules c ++ networkRules c)).
  { intros r Hin. rewrite Hpg, Hnet. apply in_app_or in Hin. apply in_or_app.
    destruct Hin; [left; apply in_or_app|]; auto. }
  split; intros Hk.
  - destruct (convertACLRulesFrom_logged _ _ _ _ _ _ _ _ _ _ _ H1 Hk Hlog) as (r & Hin & Hl & Hn).
    exists r. split; [|split; [exact Hl|exact Hn]].
    apply Hc. eapply convertACLRulesFrom_keeps; eauto.
  - destruct (convertACLRulesFrom_logged _ _ _ _ _ _ _ _ _ _ _ H2 Hk Hlog) as (r & Hin & Hl & Hn).
    exists r. split; [|split; [exact Hl|exact Hn]]. apply Hc. exact Hin.
Qed.

End Emitted.

Section EmittedWitness.

#[local] Existing Instance gonet.lib.

Lemma compiled_rules_are_the_enabled_rules_witness :
  exists c,
    compileACL (fixtures.db []) samples.aclStates "incus_acl7" ∅ ∅ = Ok c
    /\ (length (portGroupRules c) + length (networkRules c))%nat = 4%nat.
Proof.
  eexists. split; [vm_compute; reflexivity|].
  exact (compiled_rules_are_the_enabled_rules (netlib := gonet.lib) (fixtures.db []) samples.aclStates
           "incus_acl7" ∅ ∅ _ ltac:(vm_compute; reflexivity)).
Defined.

Lemma disabled_rules_are_skipped_after_the_address_sets_witness :
  compileACL (fixtures.db []) samples.aclOff "incus_acl7" ∅ ∅
  = Ok {| portGroupRules := [defaultRule "incus_acl7"]; networkRules := [];
          peersNeeded := [] |}.
Proof.
  rewrite (disabled_rules_are_skipped_after_the_address_sets
             (fixtures.db []) samples.aclOff "incus_acl7" ∅ ∅
             ltac:(repeat constructor)).
  vm_compute. reflexivity.
Defined.

Lemma logged_rules_are_named_by_position_witness :
  exists c,
    compileACL (fixtures.db []) samples.aclStates "incus_acl7" ∅ ∅ = Ok c
    /\ exists r, In r (portGroupRules c ++ networkRules c)
                 /\ ovn.Log r = true
                 /\ ovn.LogName r = "incus_acl7-ingress-1".
Proof.
  eexists. split; [vm_compute; reflexivity|].
  exact (proj1 (logged_rules_are_named_by_position (netlib := gonet.lib) (fixtures.db []) samples.aclStates
                  "incus_acl7" ∅ ∅ _ 1
                  (fixtures.rule "drop" "@internal" "" "" "" "" "logged")
                  ltac:(vm_compute; reflexivity) eq_refl) eq_refl).
Defined.

End EmittedWitness.

(** ** Splitting, trimming and joining *)

Lemma TrimLeft_head (s : string) :
  strings.TrimLeft s = "" \/
  exists c t, strings.TrimLeft s = String c t /\ strings.isSpace c = false.
Proof.
  induction s as [|c s IH]; simpl; [auto|].
  destruct (strings.isSpace c) eqn:E; [exact IH|]. right. eauto.
Qed.

Lemma TrimRight_idem (s : string) :
  strings.TrimRight (strings.TrimRight s) = strings.TrimRight s.
Proof.
  induction s as [|c s IH]; simpl; [reflexivity|].
  destruct (strings.TrimRight s) as [|d t] eqn:E.
  - destruct (strings.isSpace c) eqn:Ec; simpl; [reflexivity|]. rewrite Ec. reflexivity.
  - simpl. simpl in IH. rewrite IH. reflexivity.
Qed.

Lemma TrimRight_head (c : ascii) (s : string) :
  strings.isSpace c = false ->
  exists t, strings.TrimRight (String c s) = String c t.
Proof.
  intros E. simpl. destruct (strings.TrimRight s); [rewrite E|]; eauto.
Qed.

Lemma TrimSpace_idem (s : string) :
  strings.TrimSpace (strings.TrimSpace s) = strings.TrimSpace s.
Proof.
  unfold strings.TrimSpace.
  destruct (TrimLeft_head s) as [->|(c & t & -> & Ec)]; [reflexivity|].
  destruct (TrimRight_head c t Ec) as [u Hu].
  rewrite Hu. cbn [strings.TrimLeft]. rewrite Ec. rewrite <- Hu. apply TrimRight_idem.
Qed.

Lemma TrimLeft_ContainsByte (s : string) (c : ascii) :
  strings.ContainsByte s c = false -> strings.ContainsByte (strings.TrimLeft s) c = false.
Proof.
  induction s as [|a s IH]; simpl; [auto|]. intros H.
  destruct (strings.isSpace a); [|exact H].
  apply orb_false_iff in H as [_ H]. auto.
Qed.

Lemma TrimRight_ContainsByte (s : string) (c : ascii) :
  strings.ContainsByte s c = false -> strings.ContainsByte (strings.TrimRight s) c = false.
Proof.
  induction s as [|a s IH]; simpl; [auto|]. intros H.
  apply orb_false_iff in H as [Ha H]. specialize (IH H).
  destruct (strings.TrimRight s) as [|d t].
  - destruct (strings.isSpace a); simpl; [reflexivity|]. rewrite Ha. reflexivity.
  - cbn [strings.ContainsByte]. rewrite Ha. exact IH.
Qed.

Lemma TrimSpace_ContainsByte (s : string) (c : ascii) :
  strings.ContainsByte s c = false -> strings.ContainsByte (strings.TrimSpace s) c = false.
Proof. intros H. apply TrimRight_ContainsByte, TrimLeft_ContainsByte, H. Qed.

(** A string without any white space is trimmed. *)
Lemma TrimRight_no_space (s : string) :
  (forall c, strings.isSpace c = true -> strings.ContainsByte s c = false) ->
  strings.TrimRight s = s.
Proof.
  induction s as [|a s IH]; intros H; simpl; [reflexivity|].
  assert (Ea : strings.isSpace a = false).
  { destruct (strings.isSpace a) eqn:E; [|reflexivity].
    specialize (H a E). simpl in H. rewrite Ascii.eqb_refl in H. discriminate. }
  rewrite IH.
  - destruct s; [rewrite Ea|]; reflexivity.
  - intros c Hc. specialize (H c Hc). simpl in H. apply orb_false_iff in H as [_ H]. exact H.
Qed.

(** The fields of a split hold no separator when the cuts allowed are
    as many as the bytes of the string. *)
Lemma genSplit_fields (sep : ascii) (s : string) :
  forall k, (String.length s <= k)%nat ->
    Forall (fun t => strings.ContainsByte t sep = false) (strings.genSplit sep s k).
Proof.
  induction s as [|c s IH]; intros k Hk; simpl.
  - repeat constructor.
  - destruct k as [|k]; [simpl in Hk; lia|].
    destruct (Ascii.eqb c sep) eqn:E.
    + constructor; [reflexivity|]. apply IH. simpl in Hk. lia.
    + assert (Hrec := IH (S k) ltac:(simpl in Hk; lia)).
      destruct (strings.genSplit sep s (S k)) as [|h t].
      * repeat constructor. simpl. rewrite E. reflexivity.
      * apply Forall_cons in Hrec as [Hh Ht]. constructor; [|exact Ht].
        simpl. rewrite E. exact Hh.
Qed.

Lemma genSplit_nonempty (sep : ascii) (s : string) (k : nat) :
  strings.genSplit sep s k <> [].
Proof.
  destruct s as [|c s]; simpl; [discriminate|].
  destruct k; [discriminate|].
  destruct (Ascii.eqb c sep); [discriminate|].
  destruct (strings.genSplit sep s (S k)); discriminate.
Qed.

(** Splitting what was joined gives the fields back. *)
Lemma genSplit_concat (sep : ascii) (l : list string) :
  l <> [] ->
  Forall (fun t => strings.ContainsByte t sep = false) l ->
  forall k, (length l <= S k)%nat ->
    strings.genSplit sep (String.concat (String sep "") l) k = l.
Proof.
  induction l as [|a l IH]; intros Hne Hf k Hk; [contradiction|].
  apply Forall_cons in Hf as [Ha Hl].
  destruct l as [|b l].
  - simpl. apply genSplit_no_sep, Ha.
  - change (String.concat (String sep "") (a :: b :: l))
      with (a +:+ String sep "" +:+ String.concat (String sep "") (b :: l)).
    change (String sep "" +:+ String.concat (String sep "") (b :: l))
      with (String sep (String.concat (String sep "") (b :: l))).
    destruct k as [|k]; [simpl in Hk; lia|].
    rewrite (genSplit_cut sep a _ k Ha). f_equal.
    apply IH; [discriminate|exact Hl|simpl in *; lia].
Qed.

Lemma length_append (a b : string) :
  String.length (a +:+ b) = (String.length a + String.length b)%nat.
Proof. induction a as [|c a IH]; simpl; [reflexivity|]. rewrite IH. reflexivity. Qed.

Lemma length_concat_sep (sep : ascii) (l : list string) :
  (length l <= S (String.length (String.concat (String sep "") l)))%nat.
Proof.
  induction l as [|a l IH]; simpl; [lia|].
  destruct l as [|b l]; [simpl; lia|].
  rewrite !length_append. simpl in *. lia.
Qed.

Lemma Split_Join (sep : ascii) (l : list string) :
  l <> [] ->
  Forall (fun t => strings.ContainsByte t sep = false) l ->
  strings.SplitN (strings.Join l (String sep "")) sep (-1) = l.
Proof.
  intros Hne Hf. unfold strings.SplitN, strings.Join. simpl.
  apply genSplit_concat; [exact Hne|exact Hf|apply length_concat_sep].
Qed.

Lemma concat_genSplit (sep : ascii) (s : string) :
  forall k, String.concat (String sep "") (strings.genSplit sep s k) = s.
Proof.
  induction s as [|c s IH]; intros k; [reflexivity|].
  destruct k as [|k]; [reflexivity|]. cbn [strings.genSplit].
  destruct (Ascii.eqb_spec c sep) as [->|_].
  - specialize (IH k). pose proof (genSplit_nonempty sep s k) as Hne.
    destruct (strings.genSplit sep s k) as [|h t]; [contradiction|].
    change (String.concat (String sep "") ("" :: h :: t))
      with (String sep (String.concat (String sep "") (h :: t))).
    rewrite IH. reflexivity.
  - specialize (IH (S k)). pose proof (genSplit_nonempty sep s (S k)) as Hne.
    destruct (strings.genSplit sep s (S k)) as [|h t]; [contradiction|].
    rewrite <- IH. destruct t; reflexivity.
Qed.

Lemma TrimLeft_keeps (s : string) (c : ascii) :
  strings.isSpace c = false ->
  strings.ContainsByte (strings.TrimLeft s) c = strings.ContainsByte s c.
Proof.
  intros Hc. induction s as [|a s IH]; simpl; [reflexivity|].
  destruct (strings.isSpace a) eqn:Ea; [|reflexivity].
  rewrite IH. destruct (Ascii.eqb_spec a c) as [->|_]; [congruence|reflexivity].
Qed.

Lemma TrimRight_keeps (s : string) (c : ascii) :
  strings.isSpace c = false ->
  strings.ContainsByte (strings.TrimRight s) c = strings.ContainsByte s c.
Proof.
  intros Hc. induction s as [|a s IH]; simpl; [reflexivity|].
  rewrite <- IH.
  destruct (strings.TrimRight s) as [|d t].
  - destruct (strings.isSpace a) eqn:Ea; simpl.
    + destruct (Ascii.eqb_spec a c) as [->|_]; [congruence|reflexivity].
    + reflexivity.
  - reflexivity.
Qed.

Lemma TrimSpace_keeps (s : string) (c : ascii) :
  strings.isSpace c = false ->
  strings.ContainsByte (strings.TrimSpace s) c = strings.ContainsByte s c.
Proof.
  intros Hc. unfold strings.TrimSpace.
  rewrite TrimRight_keeps, TrimLeft_keeps by exact Hc. reflexivity.
Qed.

Lemma no_space_literal (s : string) :
  forallb (fun a => negb (strings.isSpace a)) (list_ascii_of_string s) = true ->
  forall c, strings.isSpace c = true -> strings.ContainsByte s c = false.
Proof.
  induction s as [|a s IH]; simpl; intros H c Hc; [reflexivity|].
  apply andb_true_iff in H as [Ha Hs]. rewrite (IH Hs c Hc).
  destruct (Ascii.eqb_spec a c) as [->|_]; [|reflexivity].
  rewrite Hc in Ha. discriminate.
Qed.

Lemma string_of_uint_chars (u : Decimal.uint) (c : ascii) :
  strings.ContainsByte (DecimalString.NilEmpty.string_of_uint u) c = true ->
  strings.ContainsByte "-0123456789" c = true.
Proof.
  induction u; simpl; intros H; try discriminate;
    apply orb_true_iff in H as [H|H];
    try (rewrite H; rewrite ?orb_true_r; reflexivity);
    specialize (IHu H); simpl in IHu; exact IHu.
Qed.

Lemma nilzero_string_of_uint_chars (u : Decimal.uint) (c : ascii) :
  strings.ContainsByte (NilZero.string_of_uint u) c = true ->
  strings.ContainsByte "-0123456789" c = true.
Proof.
  destruct u; try apply string_of_uint_chars.
  simpl. intros H. rewrite orb_false_r in H. rewrite H.
  rewrite ?orb_true_r. reflexivity.
Qed.

(** The decimal form of an integer is made of digits and the sign. *)
Lemma fmt_d_chars (z : Z) (c : ascii) :
  strings.ContainsByte (fmt.d z) c = true -> strings.ContainsByte "-0123456789" c = true.
Proof.
  unfold fmt.d, NilZero.string_of_int.
  destruct (Z.to_int z) as [u|u]; [apply nilzero_string_of_uint_chars|].
  cbn [strings.ContainsByte]. intros H.
  apply orb_true_iff in H as [H|H]; [rewrite H; reflexivity|].
  apply nilzero_string_of_uint_chars in H. exact H.
Qed.

Lemma fmt_d_without (z : Z) (c : ascii) :
  strings.ContainsByte "-0123456789" c = false -> strings.ContainsByte (fmt.d z) c = false.
Proof.
  intros H. destruct (strings.ContainsByte (fmt.d z) c) eqn:E; [|reflexivity].
  apply fmt_d_chars in E. congruence.
Qed.

(** ** The names of address sets in the subjects of a rule *)

(** What [replaceAddressSetNames] makes of a subject that holds no comma
    and is trimmed holds no comma and is trimmed. *)
Lemma addressSetToken_field (sets : gmap string Z) (subj : string) :
  strings.ContainsByte subj "," = false ->
  strings.TrimSpace subj = subj ->
  strings.ContainsByte (addressSetToken sets subj) "," = false
  /\ strings.TrimSpace (addressSetToken sets subj) = addressSetToken sets subj.
Proof.
  intros Hc Ht. unfold addressSetToken.
  destruct (strings.CutPrefix subj "$") as [after ok].
  destruct ok; [|auto].
  destruct (sets !! after) as [setID|]; [|auto].
  split.
  - rewrite ContainsByte_app. rewrite fmt_d_without by reflexivity. reflexivity.
  - unfold strings.TrimSpace. cbn [append strings.TrimLeft].
    change (strings.isSpace "$") with false. cbv iota.
    apply TrimRight_no_space. intros c Hsp.
    change (String "$" (String "i" (String "n" (String "c" (String "u" (String "s"
              (String "_" (String "s" (String "e" (String "t" (fmt.d setID)))))))))))
      with ("$incus_set" +:+ fmt.d setID).
    rewrite ContainsByte_app.
    rewrite (no_space_literal "$incus_set" eq_refl c Hsp).
    apply fmt_d_without. apply (no_space_literal "-0123456789" eq_refl c Hsp).
Qed.

(** X9: [replaceAddressSetNames] works subject by subject: splitting its
    result at the commas gives the subjects of the rule, trimmed, in
    their order, each one replaced by [$incus_set<id>] when it is [$]
    followed by the name of an address set with an ID, and kept
    otherwise; a subject list that is blank gives the empty string. *)
Theorem replaceAddressSetNames_subjects (subject : string) (sets : gmap string Z) :
  util.SplitNTrimSpace (replaceAddressSetNames subject sets) "," (-1) true
  = map (addressSetToken sets) (util.SplitNTrimSpace subject "," (-1) true)
  /\ (replaceAddressSetNames subject sets = ""
      <-> util.SplitNTrimSpace subject "," (-1) true = []).
Proof.
  unfold replaceAddressSetNames.
  change (fun subj : string =>
            let '(after, ok) := strings.CutPrefix subj "$" in
            if ok then match sets !! after with
                       | Some setID => "$incus_set" +:+ fmt.d setID
                       | None => subj
                       end
            else subj) with (addressSetToken sets).
  assert (Hinner : util.SplitNTrimSpace subject "," (-1) true
                   = if String.eqb (strings.TrimSpace subject) ""
                     then [] else map strings.TrimSpace (strings.SplitN subject "," (-1)))
    by reflexivity.
  rewrite !Hinner. clear Hinner.
  destruct (String.eqb_spec (strings.TrimSpace subject) "") as [Hblank|Hblank].
  - simpl. split; [reflexivity|]. split; reflexivity.
  - set (fields := strings.SplitN subject "," (-1)).
    set (toks := map (addressSetToken sets) (map strings.TrimSpace fields)).
    assert (Hfields : fields <> []
                      /\ Forall (fun t => strings.ContainsByte t "," = false) fields
                      /\ String.concat "," fields = subject).
    { unfold fields, strings.SplitN. simpl. split; [apply genSplit_nonempty|].
      split; [apply genSplit_fields; lia|apply concat_genSplit]. }
    destruct Hfields as (Hne & Hnc & Hcat).
    assert (Htoks : Forall (fun t => strings.ContainsByte t "," = false
                                     /\ strings.TrimSpace t = t) toks).
    { unfold toks. rewrite Forall_map, Forall_map.
      eapply Forall_impl; [exact Hnc|]. intros t Ht. cbn beta.
      apply addressSetToken_field; [apply TrimSpace_ContainsByte, Ht|apply TrimSpace_idem]. }
    assert (Htne : toks <> []).
    { unfold toks. destruct fields; [contradiction|discriminate]. }
    assert (Hjoin : strings.TrimSpace (strings.Join toks ",") <> "").
    { unfold strings.Join.
      destruct toks as [|a [|b rest]] eqn:Et; [contradiction| |].
      - simpl. apply Forall_cons in Htoks as [[_ Ha] _]. rewrite Ha.
        intros ->. unfold toks in Et.
        destruct fields as [|f [|f' fs]]; try discriminate.
        simpl in Et. injection Et as Et. simpl in Hcat. subst f.
        unfold addressSetToken in Et.
        destruct (strings.CutPrefix (strings.TrimSpace subject) "$") as [after ok].
        destruct ok; [destruct (sets !! after)|]; try discriminate; contradiction.
      - intros E.
        assert (Hc : strings.ContainsByte
                       (strings.TrimSpace (String.concat "," (a :: b :: rest))) "," = true).
        { rewrite TrimSpace_keeps by reflexivity.
          change (String.concat "," (a :: b :: rest))
            with (a +:+ String "," (String.concat "," (b :: rest))).
          rewrite ContainsByte_app. simpl. apply orb_true_r. }
        rewrite E in Hc. discriminate. }
    split.
    + unfold util.SplitNTrimSpace. cbn [andb].
      destruct (String.eqb_spec (strings.TrimSpace (strings.Join toks ",")) "") as [E|_];
        [contradiction|].
      rewrite (Split_Join "," toks Htne).
      * clear -Htoks. induction Htoks as [|t l [_ Ht] _ IH]; simpl; [reflexivity|].
        rewrite Ht, IH. reflexivity.
      * eapply Forall_impl; [exact Htoks|]. intros t [Ht _]. exact Ht.
    + split.
      * intros E. rewrite E in Hjoin. contradiction.
      * intros E. destruct fields; [contradiction|discriminate].
Qed.

(** ** The reaper: what it deletes and what it keeps *)

Lemma setDelete_In_iff (set : list string) (x y : string) :
  In y (setDelete set x) <-> In y set /\ y <> x.
Proof.
  unfold setDelete. rewrite <- !list_elem_of_In, list_elem_of_filter.
  split.
  - intros [Hn Hin]. split; [exact Hin|]. intros ->.
    rewrite String.eqb_refl in Hn. exact Hn.
  - intros [Hin Hn]. split; [|exact Hin].
    destruct (String.eqb_spec x y) as [->|_]; [contradiction|exact I].
Qed.

Lemma deletes_In (D : list string) :
  forall (R : list string) (y : string),
    In y (fold_left setDelete D R) <-> In y R /\ ~ In y D.
Proof.
  induction D as [|d D IH]; intros R y; simpl.
  - tauto.
  - rewrite IH, setDelete_In_iff. split.
    + intros [[HR Hd] HD]. split; [exact HR|]. intros [E|E]; [congruence|contradiction].
    + intros [HR Hn]. split; [split; [exact HR|]|]; intros E; apply Hn; auto.
Qed.

Lemma listing_In (projectID : Z) (m : gmap string ovn.PortGroup) (y : string) :
  In y (map fst (filter (fun kv => Z.eqb (ovn.ProjectID (snd kv)) projectID) (map_to_list m)))
  <-> exists g, m !! y = Some g /\ ovn.ProjectID g = projectID.
Proof.
  rewrite in_map_iff. split.
  - intros ([k g] & <- & Hin). apply list_elem_of_In, list_elem_of_filter in Hin as [Hp Hin].
    apply elem_of_map_to_list in Hin. exists g. split; [exact Hin|].
    simpl in Hp. apply Z.eqb_eq. destruct (_ =? _); [reflexivity|contradiction].
  - intros (g & Hg & Hp). exists (y, g). split; [reflexivity|].
    apply list_elem_of_In, list_elem_of_filter. split.
    + simpl. rewrite Hp, Z.eqb_refl. exact I.
    + apply elem_of_map_to_list. exact Hg.
Qed.

Lemma Contains_setAdd (set : list string) (x y : string) :
  In y (setAdd set x) <-> In y set \/ y = x.
Proof.
  split; [apply setAdd_In|].
  unfold setAdd. destruct (slices.Contains set x) eqn:E.
  - intros [H | ->]; [exact H|]. apply Contains_In. exact E.
  - intros [H | ->]; apply in_or_app; [left; exact H|right; left; reflexivity].
Qed.

(** The candidates are all the port groups listed that bear the prefix
    of the package and not the name of an ACL to keep. *)
Lemma removalCandidates_In ids keepACLs portGroups y :
  In y (removalCandidates ids keepACLs portGroups) <->
  In y portGroups
  /\ strings.HasPrefix y ovnACLPortGroupPrefix = true
  /\ hasKeeperPrefix ids keepACLs y = false.
Proof.
  split; [apply removalCandidates_no_keeper|].
  unfold removalCandidates. intros (Hin & Hp & Hk).
  assert (Hgen : forall set,
             In y set \/ In y portGroups ->
             In y (fold_left
                     (fun set portGroup =>
                        if strings.HasPrefix portGroup ovnACLPortGroupPrefix
                           && negb (hasKeeperPrefix ids keepACLs portGroup)
                        then setAdd set portGroup else set) portGroups set)).
  { clear Hin. induction portGroups as [|pg rest IH]; intros set [H|H]; simpl.
    - exact H.
    - destruct H.
    - apply IH. left.
      destruct (_ && _); [apply Contains_setAdd; left|]; exact H.
    - destruct H as [->|H]; [|apply IH; right; exact H].
      apply IH. left. rewrite Hp, Hk. simpl. apply Contains_setAdd. right. reflexivity. }
  apply Hgen. right. exact Hin.
Qed.

Lemma markUsed_mk ids netID matched :
  forall R U A,
    markUsed ids netID matched
      {| removeACLPortGroups := R; ovnUsedACLs := U; aclUsedACLS := A |}
    = {| removeACLPortGroups :=
           fold_left setDelete
             (flat_map (fun a => [OVNACLPortGroupName (idOf ids a);
                                  OVNACLNetworkPortGroupName (idOf ids a) netID]) matched) R;
         ovnUsedACLs := fold_left setAdd matched U;
         aclUsedACLS := A |}.
Proof.
  unfold markUsed. induction matched as [|a matched IH]; intros R U A; simpl; [reflexivity|].
  rewrite IH. reflexivity.
Qed.

(** The visitor takes names out of the candidates whatever the
    candidates are; its two other collections and its error do not
    depend on them. *)
Lemma visitUsage_shape db project ids ign nic u U A :
  (exists e, forall R,
      visitUsage db project ids ign nic
        {| removeACLPortGroups := R; ovnUsedACLs := U; aclUsedACLS := A |} u = Err e)
  \/ (exists D U' A', forall R,
         visitUsage db project ids ign nic
           {| removeACLPortGroups := R; ovnUsedACLs := U; aclUsedACLS := A |} u
         = Ok {| removeACLPortGroups := fold_left setDelete D R;
                 ovnUsedACLs := U'; aclUsedACLS := A' |}).
Proof.
  unfold visitUsage. cbn [removeACLPortGroups ovnUsedACLs aclUsedACLS].
  repeat match goal with
         | |- context [if ?b then _ else _] => destruct b
         | |- context [match ?x with _ => _ end] => destruct x
         end;
    first [ left; eexists; intros R; reflexivity
          | right; exists [], U; eexists; intros R; reflexivity
          | right; eexists _, _, _; intros R; rewrite markUsed_mk; reflexivity ].
Qed.

Lemma visitAll_shape db project ids ign nic visits :
  forall U A,
    (exists e, forall R,
        visitAll db project ids ign nic visits
          {| removeACLPortGroups := R; ovnUsedACLs := U; aclUsedACLS := A |} = Err e)
    \/ (exists D U' A', forall R,
           visitAll db project ids ign nic visits
             {| removeACLPortGroups := R; ovnUsedACLs := U; aclUsedACLS := A |}
           = Ok {| removeACLPortGroups := fold_left setDelete D R;
                   ovnUsedACLs := U'; aclUsedACLS := A' |}).
Proof.
  induction visits as [|u visits IH]; intros U A.
  - right. exists [], U, A. reflexivity.
  - destruct (visitUsage_shape db project ids ign nic u U A) as [[e He]|(D & U1 & A1 & H1)].
    + left. exists e. intros R. simpl. rewrite He. reflexivity.
    + destruct (IH U1 A1) as [[e He]|(D2 & U2 & A2 & H2)].
      * left. exists e. intros R. simpl. rewrite H1. apply He.
      * right. exists (D ++ D2), U2, A2. intros R. simpl. rewrite H1, H2.
        rewrite fold_left_app. reflexivity.
Qed.

Lemma keepReferenced_shape ids U A :
  exists D, forall R,
    keepReferenced ids {| removeACLPortGroups := R; ovnUsedACLs := U; aclUsedACLS := A |}
    = fold_left setDelete D R.
Proof.
  unfold keepReferenced. cbn [removeACLPortGroups ovnUsedACLs aclUsedACLS].
  induction A as [|entry A IH].
  - exists []. reflexivity.
  - destruct IH as [D HD]. simpl.
    destruct (usedByOvn U (snd entry)).
    + exists (OVNACLPortGroupName (idOf ids (fst entry)) :: D). intros R. simpl. apply HD.
    + exists D. exact HD.
Qed.

(** What is scheduled for removal: the candidates but a set of names
    that the listing of the port groups has no part in. *)
Lemma unusedPortGroups_shape db usedByFn project ids names ign nic keepACLs :
  (exists e, forall portGroups,
      unusedPortGroups db usedByFn project ids names ign nic keepACLs portGroups = Err e)
  \/ (exists D, forall portGroups,
         unusedPortGroups db usedByFn project ids names ign nic keepACLs portGroups
         = Ok (fold_left setDelete D (removalCandidates ids keepACLs portGroups))).
Proof.
  unfold unusedPortGroups.
  destruct (usedByFn project names) as [visits enumErr].
  destruct (visitAll_shape db project ids ign nic visits (fold_left setAdd keepACLs []) [])
    as [[e He]|(D & U' & A' & H)].
  - left. exists (EWrap "Failed getting ACL usage" e). intros pgs. rewrite He. reflexivity.
  - destruct enumErr as [e|].
    + left. exists (EWrap "Failed getting ACL usage" e). intros pgs. rewrite H. reflexivity.
    + destruct (keepReferenced_shape ids U' A') as [D2 HD2].
      right. exists (D ++ D2). intros pgs. rewrite H, HD2, fold_left_app. reflexivity.
Qed.

(** [OVNPortGroupDeleteIfUnused] call by call. *)
Lemma OVNPortGroupDeleteIfUnused_run db usedByFn project ign nic keepACLs (w : ovn.NB) :
  OVNPortGroupDeleteIfUnused db usedByFn project ign nic keepACLs w =
  match GetNetworkACLs db project with
  | Err e => (Err e, w)
  | Ok acls =>
      match GetProjectID db project with
      | Err e => (Err (EWrap "Failed getting project ID" e), w)
      | Ok projectID =>
          if ovn.faults w (ovn.calls w)
          then (Err (EWrap "Failed getting port groups for project" (EClient (ovn.calls w))),
                ovn.tick w)
          else
            match unusedPortGroups db usedByFn project (aclNameIDsOf acls) (map fst acls)
                    ign nic keepACLs
                    (map fst (filter (fun kv => Z.eqb (ovn.ProjectID (snd kv)) projectID)
                                (map_to_list (ovn.portGroups w)))) with
            | Err e => (Err e, ovn.tick w)
            | Ok removed =>
                if (0 <? length removed)%nat then
                  if ovn.faults w (S (ovn.calls w))
                  then (Err (EWrap "Failed to delete unused OVN port groups"
                               (EClient (S (ovn.calls w)))),
                        ovn.tick (ovn.tick w))
                  else (Ok tt,
                        ovn.setGroups (ovn.tick (ovn.tick w))
                          (ovn.deleteAll removed (ovn.portGroups w))
                          (ovn.EvDeletePortGroup removed))
                else (Ok tt, ovn.tick w)
            end
      end
  end.
Proof.
  unfold OVNPortGroupDeleteIfUnused, bind, lift, wrap, wrapR, ret.
  destruct (GetNetworkACLs db project) as [acls|e]; [|reflexivity].
  destruct (GetProjectID db project) as [projectID|e]; [|reflexivity].
  unfold ovn.GetPortGroupsByProject, ovn.DeletePortGroup, ovn.call.
  destruct (ovn.faults w (ovn.calls w)); [reflexivity|]. simpl.
  destruct (unusedPortGroups _ _ _ _ _ _ _ _ _) as [removed|e]; [|reflexivity].
  destruct (0 <? length removed)%nat; [|reflexivity].
  cbn [ovn.faults ovn.calls ovn.tick].
  destruct (ovn.faults w (S (ovn.calls w))); reflexivity.
Qed.

(** X10: [OVNPortGroupDeleteIfUnused] deletes a port group only if its
    name starts with [incus_acl], it belongs to the project and it is
    not kept for an ACL of [keepACLs], and only in a run that returns no
    error; every other port group is left as it was, and a run that
    returns an error has deleted nothing. *)
Theorem reaper_deletes_only_acl_port_groups_of_the_project
    db usedByFn project ign nic keepACLs (w : ovn.NB) (name : string) :
  ovn.portGroups (snd (OVNPortGroupDeleteIfUnused db usedByFn project ign nic keepACLs w)) !! name
  = ovn.portGroups w !! name
  \/ (ovn.portGroups
        (snd (OVNPortGroupDeleteIfUnused db usedByFn project ign nic keepACLs w)) !! name = None
      /\ fst (OVNPortGroupDeleteIfUnused db usedByFn project ign nic keepACLs w) = Ok tt
      /\ strings.HasPrefix name ovnACLPortGroupPrefix = true
      /\ exists g acls,
           ovn.portGroups w !! name = Some g
           /\ GetProjectID db project = Ok (ovn.ProjectID g)
           /\ GetNetworkACLs db project = Ok acls
           /\ hasKeeperPrefix (aclNameIDsOf acls) keepACLs name = false).
Proof.
  rewrite OVNPortGroupDeleteIfUnused_run.
  destruct (GetNetworkACLs db project) as [acls|e]; [|left; reflexivity].
  destruct (GetProjectID db project) as [projectID|e]; [|left; reflexivity].
  destruct (ovn.faults w (ovn.calls w)); [left; reflexivity|].
  destruct (unusedPortGroups _ _ _ _ _ _ _ _ _) as [removed|e] eqn:Hu; [|left; reflexivity].
  destruct (0 <? length removed)%nat; [|left; reflexivity].
  destruct (ovn.faults w (S (ovn.calls w))); [left; reflexivity|]. simpl.
  destruct (in_dec string_dec name removed) as [Hin|Hnin].
  - right. split; [apply deleteAll_lookup_in, Hin|]. split; [reflexivity|].
    unfold unusedPortGroups in Hu.
    destruct (usedByFn project (map fst acls)) as [visits enumErr].
    destruct (visitAll _ _ _ _ _ _ _) as [r|e] eqn:Hv; [|discriminate].
    destruct enumErr; [discriminate|]. injection Hu as <-.
    apply keepReferenced_remove in Hin.
    apply (visitAll_remove _ _ _ _ _ _ _ _ Hv) in Hin. simpl in Hin.
    apply removalCandidates_In in Hin as (Hl & Hp & Hk).
    apply listing_In in Hl as (g & Hg & Hpid).
    split; [exact Hp|]. exists g, acls. rewrite Hpid. auto.
  - left. apply deleteAll_lookup_notin, Hnin.
Qed.

(** X11: a second run of [OVNPortGroupDeleteIfUnused] after a run that
    returned no error, on the same catalog and with the same arguments,
    deletes nothing: it sends no deletion to the client and leaves the
    port groups as the first run left them, whether its own calls of
    the client fail or not. *)
Theorem reaper_is_idempotent db usedByFn project ign nic keepACLs (w : ovn.NB) :
  fst (OVNPortGroupDeleteIfUnused db usedByFn project ign nic keepACLs w) = Ok tt ->
  ovn.portGroups
    (snd (OVNPortGroupDeleteIfUnused db usedByFn project ign nic keepACLs
            (snd (OVNPortGroupDeleteIfUnused db usedByFn project ign nic keepACLs w))))
  = ovn.portGroups (snd (OVNPortGroupDeleteIfUnused db usedByFn project ign nic keepACLs w))
  /\ ovn.trace
       (snd (OVNPortGroupDeleteIfUnused db usedByFn project ign nic keepACLs
               (snd (OVNPortGroupDeleteIfUnused db usedByFn project ign nic keepACLs w))))
     = ovn.trace (snd (OVNPortGroupDeleteIfUnused db usedByFn project ign nic keepACLs w)).
Proof.
  rewrite (OVNPortGroupDeleteIfUnused_run db usedByFn project ign nic keepACLs
             (snd (OVNPortGroupDeleteIfUnused db usedByFn project ign nic keepACLs w))).
  rewrite (OVNPortGroupDeleteIfUnused_run db usedByFn project ign nic keepACLs w).
  destruct (GetNetworkACLs db project) as [acls|e]; [|discriminate].
  destruct (GetProjectID db project) as [projectID|e]; [|discriminate].
  set (ids := aclNameIDsOf acls).
  destruct (unusedPortGroups_shape db usedByFn project ids (map fst acls) ign nic keepACLs)
    as [[e He]|[D HD]].
  { destruct (ovn.faults w (ovn.calls w)); [discriminate|]. rewrite He. discriminate. }
  set (cands := fun m : gmap string ovn.PortGroup =>
                  removalCandidates ids keepACLs
                    (map fst (filter (fun kv => Z.eqb (ovn.ProjectID (snd kv)) projectID)
                                (map_to_list m)))).
  (* What the second run schedules, given the port groups the first one left. *)
  assert (Hsecond : forall m,
             fold_left setDelete D
               (cands (ovn.deleteAll (fold_left setDelete D (cands m)) m)) = []).
  { intros m.
    destruct (fold_left setDelete D (cands (ovn.deleteAll _ m))) as [|y rest] eqn:E;
      [reflexivity|].
    exfalso.
    assert (Hy : In y (fold_left setDelete D
                         (cands (ovn.deleteAll (fold_left setDelete D (cands m)) m))))
      by (rewrite E; left; reflexivity).
    apply deletes_In in Hy as [Hy HnD].
    apply removalCandidates_In in Hy as (Hl & Hp & Hk).
    apply listing_In in Hl as (g & Hg & Hpid).
    destruct (in_dec string_dec y (fold_left setDelete D (cands m))) as [Hin|Hnin].
    - rewrite (deleteAll_lookup_in _ _ _ Hin) in Hg. discriminate.
    - rewrite (deleteAll_lookup_notin _ _ _ Hnin) in Hg.
      apply Hnin. apply deletes_In. split; [|exact HnD].
      apply removalCandidates_In. split; [|auto].
      apply listing_In. eauto. }
  rewrite !HD. fold (cands (ovn.portGroups w)).
  destruct (ovn.faults w (ovn.calls w)); [discriminate|].
  destruct (0 <? length (fold_left setDelete D (cands (ovn.portGroups w))))%nat eqn:Hlen.
  - destruct (ovn.faults w (S (ovn.calls w))); [discriminate|]. intros _.
    cbn [snd ovn.portGroups ovn.setGroups ovn.faults ovn.calls ovn.tick ovn.trace].
    destruct (ovn.faults w (S (S (ovn.calls w)))); [split; reflexivity|].
    fold (cands (ovn.deleteAll (fold_left setDelete D (cands (ovn.portGroups w)))
                   (ovn.portGroups w))).
    rewrite Hsecond. simpl. split; reflexivity.
  - intros _.
    assert (Hnone : fold_left setDelete D (cands (ovn.portGroups w)) = []).
    { destruct (fold_left setDelete D (cands (ovn.portGroups w))); [reflexivity|discriminate]. }
    cbn [snd ovn.portGroups ovn.faults ovn.calls ovn.tick ovn.trace].
    destruct (ovn.faults w (S (ovn.calls w))); [split; reflexivity|].
    fold (cands (ovn.portGroups w)). rewrite Hnone. simpl. split; reflexivity.
Qed.

Lemma reaper_is_idempotent_witness :
  ovn.portGroups
    (snd (OVNPortGroupDeleteIfUnused fixtures.dbXY fixtures.unused "default" IgnoreNothing ""
            ["x"]
            (snd (OVNPortGroupDeleteIfUnused fixtures.dbXY fixtures.unused "default"
                    IgnoreNothing "" ["x"] (fixtures.nb fixtures.groupsXY)))))
  = ovn.portGroups
      (snd (OVNPortGroupDeleteIfUnused fixtures.dbXY fixtures.unused "default" IgnoreNothing ""
              ["x"] (fixtures.nb fixtures.groupsXY)))
  /\ ovn.trace
       (snd (OVNPortGroupDeleteIfUnused fixtures.dbXY fixtures.unused "default" IgnoreNothing ""
               ["x"]
               (snd (OVNPortGroupDeleteIfUnused fixtures.dbXY fixtures.unused "default"
                       IgnoreNothing "" ["x"] (fixtures.nb fixtures.groupsXY)))))
     = [ovn.EvDeletePortGroup ["incus_acl9"]].
Proof.
  destruct (reaper_is_idempotent fixtures.dbXY fixtures.unused "default" IgnoreNothing ""
              ["x"] (fixtures.nb fixtures.groupsXY) ltac:(vm_compute; reflexivity))
    as [Hgroups Htrace].
  split; [exact Hgroups|]. rewrite Htrace. vm_compute. reflexivity.
Defined.

Lemma visitUsage_counts db project ids ign nic r u r' netID :
  countsForNetwork db project ign nic u netID ->
  visitUsage db project ids ign nic r u = Ok r' ->
  r' = markUsed ids netID (matchedACLNames u) r.
Proof.
  unfold countsForNetwork, visitUsage.
  destruct (usedBy u) as [iName iProject|net|pName pProject|aName|].
  - intros [(net & -> & ->) Hign]. simpl.
    destruct ign as [i p| | |]; try (intros H; injection H as <-; reflexivity).
    destruct (String.eqb nic ""); [discriminate|].
    destruct (String.eqb_spec i iName) as [->|_];
      [|intros H; injection H as <-; reflexivity].
    destruct (String.eqb_spec p iProject) as [->|_];
      [|intros H; injection H as <-; reflexivity].
    destruct (String.eqb_spec nic (nicName u)) as [->|_];
      [|intros H; injection H as <-; reflexivity].
    exfalso. apply Hign. auto.
  - intros (-> & (net' & ->) & Hign). simpl.
    destruct ign as [| i | |]; try (intros H; injection H as <-; reflexivity).
    destruct (negb (String.eqb nic "")); [discriminate|].
    destruct (String.eqb_spec i (api.NetworkName net)) as [->|_]; [congruence|].
    intros H; injection H as <-; reflexivity.
  - intros [(net & -> & ->) Hign]. simpl.
    destruct ign as [| | i p|]; try (intros H; injection H as <-; reflexivity).
    destruct (String.eqb nic ""); [discriminate|].
    destruct (String.eqb_spec i pName) as [->|_];
      [|intros H; injection H as <-; reflexivity].
    destruct (String.eqb_spec p pProject) as [->|_];
      [|intros H; injection H as <-; reflexivity].
    destruct (String.eqb_spec nic (nicName u)) as [->|_];
      [|intros H; injection H as <-; reflexivity].
    exfalso. apply Hign. auto.
  - intros [].
  - intros [].
Qed.

Lemma markUsed_takes_out ids netID matched r a y :
  In a matched ->
  y = OVNACLPortGroupName (idOf ids a) \/ y = OVNACLNetworkPortGroupName (idOf ids a) netID ->
  ~ In y (removeACLPortGroups (markUsed ids netID matched r)).
Proof.
  intros Ha Hy. destruct r as [R U A]. rewrite markUsed_mk. simpl.
  rewrite deletes_In. intros [_ Hn]. apply Hn.
  apply in_flat_map. exists a. split; [exact Ha|].
  destruct Hy as [-> | ->]; simpl; auto.
Qed.

Lemma visitAll_takes_out db project ids ign nic visits u netID a y :
  In u visits ->
  countsForNetwork db project ign nic u netID ->
  In a (matchedACLNames u) ->
  y = OVNACLPortGroupName (idOf ids a) \/ y = OVNACLNetworkPortGroupName (idOf ids a) netID ->
  forall r r', visitAll db project ids ign nic visits r = Ok r' ->
               ~ In y (removeACLPortGroups r').
Proof.
  intros Hu Hc Ha Hy.
  induction visits as [|v visits IH]; intros r r' H; [destruct Hu|]. simpl in H.
  destruct (visitUsage db project ids ign nic r v) as [r1|e] eqn:Hv; [|discriminate].
  destruct Hu as [->|Hu].
  - apply (visitUsage_counts _ _ _ _ _ _ _ _ _ Hc) in Hv. subst r1.
    intros Hin. apply (visitAll_remove _ _ _ _ _ _ _ _ H) in Hin.
    revert Hin. apply markUsed_takes_out with (a := a); assumption.
  - apply (IH Hu r1 r' H).
Qed.

(** X12: the port groups of an ACL in use on an OVN network stay: when
    the enumeration of the usages visits a usage of the ACL by an OVN
    network, or by a NIC of an instance or of a profile on an OVN
    network, and this usage is not the one to ignore, then neither the
    port group of the ACL nor its port group on that network is deleted
    by [OVNPortGroupDeleteIfUnused]. *)
Theorem reaper_keeps_acls_in_use_on_a_network
    db usedByFn project ign nic keepACLs acls visits enumErr u netID aclName (w : ovn.NB) :
  GetNetworkACLs db project = Ok acls ->
  usedByFn project (map fst acls) = (visits, enumErr) ->
  In u visits ->
  countsForNetwork db project ign nic u netID ->
  In aclName (matchedACLNames u) ->
  ovn.portGroups (snd (OVNPortGroupDeleteIfUnused db usedByFn project ign nic keepACLs w))
    !! OVNACLPortGroupName (idOf (aclNameIDsOf acls) aclName)
  = ovn.portGroups w !! OVNACLPortGroupName (idOf (aclNameIDsOf acls) aclName)
  /\ ovn.portGroups (snd (OVNPortGroupDeleteIfUnused db usedByFn project ign nic keepACLs w))
       !! OVNACLNetworkPortGroupName (idOf (aclNameIDsOf acls) aclName) netID
     = ovn.portGroups w !! OVNACLNetworkPortGroupName (idOf (aclNameIDsOf acls) aclName) netID.
Proof.
  intros Hacls Hvisits Hu Hc Ha.
  assert (Hkept : forall y,
             y = OVNACLPortGroupName (idOf (aclNameIDsOf acls) aclName)
             \/ y = OVNACLNetworkPortGroupName (idOf (aclNameIDsOf acls) aclName) netID ->
             ovn.portGroups
               (snd (OVNPortGroupDeleteIfUnused db usedByFn project ign nic keepACLs w)) !! y
             = ovn.portGroups w !! y).
  { intros y Hy. rewrite OVNPortGroupDeleteIfUnused_run, Hacls.
    destruct (GetProjectID db project) as [projectID|e]; [|reflexivity].
    destruct (ovn.faults w (ovn.calls w)); [reflexivity|].
    destruct (unusedPortGroups _ _ _ _ _ _ _ _ _) as [removed|e] eqn:Hun; [|reflexivity].
    destruct (0 <? length removed)%nat; [|reflexivity].
    destruct (ovn.faults w (S (ovn.calls w))); [reflexivity|]. simpl.
    apply deleteAll_lookup_notin. intros Hin.
    unfold unusedPortGroups in Hun. rewrite Hvisits in Hun.
    destruct (visitAll _ _ _ _ _ _ _) as [r|e] eqn:Hv; [|discriminate].
    destruct enumErr; [discriminate|]. injection Hun as <-.
    apply keepReferenced_remove in Hin. revert Hin.
    eapply visitAll_takes_out; eauto. }
  split; apply Hkept; auto.
Qed.

Lemma reaper_keeps_acls_in_use_on_a_network_witness :
  ovn.portGroups
    (snd (OVNPortGroupDeleteIfUnused fixtures.dbXY fixtures.usedByTwoNetworks "default"
            (IgnoreNetwork "mynet") "" [] (fixtures.nb fixtures.groupsXY)))
    !! "incus_acl7_net12"
  = Some (fixtures.group []).
Proof.
  pose proof (proj2 (reaper_keeps_acls_in_use_on_a_network
                       fixtures.dbXY fixtures.usedByTwoNetworks "default"
                       (IgnoreNetwork "mynet") "" [] [("x", 7); ("y", 9)] _ None
                       {| matchedACLNames := ["x"];
                          usedBy := UNetwork {| api.NetworkName := "othernet";
                                                api.NetworkType := "ovn" |};
                          nicName := ""; nicConfig := ∅ |}
                       12 "x" (fixtures.nb fixtures.groupsXY)
                       eq_refl eq_refl ltac:(right; left; reflexivity)
                       ltac:(split; [reflexivity|split; [eexists; reflexivity|discriminate]])
                       ltac:(left; reflexivity))) as H.
  change (OVNACLNetworkPortGroupName (idOf (aclNameIDsOf [("x", 7); ("y", 9)]) "x") 12)
    with "incus_acl7_net12" in H.
  rewrite H. vm_compute. reflexivity.
Defined.

Lemma fold_setAdd_In (l : list string) :
  forall (set : list string) (x : string),
    In x (fold_left setAdd l set) <-> In x set \/ In x l.
Proof.
  induction l as [|a l IH]; intros set x; simpl; [tauto|].
  rewrite IH, Contains_setAdd. intuition.
Qed.

Lemma recordReferrer_adds (m : list (string * list string)) (a b : string) :
  exists refs, In (a, refs) (recordReferrer m a b) /\ In b refs.
Proof.
  induction m as [|[k refs] m IH]; simpl.
  - exists [b]. split; left; reflexivity.
  - destruct (String.eqb_spec k a) as [->|_].
    + eexists. split; [left; reflexivity|].
      destruct (slices.Contains refs b) eqn:E; [apply Contains_In, E|].
      apply in_or_app. right. left. reflexivity.
    + destruct IH as (refs' & Hin & Hb). exists refs'. split; [right; exact Hin|exact Hb].
Qed.

Lemma recordReferrer_keeps (m : list (string * list string)) (a b a' b' : string) :
  (exists refs, In (a', refs) m /\ In b' refs) ->
  exists refs, In (a', refs) (recordReferrer m a b) /\ In b' refs.
Proof.
  induction m as [|[k refs] m IH]; intros (refs' & Hin & Hb); [destruct Hin|]. simpl.
  destruct Hin as [E|Hin].
  - injection E as -> ->.
    destruct (String.eqb a' a).
    + eexists. split; [left; reflexivity|].
      destruct (slices.Contains refs' b); [exact Hb|apply in_or_app; left; exact Hb].
    + exists refs'. split; [left; reflexivity|exact Hb].
  - destruct (String.eqb k a).
    + exists refs'. split; [right; exact Hin|exact Hb].
    + destruct (IH (ex_intro _ refs' (conj Hin Hb))) as (refs2 & Hin2 & Hb2).
      exists refs2. split; [right; exact Hin2|exact Hb2].
Qed.

Lemma recordReferrers_keeps (matched : list string) (b a' b' : string) :
  forall m,
    (exists refs, In (a', refs) m /\ In b' refs) ->
    exists refs,
      In (a', refs) (fold_left (fun m matched => recordReferrer m matched b) matched m)
      /\ In b' refs.
Proof.
  induction matched as [|a matched IH]; intros m H; simpl; [exact H|].
  apply IH. apply recordReferrer_keeps. exact H.
Qed.

Lemma recordReferrers_adds (matched : list string) (a b : string) :
  In a matched ->
  forall m,
    exists refs,
      In (a, refs) (fold_left (fun m matched => recordReferrer m matched b) matched m)
      /\ In b refs.
Proof.
  induction matched as [|a0 matched IH]; intros Ha m; [destruct Ha|]. simpl.
  destruct Ha as [->|Ha]; [|apply IH, Ha].
  apply recordReferrers_keeps. apply recordReferrer_adds.
Qed.

Lemma markUsed_fields ids netID matched r :
  ovnUsedACLs (markUsed ids netID matched r) = fold_left setAdd matched (ovnUsedACLs r)
  /\ aclUsedACLS (markUsed ids netID matched r) = aclUsedACLS r.
Proof. destruct r as [R U A]. rewrite markUsed_mk. auto. Qed.

(** A visit leaves in place the ACLs found in use and the referrers
    recorded. *)
Lemma visitUsage_grows db project ids ign nic r u r' :
  visitUsage db project ids ign nic r u = Ok r' ->
  (forall x, In x (ovnUsedACLs r) -> In x (ovnUsedACLs r'))
  /\ (forall a b, (exists refs, In (a, refs) (aclUsedACLS r) /\ In b refs) ->
                  exists refs, In (a, refs) (aclUsedACLS r') /\ In b refs).
Proof.
  unfold visitUsage. intros H.
  repeat match type of H with
         | context [if ?b then _ else _] => destruct b
         | context [match ?x with _ => _ end] => destruct x
         end;
    try discriminate; injection H as <-;
    first [ split; intros; assumption
          | destruct (markUsed_fields ids z (matchedACLNames u) r) as [-> ->];
            split; [intros x Hx; apply fold_setAdd_In; left; exact Hx|intros; assumption]
          | split; [intros; assumption|intros a b Hab; apply recordReferrers_keeps, Hab] ].
Qed.

Lemma visitAll_grows db project ids ign nic visits :
  forall r r',
    visitAll db project ids ign nic visits r = Ok r' ->
    (forall x, In x (ovnUsedACLs r) -> In x (ovnUsedACLs r'))
    /\ (forall a b, (exists refs, In (a, refs) (aclUsedACLS r) /\ In b refs) ->
                    exists refs, In (a, refs) (aclUsedACLS r') /\ In b refs).
Proof.
  induction visits as [|u visits IH]; intros r r' H; simpl in H.
  - injection H as <-. auto.
  - destruct (visitUsage db project ids ign nic r u) as [r1|e] eqn:Hu; [|discriminate].
    destruct (visitUsage_grows _ _ _ _ _ _ _ _ Hu) as [H1 H2].
    destruct (IH _ _ H) as [H3 H4]. split; auto.
Qed.

Lemma visitAll_in_use db project ids ign nic visits u netID x :
  In u visits ->
  countsForNetwork db project ign nic u netID ->
  In x (matchedACLNames u) ->
  forall r r', visitAll db project ids ign nic visits r = Ok r' -> In x (ovnUsedACLs r').
Proof.
  intros Hu Hc Hx.
  induction visits as [|v visits IH]; intros r r' H; [destruct Hu|]. simpl in H.
  destruct (visitUsage db project ids ign nic r v) as [r1|e] eqn:Hv; [|discriminate].
  destruct Hu as [->|Hu]; [|apply (IH Hu r1 r' H)].
  apply (visitUsage_counts _ _ _ _ _ _ _ _ _ Hc) in Hv. subst r1.
  apply (proj1 (visitAll_grows _ _ _ _ _ _ _ _ H)).
  destruct (markUsed_fields ids netID (matchedACLNames u) r) as [-> _].
  apply fold_setAdd_In. right. exact Hx.
Qed.

Lemma visitAll_referrer db project ids ign nic visits u a b :
  In u visits ->
  usedBy u = UNetworkACL b ->
  In a (matchedACLNames u) ->
  forall r r', visitAll db project ids ign nic visits r = Ok r' ->
               exists refs, In (a, refs) (aclUsedACLS r') /\ In b refs.
Proof.
  intros Hu Hb Ha.
  induction visits as [|v visits IH]; intros r r' H; [destruct Hu|]. simpl in H.
  destruct (visitUsage db project ids ign nic r v) as [r1|e] eqn:Hv; [|discriminate].
  destruct Hu as [->|Hu]; [|apply (IH Hu r1 r' H)].
  apply (proj2 (visitAll_grows _ _ _ _ _ _ _ _ H)).
  unfold visitUsage in Hv. rewrite Hb in Hv. injection Hv as <-. simpl.
  apply recordReferrers_adds, Ha.
Qed.

Lemma keepReferenced_takes_out ids r a refs b :
  In (a, refs) (aclUsedACLS r) -> In b refs -> In b (ovnUsedACLs r) ->
  ~ In (OVNACLPortGroupName (idOf ids a)) (keepReferenced ids r).
Proof.
  intros Hin Hb Hused.
  assert (Hu : usedByOvn (ovnUsedACLs r) refs = true).
  { unfold usedByOvn. apply existsb_exists. exists b. split; [exact Hb|].
    apply Contains_In. exact Hused. }
  unfold keepReferenced. generalize (removeACLPortGroups r) as R.
  induction (aclUsedACLS r) as [|entry A IH]; intros R; [destruct Hin|]. simpl.
  destruct Hin as [->|Hin]; [|apply IH, Hin].
  simpl. rewrite Hu. intros Hy.
  assert (Hsub : forall A' R', In (OVNACLPortGroupName (idOf ids a))
                   (fold_left
                      (fun remove entry =>
                         if usedByOvn (ovnUsedACLs r) (snd entry)
                         then setDelete remove (OVNACLPortGroupName (idOf ids (fst entry)))
                         else remove) A' R') ->
                 In (OVNACLPortGroupName (idOf ids a)) R').
  { induction A' as [|e' A' IH']; intros R' H'; simpl in H'; [exact H'|].
    apply IH' in H'.
    destruct (usedByOvn (ovnUsedACLs r) (snd e')); [apply setDelete_In in H'|]; exact H'. }
  apply Hsub in Hy. apply setDelete_In_iff in Hy as [_ Hy]. congruence.
Qed.

(** X13: the port group of an ACL that another ACL refers to stays
    while the referrer is in use: when the enumeration visits the usage
    of the ACL by an ACL that is listed in [keepACLs], or that a usage
    visited counts for an OVN network, [OVNPortGroupDeleteIfUnused]
    does not delete the port group of the ACL referred to. *)
Theorem reaper_keeps_acls_referenced_by_an_acl_in_use
    db usedByFn project ign nic keepACLs acls visits enumErr u referrer aclName (w : ovn.NB) :
  GetNetworkACLs db project = Ok acls ->
  usedByFn project (map fst acls) = (visits, enumErr) ->
  In u visits ->
  usedBy u = UNetworkACL referrer ->
  In aclName (matchedACLNames u) ->
  (In referrer keepACLs
   \/ exists u' netID,
        In u' visits /\ countsForNetwork db project ign nic u' netID
        /\ In referrer (matchedACLNames u')) ->
  ovn.portGroups (snd (OVNPortGroupDeleteIfUnused db usedByFn project ign nic keepACLs w))
    !! OVNACLPortGroupName (idOf (aclNameIDsOf acls) aclName)
  = ovn.portGroups w !! OVNACLPortGroupName (idOf (aclNameIDsOf acls) aclName).
Proof.
  intros Hacls Hvisits Hu Hby Ha Hused.
  rewrite OVNPortGroupDeleteIfUnused_run, Hacls.
  destruct (GetProjectID db project) as [projectID|e]; [|reflexivity].
  destruct (ovn.faults w (ovn.calls w)); [reflexivity|].
  destruct (unusedPortGroups _ _ _ _ _ _ _ _ _) as [removed|e] eqn:Hun; [|reflexivity].
  destruct (0 <? length removed)%nat; [|reflexivity].
  destruct (ovn.faults w (S (ovn.calls w))); [reflexivity|]. simpl.
  apply deleteAll_lookup_notin.
  unfold unusedPortGroups in Hun. rewrite Hvisits in Hun.
  destruct (visitAll _ _ _ _ _ _ _) as [r|e] eqn:Hv; [|discriminate].
  destruct enumErr; [discriminate|]. injection Hun as <-.
  destruct (visitAll_referrer _ _ _ _ _ _ _ _ _ Hu Hby Ha _ _ Hv) as (refs & Hin & Hb).
  apply (keepReferenced_takes_out _ _ _ _ _ Hin Hb).
  destruct Hused as [Hkeep|(u' & netID & Hu' & Hc & Hm)].
  - apply (proj1 (visitAll_grows _ _ _ _ _ _ _ _ Hv)). simpl.
    apply fold_setAdd_In. right. exact Hkeep.
  - eapply visitAll_in_use; eauto.
Qed.

Lemma reaper_keeps_acls_referenced_by_an_acl_in_use_witness :
  ovn.portGroups
    (snd (OVNPortGroupDeleteIfUnused fixtures.dbWebDb samples.webRefersToDb "default"
            IgnoreNothing "" [] (fixtures.nb samples.groupsWebDb)))
    !! "incus_acl2"
  = Some (fixtures.group []).
Proof.
  pose proof (reaper_keeps_acls_referenced_by_an_acl_in_use
                fixtures.dbWebDb samples.webRefersToDb "default" IgnoreNothing "" []
                [("web", 1); ("db", 2)] _ None
                {| matchedACLNames := ["db"]; usedBy := UNetworkACL "web";
                   nicName := ""; nicConfig := ∅ |}
                "web" "db" (fixtures.nb samples.groupsWebDb)
                eq_refl eq_refl ltac:(left; reflexivity) eq_refl ltac:(left; reflexivity)
                ltac:(right;
                      exists {| matchedACLNames := ["web"];
                                usedBy := UNetwork {| api.NetworkName := "mynet";
                                                      api.NetworkType := "ovn" |};
                                nicName := ""; nicConfig := ∅ |}, 3;
                      split; [right; left; reflexivity|];
                      split; [|left; reflexivity];
                      split; [reflexivity|split; [eexists; reflexivity|discriminate]])) as H.
  change (OVNACLPortGroupName (idOf (aclNameIDsOf [("web", 1); ("db", 2)]) "db"))
    with "incus_acl2" in H.
  rewrite H. vm_compute. reflexivity.
Defined.

(** Without a referrer in use the port group of the ACL goes. *)
Example reaper_drops_acls_referenced_by_an_unused_acl :
  dom (ovn.portGroups
         (snd (OVNPortGroupDeleteIfUnused fixtures.dbWebDb
                 (fun _ _ => ([{| matchedACLNames := ["db"]; usedBy := UNetworkACL "web";
                                  nicName := ""; nicConfig := ∅ |}], None))
                 "default" IgnoreNothing "" [] (fixtures.nb samples.groupsWebDb))))
  = ∅.
Proof. vm_compute. reflexivity. Qed.

(** ** [OVNEnsureACLs]: what a run finds and what it leaves *)

Section EnsureOutcome.

Context {netlib : NetLib}.

Lemma checkACLNames_missing (ids : gmap string Z) (names : list string) (n : string) :
  In n names -> ids !! n = None -> exists e, checkACLNames ids names = Err e.
Proof.
  induction names as [|a names IH]; intros Hin Hn; [destruct Hin|]. simpl.
  destruct (ids !! a) eqn:Ea; [|eauto].
  destruct Hin as [->|Hin]; [congruence|]. apply IH; assumption.
Qed.

(** X14: [OVNEnsureACLs] checks the names before it calls the client:
    when one of the ACLs requested has no ID in [aclNameIDs], it returns
    an error and the northbound database is as it was, down to the
    number of calls made. *)
Theorem OVNEnsureACLs_unknown_name_before_any_call
    db project ids nets names reapply (w : ovn.NB) (aclName : string) :
  In aclName names ->
  ids !! aclName = None ->
  exists e, OVNEnsureACLs db project ids nets names reapply w = (Err e, w).
Proof.
  intros Hin Hnone.
  unfold OVNEnsureACLs, ensureACLs, bind, lift, wrapR.
  destruct (GetProjectID db project) as [projectID|e]; [|eexists; reflexivity].
  destruct (loadPeerTargetNetIDs db project) as [peers|e]; [|eexists; reflexivity].
  destruct (checkACLNames_missing ids names aclName Hin Hnone) as [e ->].
  eexists; reflexivity.
Qed.

End EnsureOutcome.

Section EnsureOutcomeWitness.

#[local] Existing Instance gonet.lib.

Lemma OVNEnsureACLs_unknown_name_before_any_call_witness :
  exists e,
    OVNEnsureACLs fixtures.dbAB "default" fixtures.idsAB [fixtures.mynet] ["a"; "zz"] true
      (fixtures.nb fixtures.groupsAB)
    = (Err e, fixtures.nb fixtures.groupsAB).
Proof.
  apply (OVNEnsureACLs_unknown_name_before_any_call fixtures.dbAB "default" fixtures.idsAB
           [fixtures.mynet] ["a"; "zz"] true (fixtures.nb fixtures.groupsAB) "zz").
  - right. left. reflexivity.
  - vm_compute. reflexivity.
Defined.

End EnsureOutcomeWitness.

(** *** Port groups stay, and the port groups of ACLs keep rules *)

Lemma growsNB_refl (w : ovn.NB) : growsNB w w.
Proof. split; auto. Qed.

Lemma growsNB_trans (w1 w2 w3 : ovn.NB) : growsNB w1 w2 -> growsNB w2 w3 -> growsNB w1 w3.
Proof. intros [H1 H2] [H3 H4]. split; auto. Qed.

Lemma rtc_growsNB (w w' : ovn.NB) : rtc growsNB w w' -> growsNB w w'.
Proof.
  induction 1 as [|x y z Hxy _ IH]; [apply growsNB_refl|].
  eapply growsNB_trans; eauto.
Qed.

Lemma rtc_grows (s s' : Run) : rtc grows s s' -> grows s s'.
Proof.
  induction 1 as [|x y z Hxy _ IH]; [apply growsNB_refl|].
  unfold grows in *. eapply growsNB_trans; eauto.
Qed.

Lemma growsNB_same (w w' : ovn.NB) : ovn.portGroups w' = ovn.portGroups w -> growsNB w w'.
Proof. intros H. unfold growsNB, carriesRules. rewrite H. auto. Qed.

Lemma follows_grows_GetPortGroupInfo (name : string) :
  follows growsNB (ovn.GetPortGroupInfo name).
Proof. intros w. apply rtc_once, growsNB_same, GetPortGroupInfo_groups. Qed.

Lemma follows_grows_Update (name : string) matchReplace (rules : list ovn.OVNACLRule) :
  (rules = [] -> forall aclID, name <> OVNACLPortGroupName aclID) ->
  follows growsNB (ovn.UpdatePortGroupACLRules name matchReplace rules).
Proof.
  intros H w. apply rtc_once. unfold ovn.UpdatePortGroupACLRules, ovn.call.
  destruct (ovn.faults w (ovn.calls w)); [apply growsNB_same; reflexivity|]. simpl.
  destruct (ovn.portGroups w !! name) as [g|] eqn:Hg; [|apply growsNB_same; reflexivity].
  split; simpl.
  - intros n Hn. destruct (decide (name = n)) as [->|Hne].
    + rewrite lookup_insert_eq. eauto.
    + rewrite lookup_insert_ne by exact Hne. exact Hn.
  - intros aclID (g0 & Hg0 & Hne). unfold carriesRules. simpl.
    destruct (decide (name = OVNACLPortGroupName aclID)) as [E|Hd].
    + rewrite <- E. eexists. rewrite lookup_insert_eq. split; [reflexivity|].
      simpl. intros Hmap. apply map_eq_nil in Hmap. exact (H Hmap aclID E).
    + exists g0. rewrite lookup_insert_ne by exact Hd. auto.
Qed.

Lemma follows_grows_onClient {A} (m : M ovn.NB A) :
  follows growsNB m -> follows grows (onClient m).
Proof.
  intros Hm s. apply rtc_once. unfold grows, onClient.
  specialize (Hm (client s)). apply rtc_growsNB in Hm.
  destruct (m (client s)); simpl. exact Hm.
Qed.

Lemma follows_grows_createPortGroup context projectID name parent switch members :
  follows grows (createPortGroup context projectID name parent switch members).
Proof.
  intros [w rv]. apply rtc_once. unfold grows.
  unfold createPortGroup, bind, onClient, wrap, ovn.CreatePortGroup, ovn.call, reverterAdd.
  simpl.
  destruct (ovn.faults w (ovn.calls w)); simpl; [apply growsNB_same; reflexivity|].
  destruct (ovn.portGroups w !! name) as [g|] eqn:Hg; simpl;
    [apply growsNB_same; reflexivity|].
  split; simpl.
  - intros n Hn. destruct (decide (name = n)) as [->|Hne].
    + rewrite lookup_insert_eq. eauto.
    + rewrite lookup_insert_ne by exact Hne. exact Hn.
  - intros aclID (g0 & Hg0 & Hne). unfold carriesRules. simpl.
    destruct (decide (name = OVNACLPortGroupName aclID)) as [E|Hd]; [congruence|].
    exists g0. rewrite lookup_insert_ne by exact Hd. auto.
Qed.

Lemma follows_bind_lift {S A B} (R : relation S) (r : result A) (k : A -> M S B) :
  (forall a, r = Ok a -> follows R (k a)) -> follows R (bind (lift r) k).
Proof.
  intros Hk s. unfold bind, lift. destruct r as [a|e]; [apply Hk; reflexivity|apply rtc_refl].
Qed.

Section Grows.

Context {netlib : NetLib}.

Lemma compileACL_rules_nonempty db acl pg ids peers c :
  compileACL db acl pg ids peers = Ok c -> portGroupRules c <> [].
Proof.
  intros H. apply compileACL_inv in H as (? & ? & c2 & _ & _ & Hpg & _).
  rewrite Hpg. destruct (portGroupRules c2); discriminate.
Qed.

Lemma follows_grows_ovnApplyToPortGroup db aclInfo portGroupName ids nets peers :
  follows growsNB (ovnApplyToPortGroup db aclInfo portGroupName ids nets peers).
Proof.
  unfold ovnApplyToPortGroup.
  apply follows_bind_lift. intros c Hc.
  apply follows_bind; [apply follows_lift|]. intros _.
  apply follows_bind.
  - apply follows_wrap, follows_grows_Update. intros E.
    apply compileACL_rules_nonempty in Hc. contradiction.
  - intros _. apply follows_forEach. intros aclNet.
    apply follows_wrap, follows_grows_Update. intros _ aclID.
    apply network_name_is_no_acl_name.
Qed.

Lemma follows_grows_createNetworkPortGroups projectID aclID portGroupName nets :
  follows grows (createNetworkPortGroups projectID aclID portGroupName nets).
Proof.
  unfold createNetworkPortGroups. apply follows_forEach. intros aclNet.
  apply follows_grows_createPortGroup.
Qed.

Lemma follows_grows_apply db project portGroupName ids nets peers (st : option api.NetworkACL) :
  follows grows
    match st with
    | Some info =>
        onClient (wrap "Failed applying ACL rules to port group for security ACL"
                    (ovnApplyToPortGroup db (api.withProject info project)
                       portGroupName ids nets peers))
    | None => ret tt
    end.
Proof.
  destruct st as [i|]; [|apply follows_ret].
  apply follows_grows_onClient, follows_wrap, follows_grows_ovnApplyToPortGroup.
Qed.

Lemma follows_grows_createReferenced projectID ids refs :
  follows grows (createReferenced projectID ids refs).
Proof.
  unfold createReferenced. apply follows_forEach. intros aclName.
  apply follows_bind.
  - apply follows_grows_onClient, follows_wrap, follows_grows_GetPortGroupInfo.
  - intros info. apply follows_if; [apply follows_grows_createPortGroup|apply follows_ret].
Qed.

Lemma follows_grows_createRequested_body db projectID project ids nets peers st :
  follows grows
    (_ <- createPortGroup "Failed creating port group for security ACL"
            projectID (OVNACLPortGroupName (idOf ids (name st))) "" "" [] ;;
     _ <- createNetworkPortGroups projectID (idOf ids (name st))
            (OVNACLPortGroupName (idOf ids (name st))) nets ;;
     match aclInfo st with
     | Some info =>
         onClient (wrap "Failed applying ACL rules to port group for security ACL"
                     (ovnApplyToPortGroup db (api.withProject info project)
                        (OVNACLPortGroupName (idOf ids (name st))) ids nets peers))
     | None => ret tt
     end).
Proof.
  apply follows_bind; [apply follows_grows_createPortGroup|]. intros _.
  apply follows_bind; [apply follows_grows_createNetworkPortGroups|]. intros _.
  apply follows_grows_apply.
Qed.

Lemma follows_grows_updateExisting_body db projectID project ids nets peers st :
  follows grows
    (_ <- createNetworkPortGroups projectID (idOf ids (name st))
            (OVNACLPortGroupName (idOf ids (name st))) (addACLNets st) ;;
     match aclInfo st with
     | Some info =>
         onClient (wrap "Failed applying ACL rules to port group for security ACL"
                     (ovnApplyToPortGroup db (api.withProject info project)
                        (OVNACLPortGroupName (idOf ids (name st))) ids nets peers))
     | None => ret tt
     end).
Proof.
  apply follows_bind; [apply follows_grows_createNetworkPortGroups|]. intros _.
  apply follows_grows_apply.
Qed.

End Grows.

Lemma GetPortGroupInfo_ok (name : string) (w w' : ovn.NB) (present hasACLs : bool) :
  ovn.GetPortGroupInfo name w = (Ok (present, hasACLs), w') ->
  w' = ovn.tick w
  /\ (present = true <-> is_Some (ovn.portGroups w !! name))
  /\ (hasACLs = true <-> carriesRules name w).
Proof.
  unfold ovn.GetPortGroupInfo, ovn.call, carriesRules.
  destruct (ovn.faults w (ovn.calls w)); [discriminate|]. simpl.
  destruct (ovn.portGroups w !! name) as [g|]; intros H; injection H as <- <- <-.
  - split; [reflexivity|]. split; [split; eauto|].
    destruct (ovn.ACLs g) as [|r rules] eqn:Hacls; simpl; split.
    + discriminate.
    + intros (g' & E & Hne). injection E as <-. contradiction.
    + intros _. eexists. split; [reflexivity|]. rewrite Hacls. discriminate.
    + reflexivity.
  - split; [reflexivity|]. split; split; try discriminate.
    + intros [? ?]. discriminate.
    + intros (g' & E & _). discriminate.
Qed.

Lemma UpdatePortGroupACLRules_ok (name : string) matchReplace rules (w w' : ovn.NB) :
  ovn.UpdatePortGroupACLRules name matchReplace rules w = (Ok tt, w') ->
  rules <> [] -> carriesRules name w'.
Proof.
  unfold ovn.UpdatePortGroupACLRules, ovn.call, carriesRules.
  destruct (ovn.faults w (ovn.calls w)); [discriminate|]. simpl.
  destruct (ovn.portGroups w !! name) as [g|]; [|discriminate].
  intros H Hne. injection H as <-. simpl. eexists. rewrite lookup_insert_eq.
  split; [reflexivity|]. simpl. intros E. apply map_eq_nil in E. contradiction.
Qed.

Lemma createPortGroup_ok context projectID name parent switch members (s s' : Run) :
  createPortGroup context projectID name parent switch members s = (Ok tt, s') ->
  is_Some (ovn.portGroups (client s') !! name).
Proof.
  destruct s as [w rv].
  unfold createPortGroup, bind, onClient, wrap, ovn.CreatePortGroup, ovn.call, reverterAdd.
  simpl.
  destruct (ovn.faults w (ovn.calls w)); [discriminate|]. simpl.
  destruct (ovn.portGroups w !! name); [discriminate|]. simpl.
  intros H. injection H as <-. simpl. rewrite lookup_insert_eq. eauto.
Qed.

Lemma usagePut_In (m : list NetworkACLUsage) (u : NetworkACLUsage) : In u (usagePut m u).
Proof.
  induction m as [|v m IH]; simpl; [auto|].
  destruct (String.eqb (UsageName v) (UsageName u)); simpl; auto.
Qed.

Lemma usagePut_keeps (m : list NetworkACLUsage) (u v : NetworkACLUsage) :
  In v m -> UsageName v <> UsageName u -> In v (usagePut m u).
Proof.
  induction m as [|x m IH]; intros Hin Hne; [destruct Hin|]. simpl.
  destruct (String.eqb_spec (UsageName x) (UsageName u)) as [E|_].
  - destruct Hin as [->|Hin]; [contradiction|right; exact Hin].
  - destruct Hin as [->|Hin]; [left; reflexivity|right; auto].
Qed.

Lemma usagePut_inv (m : list NetworkACLUsage) (u v : NetworkACLUsage) :
  In v (usagePut m u) -> v = u \/ In v m.
Proof.
  induction m as [|x m IH]; simpl.
  - intros [<-|[]]. auto.
  - destruct (String.eqb (UsageName x) (UsageName u)); simpl.
    + intros [<-|H]; auto.
    + intros [<-|H]; auto. destruct (IH H); auto.
Qed.

(** The loop of [OVNEnsureACLs] that looks for the port groups of an
    ACL on the networks: it changes no port group, and a network whose
    port group is missing is among those it returns. *)
Lemma missing_networks (aclID : Z) (nets : list NetworkACLUsage) :
  forall (add0 add : list NetworkACLUsage) (w w' : ovn.NB),
    NoDup (map UsageName nets) ->
    (forall v, In v add0 -> ~ In (UsageName v) (map UsageName nets)) ->
    foldM nets add0
      (fun add aclNet =>
         let netPortGroupName := OVNACLNetworkPortGroupName aclID (UsageID aclNet) in
         netInfo <- wrap "Failed getting port group UUID"
                      (ovn.GetPortGroupInfo netPortGroupName) ;;
         ret (if negb (fst netInfo) then usagePut add aclNet else add)) w = (Ok add, w') ->
    ovn.portGroups w' = ovn.portGroups w
    /\ (forall v, In v add0 -> In v add)
    /\ (forall net, In net nets ->
          In net add
          \/ is_Some (ovn.portGroups w !! OVNACLNetworkPortGroupName aclID (UsageID net)))
    /\ ((forall net, In net nets ->
           is_Some (ovn.portGroups w !! OVNACLNetworkPortGroupName aclID (UsageID net))) ->
        add = add0).
Proof.
  induction nets as [|net nets IH]; intros add0 add w w' Hnd Hdisj H.
  - simpl in H. injection H as <- <-. repeat split; auto. intros net [].
  - cbn [foldM] in H. unfold bind at 1 in H. unfold bind at 1, wrap, ret in H.
    destruct (ovn.GetPortGroupInfo (OVNACLNetworkPortGroupName aclID (UsageID net)) w)
      as [[[present hasACLs]|e] w1] eqn:Hinfo; [|discriminate].
    apply GetPortGroupInfo_ok in Hinfo as (-> & Hpresent & _).
    cbn [fst] in H.
    apply NoDup_cons in Hnd as [Hnotin Hnd]. fold (map UsageName nets) in Hnotin, Hnd.
    apply IH in H as (Hgroups & Hkeep & Hall & Hnone); [|exact Hnd|].
    + simpl in Hgroups, Hall, Hnone. split; [exact Hgroups|]. split; [|split].
      * intros v Hv. apply Hkeep. destruct present; simpl; [exact Hv|].
        apply usagePut_keeps; [exact Hv|]. intros E. apply (Hdisj v Hv). left. auto.
      * intros net' [<-|Hin]; [|apply Hall, Hin].
        destruct present; simpl in *.
        -- right. apply Hpresent. reflexivity.
        -- left. apply Hkeep. apply usagePut_In.
      * intros Hp. rewrite Hnone by (intros n Hn; apply Hp; right; exact Hn).
        assert (present = true) as -> by (apply Hpresent, Hp; left; reflexivity).
        reflexivity.
    + intros v Hv Hin. destruct present; simpl in Hv.
      * apply (Hdisj v Hv). right. exact Hin.
      * apply usagePut_inv in Hv as [->|Hv].
        -- apply Hnotin. apply list_elem_of_In. exact Hin.
        -- apply (Hdisj v Hv). right. exact Hin.
Qed.

Section EnsurePost.

Context {netlib : NetLib}.

(** What the classification of one ACL finds. *)
Lemma classifyACL_ok db project ids nets reapply ex cr n (w : ovn.NB) ex' cr' w' :
  NoDup (map UsageName nets) ->
  classifyACL db project ids nets reapply (ex, cr) n w = (Ok (ex', cr'), w') ->
  ovn.portGroups w' = ovn.portGroups w
  /\ ((ex' = ex
       /\ exists info, cr' = cr ++ [{| name := n; aclInfo := Some info; addACLNets := [] |}])
      \/ (cr' = cr
          /\ exists st,
               ex' = ex ++ [st] /\ name st = n
               /\ is_Some (ovn.portGroups w !! OVNACLPortGroupName (idOf ids n))
               /\ (aclInfo st = None -> carriesRules (OVNACLPortGroupName (idOf ids n)) w)
               /\ forall net, In net nets ->
                    In net (addACLNets st)
                    \/ is_Some (ovn.portGroups w
                                  !! OVNACLNetworkPortGroupName (idOf ids n) (UsageID net)))).
Proof.
  intros Hnd. unfold classifyACL.
  unfold bind at 1. unfold wrap at 1.
  destruct (ovn.GetPortGroupInfo (OVNACLPortGroupName (idOf ids n)) w)
    as [[[present hasACLs]|e] w1] eqn:Hinfo; [|discriminate].
  apply GetPortGroupInfo_ok in Hinfo as (-> & Hpresent & Hhas).
  destruct present; cbn [negb]; cbv iota.
  - unfold bind at 1.
    match goal with
    | |- context [foldM nets [] ?body (ovn.tick w)] =>
        destruct (foldM nets [] body (ovn.tick w)) as [[add|e] w2] eqn:Hadd; [|discriminate]
    end.
    apply (missing_networks (idOf ids n) nets [] add (ovn.tick w) w2 Hnd) in Hadd
      as (Hgroups & _ & Hall & _); [|intros v []].
    simpl in Hgroups, Hall.
    unfold bind, lift, ret, wrapR.
    destruct (reapply || negb hasACLs || (0 <? length add)%nat) eqn:Hcond.
    + destruct (GetNetworkACLAPI db project n) as [a|e]; [|discriminate].
      intros H. injection H as <- <- <-. split; [exact Hgroups|]. right. split; [reflexivity|].
      eexists. split; [reflexivity|]. simpl. split; [reflexivity|].
      split; [apply Hpresent; reflexivity|]. split; [discriminate|exact Hall].
    + intros H. injection H as <- <- <-. split; [exact Hgroups|]. right. split; [reflexivity|].
      eexists. split; [reflexivity|]. simpl. split; [reflexivity|].
      split; [apply Hpresent; reflexivity|]. split; [|exact Hall].
      intros _. apply Hhas.
      apply orb_false_iff in Hcond as [Hcond _]. apply orb_false_iff in Hcond as [_ Hcond].
      apply negb_false_iff in Hcond. exact Hcond.
  - unfold bind, lift, ret, wrapR.
    destruct (GetNetworkACLAPI db project n) as [a|e]; [|discriminate].
    intros H. injection H as <- <- <-. split; [reflexivity|]. left. split; [reflexivity|].
    eexists. reflexivity.
Qed.

(** What the classification of the ACLs requested finds: every one of
    them is to create, with its body loaded, or exists, with the
    networks that miss a port group listed and its body loaded unless it
    carries rules. *)
Lemma classification_ok db project ids nets reapply names :
  NoDup (map UsageName nets) ->
  forall ex cr (w : ovn.NB) ex' cr' w',
    foldM names (ex, cr) (classifyACL db project ids nets reapply) w = (Ok (ex', cr'), w') ->
    ovn.portGroups w' = ovn.portGroups w
    /\ (forall st, In st ex -> In st ex')
    /\ (forall st, In st cr -> In st cr')
    /\ forall n, In n names ->
         (exists st, In st cr' /\ name st = n /\ aclInfo st <> None)
         \/ (exists st,
               In st ex' /\ name st = n
               /\ is_Some (ovn.portGroups w !! OVNACLPortGroupName (idOf ids n))
               /\ (aclInfo st = None -> carriesRules (OVNACLPortGroupName (idOf ids n)) w)
               /\ forall net, In net nets ->
                    In net (addACLNets st)
                    \/ is_Some (ovn.portGroups w
                                  !! OVNACLNetworkPortGroupName (idOf ids n) (UsageID net))).
Proof.
  intros Hnd. induction names as [|n names IH]; intros ex cr w ex' cr' w' H.
  - simpl in H. injection H as <- <- <-. repeat split; auto. intros n [].
  - cbn [foldM] in H. unfold bind at 1 in H.
    destruct (classifyACL db project ids nets reapply (ex, cr) n w)
      as [[[ex1 cr1]|e] w1] eqn:Hone; [|discriminate].
    apply (classifyACL_ok _ _ _ _ _ _ _ _ _ _ _ _ Hnd) in Hone as [Hg1 Hone].
    apply IH in H as (Hg & Hex & Hcr & Hall).
    unfold carriesRules in *. rewrite Hg1 in Hg, Hall.
    split; [exact Hg|].
    assert (Hex1 : forall st, In st ex -> In st ex1).
    { destruct Hone as [[-> _]|[_ (st & -> & _)]]; intros st' Hst; [exact Hst|].
      apply in_or_app. left. exact Hst. }
    assert (Hcr1 : forall st, In st cr -> In st cr1).
    { destruct Hone as [[_ (info & ->)]|[-> _]]; intros st' Hst; [|exact Hst].
      apply in_or_app. left. exact Hst. }
    split; [auto|]. split; [auto|].
    intros n' [<-|Hin]; [|apply Hall, Hin].
    destruct Hone as [[_ (info & ->)]|[_ (st & -> & Hname & Hp & Hc & Hn)]].
    + left. eexists. split; [apply Hcr, in_or_app; right; left; reflexivity|].
      split; [reflexivity|discriminate].
    + right. exists st. split; [apply Hex, in_or_app; right; left; reflexivity|]. auto.
Qed.

Lemma createNetworkPortGroups_ok projectID aclID portGroupName nets :
  forall s s',
    createNetworkPortGroups projectID aclID portGroupName nets s = (Ok tt, s') ->
    forall net, In net nets ->
      is_Some (ovn.portGroups (client s') !! OVNACLNetworkPortGroupName aclID (UsageID net)).
Proof.
  unfold createNetworkPortGroups.
  induction nets as [|net0 nets IH]; intros s s' H net Hin; [destruct Hin|].
  cbn [forEach] in H. unfold bind at 1 in H.
  match type of H with
  | context [createPortGroup ?c ?p ?n ?pa ?sw ?m s] =>
      destruct (createPortGroup c p n pa sw m s) as [[[]|e] s1] eqn:Hc; [|discriminate]
  end.
  destruct Hin as [<-|Hin]; [|apply (IH _ _ H), Hin].
  apply createPortGroup_ok in Hc.
  pose proof (follows_grows_createNetworkPortGroups projectID aclID portGroupName nets s1)
    as Hg.
  unfold createNetworkPortGroups in Hg. rewrite H in Hg. apply rtc_grows in Hg.
  apply (proj1 Hg). exact Hc.
Qed.

Lemma apply_ok db project info aclID ids nets peers (s s' : Run) :
  onClient (wrap "Failed applying ACL rules to port group for security ACL"
              (ovnApplyToPortGroup db (api.withProject info project)
                 (OVNACLPortGroupName aclID) ids nets peers)) s = (Ok tt, s') ->
  carriesRules (OVNACLPortGroupName aclID) (client s').
Proof.
  unfold onClient, wrap.
  destruct (ovnApplyToPortGroup _ _ _ _ _ _ (client s)) as [[[]|e] w'] eqn:Happly;
    [|discriminate].
  intros H. injection H as <-. simpl.
  unfold ovnApplyToPortGroup, bind, lift in Happly.
  destruct (compileACL _ _ _ _ _) as [c|e] eqn:Hc; [|discriminate].
  destruct (checkPeers _ _); [|discriminate].
  unfold wrap at 1 in Happly.
  destruct (ovn.UpdatePortGroupACLRules (OVNACLPortGroupName aclID) [] (portGroupRules c)
              (client s)) as [[[]|e] w1] eqn:Hup; [|discriminate].
  apply UpdatePortGroupACLRules_ok in Hup; [|eapply compileACL_rules_nonempty; eauto].
  match type of Happly with
  | forEach ?l ?body w1 = _ =>
      assert (Hg : follows growsNB (forEach l body))
  end.
  { apply follows_forEach. intros aclNet.
    apply follows_wrap, follows_grows_Update. intros _ id.
    apply network_name_is_no_acl_name. }
  specialize (Hg w1). rewrite Happly in Hg. apply rtc_growsNB in Hg.
  apply (proj2 Hg). exact Hup.
Qed.

Lemma createRequested_ok db projectID project ids nets peers create :
  forall s s',
    createRequested db projectID project ids nets peers create s = (Ok tt, s') ->
    forall st, In st create -> aclInfo st <> None ->
      carriesRules (OVNACLPortGroupName (idOf ids (name st))) (client s')
      /\ forall net, In net nets ->
           is_Some (ovn.portGroups (client s')
                      !! OVNACLNetworkPortGroupName (idOf ids (name st)) (UsageID net)).
Proof.
  unfold createRequested.
  induction create as [|st0 create IH]; intros s s' H st Hin Hinfo; [destruct Hin|].
  cbn [forEach] in H. unfold bind at 1 in H.
  match type of H with
  | context [match ?body s with _ => _ end] =>
      destruct (body s) as [[[]|e] s1] eqn:Hbody; [|discriminate]
  end.
  destruct Hin as [<-|Hin]; [|exact (IH _ _ H st Hin Hinfo)].
  assert (Hrest : grows s1 s').
  { match type of H with
    | forEach ?l ?body s1 = _ =>
        assert (Hg : follows grows (forEach l body))
          by (apply follows_forEach; intros x;
              apply (follows_grows_createRequested_body db projectID project ids nets peers x))
    end.
    specialize (Hg s1). rewrite H in Hg. apply rtc_grows, Hg. }
  unfold bind at 1 in Hbody.
  match type of Hbody with
  | context [createPortGroup ?c ?p ?n ?pa ?sw ?m s] =>
      destruct (createPortGroup c p n pa sw m s) as [[[]|e] s2] eqn:Hc; [|discriminate]
  end.
  unfold bind at 1 in Hbody.
  destruct (createNetworkPortGroups projectID (idOf ids (name st0))
              (OVNACLPortGroupName (idOf ids (name st0))) nets s2)
    as [[[]|e] s3] eqn:Hn; [|discriminate].
  destruct (aclInfo st0) as [info|]; [|contradiction].
  split.
  - apply (proj2 Hrest). eapply apply_ok. exact Hbody.
  - intros net Hnet. apply (proj1 Hrest).
    pose proof (follows_grows_apply db project (OVNACLPortGroupName (idOf ids (name st0)))
                  ids nets peers (Some info) s3) as Hg.
    cbv beta iota in Hg. rewrite Hbody in Hg. apply rtc_grows in Hg.
    apply (proj1 Hg). eapply createNetworkPortGroups_ok; eauto.
Qed.

Lemma updateExisting_ok db projectID project ids nets peers existing :
  forall s s',
    updateExisting db projectID project ids nets peers existing s = (Ok tt, s') ->
    forall st, In st existing ->
      (aclInfo st <> None ->
       carriesRules (OVNACLPortGroupName (idOf ids (name st))) (client s'))
      /\ forall net, In net (addACLNets st) ->
           is_Some (ovn.portGroups (client s')
                      !! OVNACLNetworkPortGroupName (idOf ids (name st)) (UsageID net)).
Proof.
  unfold updateExisting.
  induction existing as [|st0 existing IH]; intros s s' H st Hin; [destruct Hin|].
  cbn [forEach] in H. unfold bind at 1 in H.
  match type of H with
  | context [match ?body s with _ => _ end] =>
      destruct (body s) as [[[]|e] s1] eqn:Hbody; [|discriminate]
  end.
  destruct Hin as [<-|Hin]; [|exact (IH _ _ H st Hin)].
  assert (Hrest : grows s1 s').
  { match type of H with
    | forEach ?l ?body s1 = _ =>
        assert (Hg : follows grows (forEach l body))
          by (apply follows_forEach; intros x;
              apply (follows_grows_updateExisting_body db projectID project ids nets peers x))
    end.
    specialize (Hg s1). rewrite H in Hg. apply rtc_grows, Hg. }
  unfold bind at 1 in Hbody.
  destruct (createNetworkPortGroups projectID (idOf ids (name st0))
              (OVNACLPortGroupName (idOf ids (name st0))) (addACLNets st0) s)
    as [[[]|e] s3] eqn:Hn; [|discriminate].
  split.
  - intros Hinfo. destruct (aclInfo st0) as [info|]; [|contradiction].
    apply (proj2 Hrest). eapply apply_ok. exact Hbody.
  - intros net Hnet. apply (proj1 Hrest).
    pose proof (follows_grows_apply db project (OVNACLPortGroupName (idOf ids (name st0)))
                  ids nets peers (aclInfo st0) s3) as Hg.
    rewrite Hbody in Hg. apply rtc_grows in Hg.
    apply (proj1 Hg). eapply createNetworkPortGroups_ok; eauto.
Qed.

(** What a run without error leaves in place. *)
Lemma OVNEnsureACLs_settled_after
    db project ids nets names reapply (w w' : ovn.NB) (cleanup : revert.Hook) :
  NoDup (map UsageName nets) ->
  OVNEnsureACLs db project ids nets names reapply w = (Ok cleanup, w') ->
  forall aclName, In aclName names ->
    carriesRules (OVNACLPortGroupName (idOf ids aclName)) w'
    /\ forall net, In net nets ->
         is_Some (ovn.portGroups w'
                    !! OVNACLNetworkPortGroupName (idOf ids aclName) (UsageID net)).
Proof.
  intros Hnd H aclName Hin.
  unfold OVNEnsureACLs in H.
  destruct (ensureACLs db project ids nets names reapply
              {| client := w; reverter := revert.New |}) as [[[]|e] sf] eqn:Hrun;
    [|discriminate].
  injection H as _ <-. change (revert.Fail (revert.Success (reverter sf)) (client sf))
    with (client sf).
  unfold ensureACLs in Hrun. unfold bind at 1, lift in Hrun.
  destruct (wrapR _ (GetProjectID db project)) as [projectID|e]; [|discriminate].
  unfold bind at 1 in Hrun.
  destruct (loadPeerTargetNetIDs db project) as [peers|e]; [|discriminate].
  unfold bind at 1 in Hrun.
  destruct (checkACLNames ids names); [|discriminate].
  unfold bind at 1, onClient at 1 in Hrun. cbn [client reverter] in Hrun.
  destruct (foldM names ([], []) (classifyACL db project ids nets reapply) w)
    as [[[existing create]|e] w2] eqn:Hclass; [|discriminate].
  apply (classification_ok _ _ _ _ _ _ Hnd) in Hclass as (Hg2 & _ & _ & Hall).
  unfold bind at 1 in Hrun.
  destruct (createReferenced projectID ids _ _) as [[[]|e] s3] eqn:Href; [|discriminate].
  unfold bind at 1 in Hrun.
  destruct (createRequested db projectID project ids nets peers create s3)
    as [[[]|e] s4] eqn:Hcreate; [|discriminate].
  assert (G23 : grows {| client := w2; reverter := revert.New |} s3).
  { pose proof (follows_grows_createReferenced projectID ids
                  (referencedACLsOf reapply existing create)
                  {| client := w2; reverter := revert.New |}) as Hg.
    rewrite Href in Hg. apply rtc_grows, Hg. }
  assert (G34 : grows s3 s4).
  { assert (Hg : follows grows (createRequested db projectID project ids nets peers create))
      by (apply follows_forEach; intros x;
          apply (follows_grows_createRequested_body db projectID project ids nets peers x)).
    specialize (Hg s3). rewrite Hcreate in Hg. apply rtc_grows, Hg. }
  assert (G4f : grows s4 sf).
  { assert (Hg : follows grows (updateExisting db projectID project ids nets peers existing))
      by (apply follows_forEach; intros x;
          apply (follows_grows_updateExisting_body db projectID project ids nets peers x)).
    specialize (Hg s4). rewrite Hrun in Hg. apply rtc_grows, Hg. }
  assert (G2f : growsNB w2 (client sf)).
  { eapply growsNB_trans; [exact G23|]. eapply growsNB_trans; [exact G34|exact G4f]. }
  assert (Hw2 : forall n, ovn.portGroups w2 !! n = ovn.portGroups w !! n)
    by (intros n; rewrite Hg2; reflexivity).
  destruct (Hall aclName Hin)
    as [(st & Hst & <- & Hinfo)|(st & Hst & <- & Hp & Hc & Hn)].
  - destruct (createRequested_ok _ _ _ _ _ _ _ _ _ Hcreate st Hst Hinfo) as [Hc Hn].
    split; [apply (proj2 G4f), Hc|].
    intros net Hnet. apply (proj1 G4f), Hn, Hnet.
  - destruct (updateExisting_ok _ _ _ _ _ _ _ _ _ Hrun st Hst) as [Hc' Hn'].
    split.
    + destruct (aclInfo st) as [info|] eqn:Hinfo.
      * apply Hc'. discriminate.
      * apply (proj2 G2f). unfold carriesRules. rewrite Hw2. apply Hc. reflexivity.
    + intros net Hnet. destruct (Hn net Hnet) as [Hadd|Hthere].
      * apply Hn', Hadd.
      * apply (proj1 G2f). rewrite Hw2. exact Hthere.
Qed.

(** X15: after a run of [OVNEnsureACLs] that returns no error, each ACL
    requested has its port group in place with at least one rule, and
    its port group on each of the networks given in place; the networks
    are to bear distinct names, as the keys of the map they come in. *)
Theorem OVNEnsureACLs_leaves_the_port_groups_in_place
    db project ids nets names reapply (w w' : ovn.NB) (cleanup : revert.Hook) :
  NoDup (map UsageName nets) ->
  OVNEnsureACLs db project ids nets names reapply w = (Ok cleanup, w') ->
  forall aclName, In aclName names ->
    carriesRules (OVNACLPortGroupName (idOf ids aclName)) w'
    /\ forall net, In net nets ->
         is_Some (ovn.portGroups w'
                    !! OVNACLNetworkPortGroupName (idOf ids aclName) (UsageID net)).
Proof. apply OVNEnsureACLs_settled_after. Qed.

End EnsurePost.

Section EnsurePostWitness.

#[local] Existing Instance gonet.lib.

(** Asked for [web] on the network [mynet] with an empty database. *)
Lemma OVNEnsureACLs_leaves_the_port_groups_in_place_witness :
  exists cleanup w',
    OVNEnsureACLs fixtures.dbWebDb "default" fixtures.idsWebDb [fixtures.mynet] ["web"] false
      (fixtures.nb ∅) = (Ok cleanup, w')
    /\ carriesRules "incus_acl1" w'
    /\ is_Some (ovn.portGroups w' !! "incus_acl1_net3").
Proof.
  assert (Hok : match fst (OVNEnsureACLs fixtures.dbWebDb "default" fixtures.idsWebDb
                              [fixtures.mynet] ["web"] false (fixtures.nb ∅)) with
                 | Ok _ => true
                 | Err _ => false
                 end = true) by (vm_compute; reflexivity).
  destruct (OVNEnsureACLs fixtures.dbWebDb "default" fixtures.idsWebDb [fixtures.mynet]
              ["web"] false (fixtures.nb ∅)) as [[h|e] w'] eqn:Hrun;
    [|discriminate Hok].
  exists h, w'. split; [reflexivity|].
  destruct (OVNEnsureACLs_leaves_the_port_groups_in_place
              fixtures.dbWebDb "default" fixtures.idsWebDb [fixtures.mynet] ["web"] false
              (fixtures.nb ∅) w' h
              ltac:(apply NoDup_cons; split; [intros H; inversion H|apply NoDup_nil; exact I])
              Hrun "web" ltac:(left; reflexivity)) as [Hc Hn].
  split; [exact Hc|]. exact (Hn fixtures.mynet ltac:(left; reflexivity)).
Defined.

End EnsurePostWitness.

(** *** A second run *)

Lemma ticks_only (w w' : ovn.NB) :
  rtc (nbStep False) w w' ->
  ovn.portGroups w' = ovn.portGroups w /\ ovn.trace w' = ovn.trace w
  /\ ovn.faults w' = ovn.faults w.
Proof.
  induction 1 as [|x y z Hxy _ IH]; [auto|].
  destruct Hxy as [x|x name g rules []]. simpl in IH. exact IH.
Qed.

Section SecondRun.

Context {netlib : NetLib}.

(** The classification of an ACL whose port groups are all in place,
    the one of the ACL with rules, when the rules are not to be applied
    again: nothing is to do for it. *)
Lemma classifyACL_settled db project ids nets ex cr n (w : ovn.NB) ex' cr' w' :
  carriesRules (OVNACLPortGroupName (idOf ids n)) w ->
  (forall net, In net nets ->
     is_Some (ovn.portGroups w !! OVNACLNetworkPortGroupName (idOf ids n) (UsageID net))) ->
  NoDup (map UsageName nets) ->
  classifyACL db project ids nets false (ex, cr) n w = (Ok (ex', cr'), w') ->
  cr' = cr /\ ex' = ex ++ [{| name := n; aclInfo := None; addACLNets := [] |}].
Proof.
  intros Hc Hn Hnd. unfold classifyACL.
  unfold bind at 1. unfold wrap at 1.
  destruct (ovn.GetPortGroupInfo (OVNACLPortGroupName (idOf ids n)) w)
    as [[[present hasACLs]|e] w1] eqn:Hinfo; [|discriminate].
  apply GetPortGroupInfo_ok in Hinfo as (-> & Hpresent & Hhas).
  assert (present = true) as ->.
  { apply Hpresent. destruct Hc as (g & -> & _). eauto. }
  assert (hasACLs = true) as -> by (apply Hhas, Hc).
  cbn [negb]. cbv iota. unfold bind at 1.
  match goal with
  | |- context [foldM nets [] ?body (ovn.tick w)] =>
      destruct (foldM nets [] body (ovn.tick w)) as [[add|e] w2] eqn:Hadd; [|discriminate]
  end.
  apply (missing_networks (idOf ids n) nets [] add (ovn.tick w) w2 Hnd) in Hadd
    as (_ & _ & _ & Hnone); [|intros v []].
  rewrite (Hnone Hn). simpl. unfold bind, ret. simpl.
  intros H. injection H as <- <- <-. auto.
Qed.

Lemma classification_settled db project ids nets names :
  NoDup (map UsageName nets) ->
  forall ex cr (w : ovn.NB) ex' cr' w',
    (forall n, In n names ->
       carriesRules (OVNACLPortGroupName (idOf ids n)) w
       /\ forall net, In net nets ->
            is_Some (ovn.portGroups w
                       !! OVNACLNetworkPortGroupName (idOf ids n) (UsageID net))) ->
    foldM names (ex, cr) (classifyACL db project ids nets false) w = (Ok (ex', cr'), w') ->
    cr' = cr
    /\ ex' = ex ++ map (fun n => {| name := n; aclInfo := None; addACLNets := [] |}) names.
Proof.
  intros Hnd. induction names as [|n names IH]; intros ex cr w ex' cr' w' Hall H.
  - simpl in H. injection H as <- <- <-. rewrite app_nil_r. auto.
  - cbn [foldM] in H. unfold bind at 1 in H.
    destruct (classifyACL db project ids nets false (ex, cr) n w)
      as [[[ex1 cr1]|e] w1] eqn:Hone; [|discriminate].
    assert (Hw1 : ovn.portGroups w1 = ovn.portGroups w).
    { pose proof (follows_classifyACL db project ids nets false (ex, cr) n w) as Hf.
      rewrite Hone in Hf. apply ticks_only in Hf. apply Hf. }
    destruct (Hall n ltac:(left; reflexivity)) as [Hc Hn].
    apply (classifyACL_settled _ _ _ _ _ _ _ _ _ _ _ Hc Hn Hnd) in Hone as [-> ->].
    apply IH in H as [-> ->].
    + split; [reflexivity|]. rewrite <- app_assoc. reflexivity.
    + intros n' Hn'. unfold carriesRules. rewrite Hw1. apply Hall. right. exact Hn'.
Qed.

Lemma updateExisting_settled db projectID project ids nets peers (names : list string) (s : Run) :
  updateExisting db projectID project ids nets peers
    (map (fun n => {| name := n; aclInfo := None; addACLNets := [] |}) names) s = (Ok tt, s).
Proof.
  unfold updateExisting. induction names as [|n names IH]; [reflexivity|].
  cbn [map forEach]. unfold bind at 1. simpl. exact IH.
Qed.

(** X16: a second run of [OVNEnsureACLs] for the same ACLs and networks
    after a run that returned no error, this time without applying the
    rules again, changes nothing in the northbound database: it sends no
    creation, update or deletion, whether its calls of the client fail
    or not. *)
Theorem OVNEnsureACLs_second_run_changes_nothing
    db project ids nets names reapply (w w1 : ovn.NB) (cleanup : revert.Hook) :
  NoDup (map UsageName nets) ->
  OVNEnsureACLs db project ids nets names reapply w = (Ok cleanup, w1) ->
  ovn.portGroups (snd (OVNEnsureACLs db project ids nets names false w1)) = ovn.portGroups w1
  /\ ovn.trace (snd (OVNEnsureACLs db project ids nets names false w1)) = ovn.trace w1.
Proof.
  intros Hnd Hfirst.
  pose proof (OVNEnsureACLs_settled_after db project ids nets names reapply w w1 cleanup
                Hnd Hfirst) as Hall.
  remember (OVNEnsureACLs db project ids nets names false w1) as run eqn:Hrun.
  unfold OVNEnsureACLs, ensureACLs in Hrun.
  unfold bind at 1, lift in Hrun.
  destruct (wrapR _ (GetProjectID db project)) as [projectID|e];
    [|subst run; split; reflexivity].
  unfold bind at 1 in Hrun.
  destruct (loadPeerTargetNetIDs db project) as [peers|e]; [|subst run; split; reflexivity].
  unfold bind at 1 in Hrun.
  destruct (checkACLNames ids names); [|subst run; split; reflexivity].
  unfold bind at 1, onClient at 1 in Hrun. cbn [client reverter] in Hrun.
  pose proof (follows_foldM (nbStep False) names
                (classifyACL db project ids nets false)
                (fun acc x => follows_classifyACL db project ids nets false acc x)
                ([], []) w1) as Hticks.
  destruct (foldM names ([], []) (classifyACL db project ids nets false) w1)
    as [[[existing create]|e] w2] eqn:Hclass.
  - apply ticks_only in Hticks as (Hg & Ht & _). simpl in Hg, Ht.
    apply (classification_settled _ _ _ _ _ Hnd) in Hclass as [-> ->]; [|exact Hall].
    simpl app in Hrun. unfold referencedACLsOf in Hrun. simpl fold_left in Hrun.
    unfold bind at 1 in Hrun. unfold createReferenced at 1 in Hrun.
    cbn [forEach] in Hrun. unfold ret at 1 in Hrun.
    unfold bind at 1 in Hrun. unfold createRequested at 1 in Hrun.
    cbn [forEach] in Hrun. unfold ret at 1 in Hrun.
    rewrite updateExisting_settled in Hrun. subst run. simpl. auto.
  - apply ticks_only in Hticks as (Hg & Ht & _). simpl in Hg, Ht. subst run. simpl. auto.
Qed.

End SecondRun.

Section SecondRunWitness.

#[local] Existing Instance gonet.lib.

Lemma OVNEnsureACLs_second_run_changes_nothing_witness :
  exists cleanup w1,
    OVNEnsureACLs fixtures.dbWebDb "default" fixtures.idsWebDb [fixtures.mynet] ["web"] false
      (fixtures.nb ∅) = (Ok cleanup, w1)
    /\ ovn.portGroups
         (snd (OVNEnsureACLs fixtures.dbWebDb "default" fixtures.idsWebDb [fixtures.mynet]
                 ["web"] false w1)) = ovn.portGroups w1
    /\ ovn.trace
         (snd (OVNEnsureACLs fixtures.dbWebDb "default" fixtures.idsWebDb [fixtures.mynet]
                 ["web"] false w1)) = ovn.trace w1.
Proof.
  assert (Hok : match fst (OVNEnsureACLs fixtures.dbWebDb "default" fixtures.idsWebDb
                              [fixtures.mynet] ["web"] false (fixtures.nb ∅)) with
                 | Ok _ => true
                 | Err _ => false
                 end = true) by (vm_compute; reflexivity).
  destruct (OVNEnsureACLs fixtures.dbWebDb "default" fixtures.idsWebDb [fixtures.mynet]
              ["web"] false (fixtures.nb ∅)) as [[h|e] w1] eqn:Hrun;
    [|discriminate Hok].
  exists h, w1. split; [reflexivity|].
  exact (OVNEnsureACLs_second_run_changes_nothing
           fixtures.dbWebDb "default" fixtures.idsWebDb [fixtures.mynet] ["web"] false
           (fixtures.nb ∅) w1 h
           ltac:(apply NoDup_cons; split; [intros H; inversion H|apply NoDup_nil; exact I])
           Hrun).
Defined.

End SecondRunWitness.

(** ** The cache of the resource inventory, call after call *)

(** X17: once more than ten seconds have passed since the inventory was
    cached, a call returns the cached inventory and leaves the cache as
    it is, whatever the inventory now reads; so do all the calls made
    later on, and the inventory is never taken again. *)
Theorem stale_inventory_is_served_forever {R} (c : resources.cache R) (cached : R)
    (calls : list (Z * Z * result R)) :
  resources.lastResources c = Some cached ->
  Forall (fun call => resources.lastRun c + 10 * resources.Second < fst (fst call)) calls ->
  fold_left (fun c' call =>
               snd (resources.GetResources (fst (fst call)) (snd (fst call)) (snd call) c'))
            calls c = c
  /\ Forall (fun call =>
               resources.GetResources (fst (fst call)) (snd (fst call)) (snd call) c
               = (Ok cached, c)) calls.
Proof.
  intros Hc Hall.
  assert (Hone : forall call,
             resources.lastRun c + 10 * resources.Second < fst (fst call) ->
             resources.GetResources (fst (fst call)) (snd (fst call)) (snd call) c
             = (Ok cached, c)).
  { intros call Hlt. unfold resources.GetResources. rewrite Hc.
    destruct (Z.ltb_spec (resources.lastRun c + 10 * resources.Second) (fst (fst call)));
      [reflexivity|lia]. }
  split.
  - induction Hall as [|call calls Hlt _ IH]; [reflexivity|].
    simpl. rewrite (Hone call Hlt). exact IH.
  - eapply Forall_impl; [exact Hall|]. exact Hone.
Qed.

Lemma stale_inventory_is_served_forever_witness :
  fold_left (fun c' call =>
               snd (resources.GetResources (fst (fst call)) (snd (fst call)) (snd call) c'))
            [(11 * resources.Second, 11 * resources.Second, Ok 2%nat);
             (3600 * resources.Second, 3600 * resources.Second, Ok 3%nat)]
            {| resources.lastResources := Some 1%nat; resources.lastRun := 0 |}
  = {| resources.lastResources := Some 1%nat; resources.lastRun := 0 |}.
Proof.
  apply (stale_inventory_is_served_forever
           {| resources.lastResources := Some 1%nat; resources.lastRun := 0 |} 1%nat
           [(11 * resources.Second, 11 * resources.Second, Ok 2%nat);
            (3600 * resources.Second, 3600 * resources.Second, Ok 3%nat)] eq_refl).
  repeat constructor.
Defined.

(** ** Package [schema] *)

Lemma wrap_id (z : Z) : - 2 ^ 63 <= z < 2 ^ 63 -> schema.wrap z = z.
Proof.
  intros H. unfold schema.wrap.
  rewrite Z.mod_small by lia. lia.
Qed.

Lemma add_one (z : Z) : - 2 ^ 63 <= z < 2 ^ 63 - 1 -> schema.add z 1 = z + 1.
Proof. intros H. unfold schema.add. apply wrap_id. lia. Qed.

Lemma consecutive_seqZ (l : list Z) :
  forall h,
    (forall i, (S i < length (h :: l))%nat -> nth (S i) (h :: l) 0 = nth i (h :: l) 0 + 1) ->
    h :: l = seqZ h (Z.of_nat (length (h :: l))).
Proof.
  induction l as [|a l IH]; intros h H.
  - reflexivity.
  - rewrite seqZ_cons by (simpl; lia).
    pose proof (H 0%nat ltac:(simpl; lia)) as H0. simpl in H0. subst a.
    f_equal.
    replace (Z.pred (Z.of_nat (length (h :: (h + 1) :: l))))
      with (Z.of_nat (length ((h + 1) :: l))) by (simpl length; lia).
    replace (Z.succ h) with (h + 1) by lia.
    apply IH. intros i Hi. apply (H (S i)). simpl in *. lia.
Qed.

Lemma nth_seqZ (h : Z) (n i : nat) :
  (i < n)%nat -> nth i (seqZ h (Z.of_nat n)) 0 = h + Z.of_nat i.
Proof.
  intros Hi. apply nth_lookup_Some with (d := 0). apply lookup_seqZ. lia.
Qed.

Lemma lookup_nth (l : list Z) (i : nat) :
  (i < length l)%nat -> l !! i = Some (nth i l 0).
Proof.
  intros Hi. destruct (lookup_lt_is_Some_2 l i Hi) as [x Hx].
  rewrite Hx. f_equal. symmetry. apply nth_lookup_Some with (d := 0). exact Hx.
Qed.

Lemma nth_take_lt (l : list Z) (n i : nat) :
  (i < n)%nat -> nth i (take n l) 0 = nth i l 0.
Proof. intros Hi. rewrite !nth_lookup, lookup_take_lt by exact Hi. reflexivity. Qed.

(** [find] on a range returns the first index that passes the test. *)
Lemma find_seq_first (f : nat -> bool) (n : nat) :
  forall a i,
    find f (seq a n) = Some i ->
    (a <= i < a + n)%nat /\ f i = true /\ forall j, (a <= j < i)%nat -> f j = false.
Proof.
  induction n as [|n IH]; intros a i H; [discriminate|]. simpl in H.
  destruct (f a) eqn:Hfa.
  - injection H as <-. split; [lia|]. split; [exact Hfa|]. intros j Hj. lia.
  - apply IH in H as (Hi & Hfi & Hbefore). split; [lia|]. split; [exact Hfi|].
    intros j Hj. destruct (decide (j = a)) as [->|Hne]; [exact Hfa|].
    apply Hbefore. lia.
Qed.

Lemma checkSchemaVersionsHaveNoHoles_cases (versions : list Z) :
  versions <> [] ->
  Forall (fun v => - 2 ^ 63 <= v < 2 ^ 63 - 1) versions ->
  (schema.checkSchemaVersionsHaveNoHoles versions = schema.Returns None
   <-> versions = seqZ (hd 0 versions) (Z.of_nat (length versions)))
  /\ (forall e,
        schema.checkSchemaVersionsHaveNoHoles versions = schema.Returns (Some e) ->
        exists (i : nat) (a b : Z),
          e = schema.EMissingUpdates a b
          /\ versions !! i = Some a /\ versions !! S i = Some b /\ b <> a + 1
          /\ take (S i) versions = seqZ (hd 0 versions) (Z.of_nat (S i))).
Proof.
  intros Hne Hrange.
  destruct versions as [|h l]; [contradiction|]. clear Hne.
  unfold schema.checkSchemaVersionsHaveNoHoles.
  set (vs := h :: l) in *.
  assert (Hadd : forall i, (i < length vs)%nat ->
                           schema.add (nth i vs 0) 1 = nth i vs 0 + 1).
  { intros i Hi. apply add_one.
    rewrite Forall_forall in Hrange. apply Hrange.
    apply list_elem_of_In, nth_In. exact Hi. }
  destruct (find _ _) as [i|] eqn:Hfind.
  - apply find_seq_first in Hfind as (Hin & Hi & Hbefore).
    apply negb_true_iff, Z.eqb_neq in Hi.
    rewrite Hadd in Hi by lia.
    split.
    + split; [discriminate|]. intros Heq. exfalso. apply Hi.
      rewrite Heq. rewrite !nth_seqZ by lia. lia.
    + intros e He. injection He as <-.
      exists i, (nth i vs 0), (nth (S i) vs 0).
      split; [reflexivity|].
      split; [apply lookup_nth; lia|]. split; [apply lookup_nth; lia|].
      split; [exact Hi|].
      assert (Htake : take (S i) vs = h :: take i l) by reflexivity.
      rewrite Htake.
      replace (Z.of_nat (S i)) with (Z.of_nat (length (h :: take i l)))
        by (simpl; rewrite length_take; simpl in Hin; lia).
      apply consecutive_seqZ. intros j Hj.
      simpl in Hj. rewrite length_take in Hj.
      assert (Hji : (j < i)%nat) by lia.
      specialize (Hbefore j ltac:(lia)).
      apply negb_false_iff, Z.eqb_eq in Hbefore.
      rewrite Hadd in Hbefore by lia.
      rewrite <- Htake. rewrite !nth_take_lt by lia. exact Hbefore.
  - split; [|discriminate].
    split; [intros _|reflexivity].
    apply consecutive_seqZ. intros i Hi.
    pose proof (find_none _ _ Hfind i) as Hn. subst vs.
    cbn [hd] in *. cbn [length] in Hi.
    rewrite <- Hadd by (cbn [length]; lia).
    apply Z.eqb_eq. apply negb_false_iff. apply Hn. apply in_seq. cbn [length]. lia.
Qed.

(** X18: on a list of versions that is not empty (the function panics
    on the empty one) and holds no version at the upper end of [int],
    [checkSchemaVersionsHaveNoHoles] returns no error exactly when the
    versions are consecutive from the first one; the error it returns
    otherwise names the first two neighbours that are not. *)
Theorem checkSchemaVersionsHaveNoHoles_spec (versions : list Z) :
  versions <> [] ->
  Forall (fun v => - 2 ^ 63 <= v < 2 ^ 63 - 1) versions ->
  (schema.checkSchemaVersionsHaveNoHoles versions = schema.Returns None
   <-> versions = seqZ (hd 0 versions) (Z.of_nat (length versions)))
  /\ (forall e,
        schema.checkSchemaVersionsHaveNoHoles versions = schema.Returns (Some e) ->
        exists (i : nat) (a b : Z),
          e = schema.EMissingUpdates a b
          /\ versions !! i = Some a /\ versions !! S i = Some b /\ b <> a + 1
          /\ take (S i) versions = seqZ (hd 0 versions) (Z.of_nat (S i))).
Proof. apply checkSchemaVersionsHaveNoHoles_cases. Qed.

Lemma checkSchemaVersionsHaveNoHoles_spec_witness :
  schema.checkSchemaVersionsHaveNoHoles [1; 2; 3] = schema.Returns None.
Proof.
  apply (proj1 (checkSchemaVersionsHaveNoHoles_spec [1; 2; 3] ltac:(discriminate)
                  ltac:(repeat constructor; lia))).
  reflexivity.
Defined.

Example checkSchemaVersionsHaveNoHoles_examples :
  schema.checkSchemaVersionsHaveNoHoles [1; 2; 4; 6]
  = schema.Returns (Some (schema.EMissingUpdates 2 4))
  /\ schema.checkSchemaVersionsHaveNoHoles [7] = schema.Returns None
  /\ schema.checkSchemaVersionsHaveNoHoles [] = schema.Panics.
Proof. repeat split. Qed.

Section SchemaUpdates.

Context {Tx : Type}.
Variable insertSchemaVersion : Z -> M Tx unit.

Lemma applyUpdates_app (hook : option (schema.Hook Tx)) (us1 us2 : list (schema.Update Tx)) :
  forall (current : Z) (tx : Tx),
    0 <= current ->
    current + Z.of_nat (length us1) < 2 ^ 63 ->
    schema.applyUpdates Tx insertSchemaVersion current (us1 ++ us2) hook tx =
    match schema.applyUpdates Tx insertSchemaVersion current us1 hook tx with
    | (None, tx1) =>
        schema.applyUpdates Tx insertSchemaVersion (current + Z.of_nat (length us1))
          us2 hook tx1
    | (Some e, tx1) => (Some e, tx1)
    end.
Proof.
  induction us1 as [|u us1 IH]; intros current tx H0 Hlt.
  - simpl. rewrite Z.add_0_r. reflexivity.
  - cbn [app schema.applyUpdates].
    destruct (match hook with Some h => h current tx | None => (Ok tt, tx) end)
      as [[[]|e] tx1]; [|reflexivity].
    destruct (u tx1) as [[[]|e] tx2]; [|reflexivity].
    rewrite add_one by (simpl length in Hlt; lia).
    destruct (insertSchemaVersion (current + 1) tx2) as [[[]|e] tx3]; [|reflexivity].
    rewrite IH by (simpl length in Hlt; lia).
    replace (current + 1 + Z.of_nat (length us1))
      with (current + Z.of_nat (length (u :: us1))) by (simpl length; lia).
    reflexivity.
Qed.

(** X19: [ensureUpdatesAreApplied] may be run in two steps, as
    [ExerciseUpdate] does with [Trim] and [Add]: applying the updates
    [us1 ++ us2] from the version [current], which is not above the
    length of [us1], is applying [us1] from [current] and then, unless
    this fails, [us1 ++ us2] from the version reached, the length of
    [us1]; the updates that are already applied are not run again. *)
Theorem ensureUpdatesAreApplied_in_two_steps
    (hook : option (schema.Hook Tx)) (us1 us2 : list (schema.Update Tx))
    (current : Z) (tx : Tx) :
  0 <= current <= Z.of_nat (length us1) ->
  Z.of_nat (length (us1 ++ us2)) < 2 ^ 63 ->
  schema.ensureUpdatesAreApplied Tx insertSchemaVersion current (us1 ++ us2) hook tx =
  match schema.ensureUpdatesAreApplied Tx insertSchemaVersion current us1 hook tx with
  | schema.Returns (None, tx1) =>
      schema.ensureUpdatesAreApplied Tx insertSchemaVersion (Z.of_nat (length us1))
        (us1 ++ us2) hook tx1
  | other => other
  end.
Proof.
  intros Hc Hlen. rewrite length_app in Hlen.
  unfold schema.ensureUpdatesAreApplied. rewrite length_app.
  destruct (Z.ltb_spec (Z.of_nat (length us1 + length us2)) current) as [?|_]; [lia|].
  destruct (Z.ltb_spec (Z.of_nat (length us1)) current) as [?|_]; [lia|].
  destruct (Z.ltb_spec (Z.of_nat (length us1 + length us2)) (Z.of_nat (length us1)))
    as [?|_]; [lia|].
  destruct (Z.ltb_spec current 0) as [?|_]; [lia|].
  destruct (Z.ltb_spec (Z.of_nat (length us1)) 0) as [?|_]; [lia|].
  destruct (Nat.eqb_spec (length us1) 0) as [E1|N1].
  - (* nothing to apply in the first step *)
    destruct us1; [|discriminate]. simpl in *.
    assert (current = 0) as -> by lia. reflexivity.
  - destruct (Nat.eqb_spec (length us1 + length us2) 0) as [?|_]; [lia|].
    rewrite Nat2Z.id, drop_app_length.
    rewrite drop_app_le by lia.
    rewrite applyUpdates_app; [|lia|rewrite length_drop; lia].
    destruct (schema.applyUpdates Tx insertSchemaVersion current
                (drop (Z.to_nat current) us1) hook tx) as [[e|] tx1]; [reflexivity|].
    rewrite length_drop.
    replace (current + Z.of_nat (length us1 - Z.to_nat current))
      with (Z.of_nat (length us1)) by lia.
    reflexivity.
Qed.

End SchemaUpdates.

Section SchemaUpdatesWitness.

Lemma ensureUpdatesAreApplied_in_two_steps_witness :
  schema.ensureUpdatesAreApplied samples.tx samples.insertVersion 1
    ([samples.logUpdate "one"; samples.logUpdate "two"] ++ [samples.logUpdate "three"])
    None ([1], [])
  = schema.Returns (None, ([1; 2; 3], ["two"; "three"])).
Proof.
  rewrite (ensureUpdatesAreApplied_in_two_steps samples.insertVersion None
             [samples.logUpdate "one"; samples.logUpdate "two"] [samples.logUpdate "three"]
             1 ([1], []) ltac:(simpl; lia) ltac:(simpl; lia)).
  vm_compute. reflexivity.
Defined.

End SchemaUpdatesWitness.

Section SchemaVersions.

Context {Tx : Type}.
Variable selectSchemaVersions : Tx -> result (list Z).
Variable insertSchemaVersion : Z -> M Tx unit.
Variable countClusterAddress : Tx -> result Z.

Lemma holes_seqZ (h : Z) (n : nat) :
  - 2 ^ 63 <= h -> h + Z.of_nat n < 2 ^ 63 - 1 ->
  schema.checkSchemaVersionsHaveNoHoles (seqZ h (Z.of_nat (S n))) = schema.Returns None.
Proof.
  intros Hlo Hhi.
  assert (Hne : seqZ h (Z.of_nat (S n)) <> []).
  { rewrite seqZ_cons by lia. discriminate. }
  apply (proj1 (checkSchemaVersionsHaveNoHoles_cases _ Hne
                  ltac:(apply Forall_seqZ; intros; lia))).
  assert (Hhd : hd 0 (seqZ h (Z.of_nat (S n))) = h)
    by (rewrite seqZ_cons by lia; reflexivity).
  rewrite length_seqZ, Nat2Z.id, Hhd. reflexivity.
Qed.

Lemma last_seqZ (h : Z) (n : nat) :
  nth (length (seqZ h (Z.of_nat (S n))) - 1) (seqZ h (Z.of_nat (S n))) 0 = h + Z.of_nat n.
Proof.
  rewrite length_seqZ, Nat2Z.id. replace (S n - 1)%nat with n by lia.
  rewrite nth_seqZ by lia. reflexivity.
Qed.



(** X21: on a table that holds the versions 1 to [n],
    [queryCurrentVersion] returns [n] and leaves the transaction as it
    is, but for [n] = 37: there it counts the rows of [config] for
    [cluster.https_address], and when there is one it records the
    version 38 and returns 38. *)
Theorem queryCurrentVersion_on_consecutive_versions (n : nat) (tx : Tx) :
  Z.of_nat n < 2 ^ 63 - 1 ->
  selectSchemaVersions tx = Ok (seqZ 1 (Z.of_nat n)) ->
  schema.queryCurrentVersion Tx selectSchemaVersions insertSchemaVersion countClusterAddress tx
  = if (n =? 37)%nat then
      match countClusterAddress tx with
      | Err e => schema.Returns (-1, Some (schema.ECheckClusterAddress e), tx)
      | Ok count =>
          if count =? 1 then
            match insertSchemaVersion 38 tx with
            | (Err _, tx2) => schema.Returns (-1, Some (schema.EInsertMissing 38), tx2)
            | (Ok _, tx2) => schema.Returns (38, None, tx2)
            end
          else schema.Returns (37, None, tx)
      end
    else schema.Returns (Z.of_nat n, None, tx).
Proof.
  intros Hlt Hsel.
  assert (Hhas : forall v, existsb (Z.eqb v) (seqZ 1 (Z.of_nat n))
                           = (1 <=? v) && (v <=? Z.of_nat n)).
  { intros v. apply eq_true_iff_eq. rewrite existsb_exists, andb_true_iff.
    rewrite Z.leb_le, Z.leb_le. split.
    - intros (x & Hx & E). apply Z.eqb_eq in E. subst x.
      apply list_elem_of_In, elem_of_seqZ in Hx. lia.
    - intros Hv. exists v. split; [|apply Z.eqb_refl].
      apply list_elem_of_In, elem_of_seqZ. lia. }
  unfold schema.queryCurrentVersion. rewrite Hsel. cbv zeta. rewrite !Hhas.
  assert (H31 : (1 <=? 30) && (30 <=? Z.of_nat n) && ((1 <=? 32) && (32 <=? Z.of_nat n))
                && negb ((1 <=? 31) && (31 <=? Z.of_nat n)) = false).
  { destruct (Z.leb_spec 30 (Z.of_nat n)), (Z.leb_spec 32 (Z.of_nat n)),
      (Z.leb_spec 31 (Z.of_nat n)); simpl; try reflexivity; lia. }
  rewrite H31. cbv iota beta. rewrite !Hhas.
  destruct (Nat.eqb_spec n 37) as [->|Hn].
  - change ((1 <=? 37) && (37 <=? Z.of_nat 37) && negb ((1 <=? 38) && (38 <=? Z.of_nat 37)))
      with true. cbv iota.
    destruct (countClusterAddress tx) as [count|e]; [|reflexivity].
    destruct (count =? 1); [|reflexivity].
    destruct (insertSchemaVersion 38 tx) as [[[]|e] tx2]; reflexivity.
  - assert (H38 : (1 <=? 37) && (37 <=? Z.of_nat n)
                  && negb ((1 <=? 38) && (38 <=? Z.of_nat n)) = false).
    { destruct (Z.leb_spec 37 (Z.of_nat n)), (Z.leb_spec 38 (Z.of_nat n));
        simpl; try reflexivity; lia. }
    rewrite H38.
    destruct n as [|n]; [reflexivity|].
    rewrite length_seqZ, Nat2Z.id. cbn [Nat.ltb Nat.leb].
    rewrite holes_seqZ by lia.
    pose proof (last_seqZ 1 n) as Hlast. rewrite length_seqZ, Nat2Z.id in Hlast.
    rewrite Hlast. do 3 f_equal. lia.
Qed.

End SchemaVersions.

Section SchemaVersionsWitness.


Lemma queryCurrentVersion_on_consecutive_versions_witness :
  schema.queryCurrentVersion samples.tx samples.selectVersions samples.insertVersion
    samples.countOne (seqZ 1 37, [])
  = schema.Returns (38, None, (seqZ 1 38, [])).
Proof.
  rewrite (queryCurrentVersion_on_consecutive_versions
             samples.selectVersions samples.insertVersion samples.countOne 37
             (seqZ 1 37, []) ltac:(simpl; lia) eq_refl).
  reflexivity.
Defined.

End SchemaVersionsWitness.

Section SchemaSlices.

Context {Tx : Type}.

#[local] Existing Instance schema.Update_inhabited.

Lemma collectUpdates_spec (m : gmap Z (schema.Update Tx)) (versions : list Z) :
  forall (i : nat) (acc : list (schema.Update Tx)),
    schema.collectUpdates Tx m versions i acc =
    if decide (versions = seqZ (Z.of_nat i + 1) (Z.of_nat (length versions)))
    then schema.Returns (acc ++ map (fun v => m !!! v) versions)
    else schema.Panics.
Proof.
  induction versions as [|v versions IH]; intros i acc.
  - simpl. rewrite app_nil_r. reflexivity.
  - cbn [schema.collectUpdates]. rewrite seqZ_cons by (simpl; lia).
    destruct (Z.eqb_spec v (Z.of_nat i + 1)) as [->|Hne]; cbn [negb].
    + rewrite IH.
      replace (Z.of_nat (S i) + 1) with (Z.succ (Z.of_nat i + 1)) by lia.
      replace (Z.pred (Z.of_nat (length ((Z.of_nat i + 1) :: versions))))
        with (Z.of_nat (length versions)) by (simpl length; lia).
      destruct (decide (versions = seqZ _ _)) as [E|N].
      * rewrite decide_True by (f_equal; exact E).
        rewrite <- app_assoc. reflexivity.
      * rewrite decide_False; [reflexivity|]. intros E. injection E as E. contradiction.
    + rewrite decide_False; [reflexivity|]. intros E. injection E as E _. contradiction.
Qed.

Lemma StronglySorted_seqZ (h : Z) (n : nat) : StronglySorted Z.le (seqZ h (Z.of_nat n)).
Proof.
  revert h. induction n as [|n IH]; intros h.
  - constructor.
  - rewrite seqZ_cons by lia.
    replace (Z.pred (Z.of_nat (S n))) with (Z.of_nat n) by lia.
    constructor; [apply IH|]. apply Forall_seqZ. intros; lia.
Qed.

(** The keys of a map in increasing order are 1 to the size of the map
    exactly when these are the keys. *)
Lemma sorted_keys_seqZ {A} (m : gmap Z A) :
  merge_sort Z.le (map fst (map_to_list m)) = seqZ 1 (Z.of_nat (size m))
  <-> forall k, is_Some (m !! k) <-> 1 <= k <= Z.of_nat (size m).
Proof.
  assert (Hkeys : forall k, k ∈ map fst (map_to_list m) <-> is_Some (m !! k)).
  { intros k. rewrite list_elem_of_fmap. split.
    - intros ([k' x] & -> & Hin). apply elem_of_map_to_list in Hin. simpl. eauto.
    - intros [x Hx]. exists (k, x). split; [reflexivity|]. apply elem_of_map_to_list, Hx. }
  pose proof (merge_sort_Permutation Z.le (map fst (map_to_list m))) as Hperm.
  split.
  - intros Hs k. rewrite <- Hkeys, <- Hperm, Hs, elem_of_seqZ. lia.
  - intros Hm.
    apply (StronglySorted_unique Z.le).
    + apply StronglySorted_merge_sort; apply _.
    + apply StronglySorted_seqZ.
    + rewrite Hperm. apply NoDup_Permutation.
      * apply NoDup_fst_map_to_list.
      * apply NoDup_seqZ.
      * intros k. rewrite Hkeys, Hm, elem_of_seqZ. lia.
Qed.

(** X22: [NewFromMap] returns a schema exactly when the keys of the map
    are the versions 1 to the size of the map, and panics otherwise; the
    updates of the schema are then the values of the map in the order
    of their versions. *)
Theorem NewFromMap_spec (m : gmap Z (schema.Update Tx)) :
  match schema.NewFromMap Tx m with
  | schema.Returns updates =>
      length updates = size m
      /\ (forall k, is_Some (m !! k) <-> 1 <= k <= Z.of_nat (size m))
      /\ forall i : nat, updates !! i = m !! (Z.of_nat i + 1)
  | schema.Panics =>
      ~ (forall k, is_Some (m !! k) <-> 1 <= k <= Z.of_nat (size m))
  end.
Proof.
  unfold schema.NewFromMap. rewrite collectUpdates_spec.
  assert (Hlen : length (merge_sort Z.le (map fst (map_to_list m))) = size m).
  { rewrite (merge_sort_Permutation Z.le), length_map. apply length_map_to_list. }
  rewrite Hlen. change (Z.of_nat 0 + 1) with 1.
  destruct (decide (merge_sort Z.le (map fst (map_to_list m)) = seqZ 1 (Z.of_nat (size m))))
    as [E|N].
  - rewrite E. pose proof (proj1 (sorted_keys_seqZ m) E) as Hkeys.
    cbn [app]. split; [rewrite length_map, length_seqZ; lia|]. split; [exact Hkeys|].
    intros i. rewrite list_lookup_fmap.
    destruct (decide (i < size m)%nat) as [Hi|Hi].
    + rewrite lookup_seqZ_lt by lia. cbn [fmap option_fmap option_map].
      destruct (proj2 (Hkeys (Z.of_nat i + 1)) ltac:(lia)) as [x Hx].
      replace (1 + Z.of_nat i) with (Z.of_nat i + 1) by lia.
      rewrite Hx. f_equal. apply lookup_total_correct. exact Hx.
    + rewrite lookup_seqZ_ge by lia. cbn [fmap option_fmap option_map].
      destruct (m !! (Z.of_nat i + 1)) as [x|] eqn:Hx; [|reflexivity].
      pose proof (proj1 (Hkeys (Z.of_nat i + 1)) ltac:(eauto)). lia.
  - intros Hkeys. apply N. apply sorted_keys_seqZ. exact Hkeys.
Qed.

End SchemaSlices.


Section SchemaTrimAdd.

Context {Tx : Type}.
Variable newcap : nat -> nat.

(** X23: the slice [Trim] returns shares its array with the updates the
    schema keeps. For a version below the number of updates, an [Add]
    that follows finds room in the array and writes the new update in
    place: the schema holds the updates up to the version and the new
    one, and the first of the trimmed updates is overwritten by it in
    the slice returned before. *)
Theorem Add_after_Trim_overwrites_the_trimmed_updates
    (h : schema.heap Tx) (s : schema.Schema) (version : Z)
    (update : schema.Update Tx) (arr : list (option (schema.Update Tx))) :
  h !! schema.array (schema.updates s) = Some arr ->
  (schema.low (schema.updates s) + schema.len (schema.updates s) <= length arr)%nat ->
  0 <= version < Z.of_nat (schema.len (schema.updates s)) ->
  exists trimmed s' h' s'',
    schema.Trim s version = schema.Returns (trimmed, s')
    /\ schema.Add Tx newcap h s' update = (h', s'')
    /\ schema.fresh s'' = ""
    /\ schema.elements Tx h trimmed
       = drop (Z.to_nat version) (schema.elements Tx h (schema.updates s))
    /\ schema.elements Tx h' (schema.updates s'')
       = take (Z.to_nat version) (schema.elements Tx h (schema.updates s)) ++ [Some update]
    /\ schema.elements Tx h' trimmed
       = Some update :: drop (S (Z.to_nat version)) (schema.elements Tx h (schema.updates s)).
Proof.
  intros Harr Hwf Hv.
  destruct s as [[a lo n] fr]. simpl in *.
  unfold schema.Trim. simpl.
  replace (version <? 0) with false by (symmetry; apply Z.ltb_ge; lia).
  replace (Z.of_nat n <? version) with false by (symmetry; apply Z.ltb_ge; lia).
  simpl.
  set (v := Z.to_nat version).
  assert (Hvn : (v < n)%nat) by (unfold v; lia).
  exists {| schema.array := a; schema.low := (lo + v)%nat; schema.len := (n - v)%nat |}.
  exists {| schema.updates := {| schema.array := a; schema.low := lo; schema.len := v |};
            schema.fresh := "" |}.
  unfold schema.Add, schema.append, schema.cap.
  cbn [schema.updates schema.array schema.low schema.len schema.fresh].
  rewrite Harr. cbn [default]. unfold id.
  replace (v <? length arr - lo)%nat with true by (symmetry; apply Nat.ltb_lt; lia).
  eexists _, _. split; [reflexivity|]. split; [reflexivity|]. split; [reflexivity|].
  unfold schema.elements. cbn [schema.updates schema.array schema.low schema.len].
  unfold schema.heap in *. rewrite ?lookup_insert_eq, ?Harr. cbn [default]. unfold id.
  assert (Hlen : (lo + v < length arr)%nat) by lia.
  split; [|split].
  - rewrite skipn_firstn_comm, drop_drop. reflexivity.
  - rewrite drop_insert_ge by lia. replace (lo + v - lo)%nat with v by lia.
    assert (Hl : (v < length (drop lo arr))%nat) by (rewrite length_drop; lia).
    rewrite (take_S_r _ _ (Some update)) by (apply list_lookup_insert_eq; exact Hl).
    rewrite take_insert_ge by lia. rewrite take_take.
    replace (v `min` n)%nat with v by lia. reflexivity.
  - rewrite (drop_S _ (Some update)) by (apply list_lookup_insert_eq; exact Hlen).
    rewrite drop_insert_lt by lia.
    replace (n - v)%nat with (S (n - S v)) by lia. cbn [take]. f_equal.
    rewrite skipn_firstn_comm, drop_drop.
    replace (lo + S v)%nat with (S (lo + v)) by lia. reflexivity.
Qed.

End SchemaTrimAdd.

Lemma Add_after_Trim_overwrites_the_trimmed_updates_witness :
  exists trimmed s' h' s'',
    schema.Trim {| schema.updates := {| schema.array := 0; schema.low := 0; schema.len := 3 |};
                   schema.fresh := "CREATE TABLE t (id INTEGER)" |} 1
    = schema.Returns (trimmed, s')
    /\ schema.Add samples.tx (fun n => 2 * n)%nat
         {[ 0%nat := [Some (samples.logUpdate "one"); Some (samples.logUpdate "two");
                      Some (samples.logUpdate "three")] ]}
         s' (samples.logUpdate "four") = (h', s'')
    /\ schema.elements samples.tx h' trimmed
       = [Some (samples.logUpdate "four"); Some (samples.logUpdate "three")].
Proof.
  assert (Harr : ({[ 0%nat := [Some (samples.logUpdate "one"); Some (samples.logUpdate "two");
                               Some (samples.logUpdate "three")] ]}
                  : gmap nat (list (option (schema.Update samples.tx)))) !! 0%nat
                 = Some [Some (samples.logUpdate "one"); Some (samples.logUpdate "two");
                         Some (samples.logUpdate "three")])
    by apply lookup_singleton_eq.
  destruct (Add_after_Trim_overwrites_the_trimmed_updates (fun n => 2 * n)%nat _
              {| schema.updates := {| schema.array := 0; schema.low := 0; schema.len := 3 |};
                 schema.fresh := "CREATE TABLE t (id INTEGER)" |}
              1 (samples.logUpdate "four") _
              Harr ltac:(simpl; lia) ltac:(simpl; lia))
    as (trimmed & s' & h' & s'' & HT & HA & _ & _ & _ & Hel).
  exists trimmed, s', h', s''. split; [exact HT|]. split; [exact HA|]. exact Hel.
Defined.
